(** * Houdini MCP: transport, registry and connection life cycle

    A shallow embedding of the core of [houdinimcp_addon.py] (the host that
    runs inside Houdini) and [src/houdini_mcp/server.py] (the MCP client),
    and the properties of the specification that concern them.

    Conventions.  A Python [str] is a list of Unicode code points and a
    Python [bytes] a list of byte values, both as [list Z].  The values that
    travel over the wire and sit in registry files are those of the [json]
    module: [None], booleans, integers, strings, lists and dictionaries
    with string keys.  Floating point numbers are outside the model: a
    document that contains a fraction or an exponent is not accepted by
    [loads]. *)

From Stdlib Require Import String Ascii.
From Stdlib Require Import ZArith List Bool Lia Decimal DecimalZ DecimalPos
  DecimalN Sorted Permutation.
Import ListNotations.
Local Open Scope Z_scope.

(** ** Python values *)

Abbreviation pystr := (list Z) (only parsing).
Abbreviation bytes := (list Z) (only parsing).

(** [py "text"] is the Python string literal with that (ASCII) text. *)
Definition py (s : string) : pystr :=
  map (fun a => Z.of_N (N_of_ascii a)) (list_ascii_of_string s).

#[local] Unset Elimination Schemes.
Inductive value : Type :=
| PNone
| PBool (b : bool)
| PInt (z : Z)
| PStr (s : pystr)
| PList (l : list value)
| PDict (d : list (pystr * value)).
#[local] Set Elimination Schemes.

Definition pystr_eqb (a b : pystr) : bool :=
  if list_eq_dec Z.eq_dec a b then true else false.

(** Truth value testing: [if x:]. *)
Definition truthy (v : value) : bool :=
  match v with
  | PNone => false
  | PBool b => b
  | PInt z => negb (z =? 0)
  | PStr s => match s with [] => false | _ => true end
  | PList l => match l with [] => false | _ => true end
  | PDict d => match d with [] => false | _ => true end
  end.

(** [type(x).__name__] *)
Definition type_name (v : value) : pystr :=
  match v with
  | PNone => py "NoneType"
  | PBool _ => py "bool"
  | PInt _ => py "int"
  | PStr _ => py "str"
  | PList _ => py "list"
  | PDict _ => py "dict"
  end.

(** Dictionaries keep insertion order; a key occurs once. *)
Fixpoint dict_lookup (d : list (pystr * value)) (k : pystr) : option value :=
  match d with
  | [] => None
  | (k', v) :: d' => if pystr_eqb k' k then Some v else dict_lookup d' k
  end.

Fixpoint dict_set (d : list (pystr * value)) (k : pystr) (v : value)
  : list (pystr * value) :=
  match d with
  | [] => [(k, v)]
  | (k', v') :: d' =>
      if pystr_eqb k' k then (k', v) :: d' else (k', v') :: dict_set d' k v
  end.

(** [dict(pairs)]: a later pair overwrites the value of an earlier one. *)
Definition dict_of_pairs (pairs : list (pystr * value)) : list (pystr * value) :=
  fold_left (fun d kv => dict_set d (fst kv) (snd kv)) pairs [].

(** [d.get(k, default)] on a dictionary. *)
Definition dict_get (d : list (pystr * value)) (k : pystr) (default : value)
  : value :=
  match dict_lookup d k with Some v => v | None => default end.

(** ** Text: decimal numbers and hexadecimal escapes *)

Definition digit_char (d : Z) : Z := 48 + d.

Fixpoint uint_chars (u : Decimal.uint) : pystr :=
  match u with
  | Nil => []
  | D0 u => 48 :: uint_chars u
  | D1 u => 49 :: uint_chars u
  | D2 u => 50 :: uint_chars u
  | D3 u => 51 :: uint_chars u
  | D4 u => 52 :: uint_chars u
  | D5 u => 53 :: uint_chars u
  | D6 u => 54 :: uint_chars u
  | D7 u => 55 :: uint_chars u
  | D8 u => 56 :: uint_chars u
  | D9 u => 57 :: uint_chars u
  end.

(** [str(n)] for an integer. *)
Definition int_chars (z : Z) : pystr :=
  match Z.to_int z with
  | Decimal.Pos u => uint_chars u
  | Decimal.Neg u => 45 :: uint_chars u
  end.

Definition is_digit (c : Z) : bool := (48 <=? c) && (c <=? 57).

Definition push_digit (c : Z) (u : Decimal.uint) : Decimal.uint :=
  if c =? 48 then D0 u else if c =? 49 then D1 u else if c =? 50 then D2 u
  else if c =? 51 then D3 u else if c =? 52 then D4 u else if c =? 53 then D5 u
  else if c =? 54 then D6 u else if c =? 55 then D7 u else if c =? 56 then D8 u
  else D9 u.

(** The longest run of digits at the head of the text. *)
Fixpoint scan_digits (s : pystr) : Decimal.uint * pystr :=
  match s with
  | c :: r =>
      if is_digit c then
        let '(u, r') := scan_digits r in (push_digit c u, r')
      else (Nil, s)
  | [] => (Nil, [])
  end.

(** The integer part of [NUMBER_RE]: [0] or a non-zero digit followed by
    digits.  A [0] is never followed by further digits of the same number. *)
Definition scan_uint (s : pystr) : option (Decimal.uint * pystr) :=
  match s with
  | c :: r =>
      if c =? 48 then Some (D0 Nil, r)
      else if is_digit c then Some (scan_digits s)
      else None
  | [] => None
  end.

Definition hex_char (d : Z) : Z := if d <? 10 then 48 + d else 87 + d.

(** ['{0:04x}'.format(n)] *)
Definition hex4 (n : Z) : pystr :=
  [hex_char (n / 4096 mod 16); hex_char (n / 256 mod 16);
   hex_char (n / 16 mod 16); hex_char (n mod 16)].

Definition hex_val (c : Z) : option Z :=
  if (48 <=? c) && (c <=? 57) then Some (c - 48)
  else if (97 <=? c) && (c <=? 102) then Some (c - 87)
  else if (65 <=? c) && (c <=? 70) then Some (c - 55)
  else None.

(** Four hexadecimal digits at the head of the text. *)
Definition scan_hex4 (s : pystr) : option (Z * pystr) :=
  match s with
  | a :: b :: c :: d :: r =>
      match hex_val a, hex_val b, hex_val c, hex_val d with
      | Some x, Some y, Some z, Some w =>
          Some (x * 4096 + y * 256 + z * 16 + w, r)
      | _, _, _, _ => None
      end
  | _ => None
  end.

(** ** The [json] module: [dumps] *)

(** One character of a string under [ensure_ascii=True]
    ([py_encode_basestring_ascii]): short escapes, printable ASCII as it
    is, [\uXXXX] for the rest of the basic plane and a surrogate pair
    above it.  The pair [0xd800 | ((n >> 10) & 0x3ff)],
    [0xdc00 | (n & 0x3ff)] is written with division and remainder, which
    agree with the bit operations for [n < 2^20]. *)
Definition escape_char (c : Z) : pystr :=
  if c =? 34 then [92; 34]
  else if c =? 92 then [92; 92]
  else if c =? 10 then [92; 110]
  else if c =? 13 then [92; 114]
  else if c =? 9 then [92; 116]
  else if c =? 8 then [92; 98]
  else if c =? 12 then [92; 102]
  else if (32 <=? c) && (c <=? 126) then [c]
  else if c <? 65536 then 92 :: 117 :: hex4 c
  else
    let n := c - 65536 in
    92 :: 117 :: hex4 (55296 + n / 1024) ++ 92 :: 117 :: hex4 (56320 + n mod 1024).

Definition dumps_str (s : pystr) : pystr :=
  34 :: flat_map escape_char s ++ [34].

(** [json.dumps(v)] with the default separators [", "] and [": "]. *)
Fixpoint dumps (v : value) : pystr :=
  match v with
  | PNone => py "null"
  | PBool true => py "true"
  | PBool false => py "false"
  | PInt z => int_chars z
  | PStr s => dumps_str s
  | PList l =>
      91 ::
      match l with
      | [] => []
      | x :: l' =>
          dumps x ++
          (fix rest (l : list value) : pystr :=
             match l with
             | [] => []
             | y :: l'' => 44 :: 32 :: dumps y ++ rest l''
             end) l'
      end ++ [93]
  | PDict d =>
      123 ::
      match d with
      | [] => []
      | (k, x) :: d' =>
          dumps_str k ++ 58 :: 32 :: dumps x ++
          (fix rest (d : list (pystr * value)) : pystr :=
             match d with
             | [] => []
             | (k', y) :: d'' =>
                 44 :: 32 :: dumps_str k' ++ 58 :: 32 :: dumps y ++ rest d''
             end) d'
      end ++ [125]
  end.

(** [s.startswith(p)] *)
Fixpoint startswith (s p : pystr) {struct p} : bool :=
  match p, s with
  | [], _ => true
  | a :: p', b :: s' => (a =? b) && startswith s' p'
  | _ :: _, [] => false
  end.

(** ** The [json] module: [loads] *)

Definition is_ws (c : Z) : bool :=
  (c =? 32) || (c =? 9) || (c =? 10) || (c =? 13).

Fixpoint skip_ws (s : pystr) : pystr :=
  match s with
  | c :: r => if is_ws c then skip_ws r else s
  | [] => []
  end.

Definition unescape (e : Z) : option Z :=
  if e =? 34 then Some 34
  else if e =? 92 then Some 92
  else if e =? 47 then Some 47
  else if e =? 98 then Some 8
  else if e =? 102 then Some 12
  else if e =? 110 then Some 10
  else if e =? 114 then Some 13
  else if e =? 116 then Some 9
  else None.

Definition cons_char (c : Z) (r : option (pystr * pystr))
  : option (pystr * pystr) :=
  match r with
  | Some (s, rest) => Some (c :: s, rest)
  | None => None
  end.

Definition is_high_surrogate (u : Z) : bool := (55296 <=? u) && (u <=? 56319).
Definition is_low_surrogate (u : Z) : bool := (56320 <=? u) && (u <=? 57343).

(** [scanstring] in strict mode, from the character after the opening
    quote: the decoded string and the text after the closing quote.  The
    fuel bounds the number of characters read. *)
Fixpoint scanstring_aux (n : nat) (s : pystr) : option (pystr * pystr) :=
  match n with
  | O => None
  | S n =>
      match s with
      | [] => None
      | c :: r =>
          if c =? 34 then Some ([], r)
          else if c =? 92 then
            match r with
            | [] => None
            | e :: r1 =>
                if e =? 117 then
                  match scan_hex4 r1 with
                  | None => None
                  | Some (u, r2) =>
                      if is_high_surrogate u && startswith r2 [92; 117] then
                        match scan_hex4 (skipn 2 r2) with
                        | None => None
                        | Some (u2, r4) =>
                            if is_low_surrogate u2 then
                              cons_char
                                (65536 + (u - 55296) * 1024 + (u2 - 56320))
                                (scanstring_aux n r4)
                            else cons_char u (scanstring_aux n r2)
                        end
                      else cons_char u (scanstring_aux n r2)
                  end
                else
                  match unescape e with
                  | Some ch => cons_char ch (scanstring_aux n r1)
                  | None => None
                  end
            end
          else if c <? 32 then None
          else cons_char c (scanstring_aux n r)
      end
  end.

Definition scanstring (s : pystr) : option (pystr * pystr) :=
  scanstring_aux (length s) s.

Fixpoint strip_prefix (p s : pystr) : option pystr :=
  match p, s with
  | [], _ => Some s
  | a :: p', b :: s' => if a =? b then strip_prefix p' s' else None
  | _ :: _, [] => None
  end.

(** A number at the head of the text.  Only integers are in the model:
    the fraction and exponent of [NUMBER_RE] are not read, so a document
    with a float fails at the character that follows its integer part. *)
Definition scan_number (s : pystr) : option (value * pystr) :=
  match s with
  | c :: r =>
      if c =? 45 then
        match scan_uint r with
        | Some (u, r') => Some (PInt (Z.of_int (Decimal.Neg u)), r')
        | None => None
        end
      else
        match scan_uint s with
        | Some (u, r') => Some (PInt (Z.of_int (Decimal.Pos u)), r')
        | None => None
        end
  | [] => None
  end.

(** [scan_once]: one value that starts at the head of the text (no
    leading white space), with [JSONObject] and [JSONArray].
    [parse_members] starts after the opening quote of a key,
    [parse_elems] at the first character of an element. *)
Fixpoint parse_value (n : nat) (s : pystr) {struct n} : option (value * pystr) :=
  match n with
  | O => None
  | S n =>
      match s with
      | [] => None
      | c :: r =>
          if c =? 34 then
            match scanstring r with
            | Some (str, r') => Some (PStr str, r')
            | None => None
            end
          else if c =? 123 then
            match skip_ws r with
            | c1 :: r1 =>
                if c1 =? 125 then Some (PDict [], r1)
                else if c1 =? 34 then
                  match parse_members n r1 with
                  | Some (pairs, r2) => Some (PDict (dict_of_pairs pairs), r2)
                  | None => None
                  end
                else None
            | [] => None
            end
          else if c =? 91 then
            match skip_ws r with
            | c1 :: r1 =>
                if c1 =? 93 then Some (PList [], r1)
                else
                  match parse_elems n (c1 :: r1) with
                  | Some (vs, r2) => Some (PList vs, r2)
                  | None => None
                  end
            | [] => None
            end
          else if c =? 110 then
            match strip_prefix (py "ull") r with
            | Some r' => Some (PNone, r')
            | None => None
            end
          else if c =? 116 then
            match strip_prefix (py "rue") r with
            | Some r' => Some (PBool true, r')
            | None => None
            end
          else if c =? 102 then
            match strip_prefix (py "alse") r with
            | Some r' => Some (PBool false, r')
            | None => None
            end
          else scan_number s
      end
  end
with parse_members (n : nat) (s : pystr) {struct n}
  : option (list (pystr * value) * pystr) :=
  match n with
  | O => None
  | S n =>
      match scanstring s with
      | None => None
      | Some (key, r) =>
          match skip_ws r with
          | c :: r1 =>
              if c =? 58 then
                match parse_value n (skip_ws r1) with
                | None => None
                | Some (v, r2) =>
                    match skip_ws r2 with
                    | c2 :: r3 =>
                        if c2 =? 125 then Some ([(key, v)], r3)
                        else if c2 =? 44 then
                          match skip_ws r3 with
                          | c3 :: r4 =>
                              if c3 =? 34 then
                                match parse_members n r4 with
                                | Some (ps, r5) => Some ((key, v) :: ps, r5)
                                | None => None
                                end
                              else None
                          | [] => None
                          end
                        else None
                    | [] => None
                    end
                end
              else None
          | [] => None
          end
      end
  end
with parse_elems (n : nat) (s : pystr) {struct n}
  : option (list value * pystr) :=
  match n with
  | O => None
  | S n =>
      match parse_value n s with
      | None => None
      | Some (v, r) =>
          match skip_ws r with
          | c :: r1 =>
              if c =? 93 then Some ([v], r1)
              else if c =? 44 then
                match parse_elems n (skip_ws r1) with
                | Some (vs, r2) => Some (v :: vs, r2)
                | None => None
                end
              else None
          | [] => None
          end
      end
  end.

(** [json.loads(s)]: one value between optional white space and nothing
    else; [None] stands for [JSONDecodeError]. *)
Definition loads (s : pystr) : option value :=
  match parse_value (S (length s)) (skip_ws s) with
  | Some (v, r) => match skip_ws r with [] => Some v | _ => None end
  | None => None
  end.

(** ** UTF-8 *)

Definition is_cont (b : Z) : bool := (128 <=? b) && (b <=? 191).

(** [data.decode('utf-8')], strict: [None] stands for
    [UnicodeDecodeError]. *)
Fixpoint utf8_decode (bs : bytes) : option pystr :=
  match bs with
  | [] => Some []
  | b :: r =>
      if (0 <=? b) && (b <? 128) then option_map (cons b) (utf8_decode r)
      else if (194 <=? b) && (b <=? 223) then
        match r with
        | c1 :: r1 =>
            if is_cont c1
            then option_map (cons ((b - 192) * 64 + (c1 - 128))) (utf8_decode r1)
            else None
        | _ => None
        end
      else if (224 <=? b) && (b <=? 239) then
        match r with
        | c1 :: c2 :: r2 =>
            if is_cont c1 && is_cont c2
               && (negb (b =? 224) || (160 <=? c1))
               && (negb (b =? 237) || (c1 <=? 159))
            then option_map
                   (cons ((b - 224) * 4096 + (c1 - 128) * 64 + (c2 - 128)))
                   (utf8_decode r2)
            else None
        | _ => None
        end
      else if (240 <=? b) && (b <=? 244) then
        match r with
        | c1 :: c2 :: c3 :: r3 =>
            if is_cont c1 && is_cont c2 && is_cont c3
               && (negb (b =? 240) || (144 <=? c1))
               && (negb (b =? 244) || (c1 <=? 143))
            then option_map
                   (cons ((b - 240) * 262144 + (c1 - 128) * 4096
                          + (c2 - 128) * 64 + (c3 - 128)))
                   (utf8_decode r3)
            else None
        | _ => None
        end
      else None
  end.

(** [text.encode('utf-8')]: [None] stands for [UnicodeEncodeError]
    (a surrogate, which has no encoding). *)
Fixpoint utf8_encode (t : pystr) : option bytes :=
  match t with
  | [] => Some []
  | c :: r =>
      let enc :=
        if (0 <=? c) && (c <? 128) then Some [c]
        else if (128 <=? c) && (c <? 2048) then
          Some [192 + c / 64; 128 + c mod 64]
        else if (2048 <=? c) && (c <? 65536) then
          if is_high_surrogate c || is_low_surrogate c then None
          else Some [224 + c / 4096; 128 + c / 64 mod 64; 128 + c mod 64]
        else if (65536 <=? c) && (c <? 1114112) then
          Some [240 + c / 262144; 128 + c / 4096 mod 64;
                128 + c / 64 mod 64; 128 + c mod 64]
        else None in
      match enc, utf8_encode r with
      | Some e, Some r' => Some (e ++ r')
      | _, _ => None
      end
  end.

(** What [json.loads(buf.decode('utf-8'))] does with the bytes received
    so far. *)
Inductive decoded : Type :=
| DecOk (v : value)
| DecJSONError
| DecUnicodeError.

Definition decode_json (buf : bytes) : decoded :=
  match utf8_decode buf with
  | None => DecUnicodeError
  | Some t =>
      match loads t with
      | Some v => DecOk v
      | None => DecJSONError
      end
  end.

(** [json.dumps(v).encode('utf-8')] *)
Definition encode_json (v : value) : option bytes := utf8_encode (dumps v).

(** ** Exceptions *)

Inductive os_error : Type :=
| ProcessLookupError     (* ESRCH *)
| PermissionError        (* EPERM *)
| OtherOSError (m : pystr).

(** The exceptions the core raises or lets through.  [ConnectionError]
    stands for itself and its subclasses [BrokenPipeError] and
    [ConnectionResetError]; they are told apart from the other [OSError]s
    because [send_command] catches them by name.  An exception raised by
    the Python library is identified by its class.  The message of a plain
    [Exception] is kept as the code builds it: a literal, [str(value)], or
    a prefix followed by [str(e)] of the exception that was caught. *)
Inductive exn : Type :=
| SocketTimeout
| ConnectionError (m : pystr)
| OSError (e : os_error)
| UnicodeDecodeError
| UnicodeEncodeError
| JSONDecodeError
| TypeError
| KeyError (k : pystr)
| AttributeError
| OverflowError
| Exception (m : message)
with message : Type :=
| MsgLit (s : pystr)
| MsgValue (v : value)
| MsgWrap (prefix : pystr) (e : exn).

Inductive result (A : Type) : Type :=
| Return (a : A)
| Raise (e : exn).
Arguments Return {A} a.
Arguments Raise {A} e.

Definition is_return {A} (r : result A) : bool :=
  match r with Return _ => true | Raise _ => false end.

(** ** Liveness prober *)

Inductive platform : Type := Win32 | Posix.

(** What the kernel answers to [kill(pid, sig)] for a [pid] that fits a
    C [pid_t]. *)
Inductive kill_answer : Type := KillOk | KillESRCH | KillEPERM.

(** The operating system as the prober sees it.  [win_open_process pid]
    is the handle [OpenProcess(PROCESS_QUERY_LIMITED_INFORMATION, False,
    pid)] returns ([0] for [NULL]), or [None] when [ctypes] raises. *)
Record os_state : Type := {
  os_platform : platform;
  os_kill_answer : Z -> kill_answer;
  win_open_process : value -> option Z
}.

(** A signal that reached a process: [(pid, signal number)]. *)
Abbreviation signal := (Z * Z)%type (only parsing).

(** The integer an argument converts to ([__index__]); [bool] is a
    subclass of [int]. *)
Definition as_int (v : value) : option Z :=
  match v with
  | PInt z => Some z
  | PBool b => Some (if b then 1 else 0)
  | _ => None
  end.

(** [os.kill(pid, sig)]: the argument must be an integer that fits a C
    [int], else [TypeError] or [OverflowError] before any system call.
    Signal [0] performs the existence and permission checks and delivers
    nothing. *)
Definition os_kill (os : os_state) (pid : value) (sig : Z)
  : result unit * list signal :=
  match as_int pid with
  | None =>
      (Raise TypeError, [])
  | Some z =>
      if (- 2147483648 <=? z) && (z <=? 2147483647) then
        match os_kill_answer os z with
        | KillOk => (Return tt, if sig =? 0 then [] else [(z, sig)])
        | KillESRCH => (Raise (OSError ProcessLookupError), [])
        | KillEPERM => (Raise (OSError PermissionError), [])
        end
      else (Raise OverflowError, [])
  end.

(** [_is_pid_alive(pid)], the same function in both files. *)
Definition _is_pid_alive (os : os_state) (pid : value)
  : result bool * list signal :=
  match os_platform os with
  | Win32 =>
      match win_open_process os pid with
      | Some handle => (Return (negb (handle =? 0)), [])
      | None => (Return false, [])
      end
  | Posix =>
      match os_kill os pid 0 with
      | (Return _, sent) => (Return true, sent)
      | (Raise (OSError _), sent) => (Return false, sent)
      | (Raise e, sent) => (Raise e, sent)
      end
  end.

(** ** Registry directory *)

(** The port-file directory: file name and content, in the order
    [os.listdir] gives; a name occurs once.  [None] is a directory that
    does not exist.  Opening and removing a file that is listed succeed:
    the model is the view of a single process. *)
Abbreviation directory := (list (pystr * bytes)) (only parsing).
Abbreviation registry := (option directory) (only parsing).

Fixpoint dir_read (d : directory) (name : pystr) : option bytes :=
  match d with
  | [] => None
  | (n, c) :: d' => if pystr_eqb n name then Some c else dir_read d' name
  end.

Definition dir_remove (d : directory) (name : pystr) : directory :=
  filter (fun f => negb (pystr_eqb (fst f) name)) d.

(** Create or overwrite. *)
Fixpoint dir_write (d : directory) (name : pystr) (c : bytes) : directory :=
  match d with
  | [] => [(name, c)]
  | (n, c') :: d' =>
      if pystr_eqb n name then (n, c) :: d' else (n, c') :: dir_write d' name c
  end.

Definition reg_read (r : registry) (name : pystr) : option bytes :=
  match r with Some d => dir_read d name | None => None end.

Definition endswith (s p : pystr) : bool :=
  startswith (List.rev s) (List.rev p).

(** The test both scans apply to a file name. *)
Definition is_port_file_name (fname : pystr) : bool :=
  startswith fname (py "houdini_") && endswith fname (py ".json").

(** *** Host: [_clean_stale_port_files] *)

(** One turn of the loop: the directory, and the pids handed to
    [_is_pid_alive] so far. *)
Definition clean_one (os : os_state) (acc : directory * list value)
  (fname : pystr) : directory * list value :=
  let '(d, probed) := acc in
  if negb (is_port_file_name fname) then acc
  else
    match dir_read d fname with
    | None => acc
    | Some content =>
        match decode_json content with
        | DecOk (PDict info) =>
            let pid := dict_get info (py "pid") PNone in
            if truthy pid then
              match fst (_is_pid_alive os pid) with
              | Return false => (dir_remove d fname, probed ++ [pid])
              | Return true => (d, probed ++ [pid])
              | Raise _ => (d, probed ++ [pid])
              end
            else acc
        | _ => acc
        end
    end.

(** The directory afterwards and the pids that were probed. *)
Definition _clean_stale_port_files (os : os_state) (r : registry)
  : registry * list value :=
  match r with
  | None => (None, [])
  | Some d =>
      let '(d', probed) := fold_left (clean_one os) (map fst d) (d, []) in
      (Some d', probed)
  end.

(** *** Client: [_discover_instances] *)

Fixpoint str_ltb (a b : pystr) : bool :=
  match a, b with
  | [], [] => false
  | [], _ :: _ => true
  | _ :: _, [] => false
  | x :: a', y :: b' => (x <? y) || ((x =? y) && str_ltb a' b')
  end.

(** [a < b] between two sort keys; [None] is the [TypeError] of an
    unsupported comparison.  Strings compare by code point, integers and
    booleans as numbers.  (Python also orders two lists; a registry key is
    never a list and the model reports them as unsupported.) *)
Definition py_lt (a b : value) : option bool :=
  match a, b with
  | PStr x, PStr y => Some (str_ltb x y)
  | _, _ =>
      match as_int a, as_int b with
      | Some x, Some y => Some (x <? y)
      | _, _ => None
      end
  end.

Definition started_at_key (x : value) : value :=
  match x with
  | PDict d => dict_get d (py "started_at") (PStr [])
  | _ => PNone
  end.

(** [list.sort(key=..., reverse=True)]: stable, in descending order of
    the key, using only [<] on keys. *)
Fixpoint insert_desc (key : value -> value) (x : value) (l : list value)
  : option (list value) :=
  match l with
  | [] => Some [x]
  | y :: l' =>
      match py_lt (key x) (key y) with
      | None => None
      | Some true => option_map (cons y) (insert_desc key x l')
      | Some false => Some (x :: l)
      end
  end.

Fixpoint sort_desc (key : value -> value) (l : list value)
  : option (list value) :=
  match l with
  | [] => Some []
  | x :: l' =>
      match sort_desc key l' with
      | None => None
      | Some s => insert_desc key x s
      end
  end.

(** One turn of the scan loop: the instances collected so far, the
    directory, and the pids handed to [_is_pid_alive] so far. *)
Definition discover_one (os : os_state)
  (acc : list value * directory * list value) (fname : pystr)
  : list value * directory * list value :=
  let '(instances, d, probed) := acc in
  if negb (is_port_file_name fname) then acc
  else
    match dir_read d fname with
    | None => acc
    | Some content =>
        match decode_json content with
        | DecOk (PDict info) =>
            let pid := dict_get info (py "pid") PNone in
            if truthy pid then
              match fst (_is_pid_alive os pid) with
              | Return false => (instances, dir_remove d fname, probed ++ [pid])
              | Return true => (instances ++ [PDict info], d, probed ++ [pid])
              | Raise _ => (instances, d, probed ++ [pid])
              end
            else (instances ++ [PDict info], d, probed)
        | _ => acc
        end
    end.

(** The list returned (or the [TypeError] of the sort), the directory
    afterwards and the pids that were probed. *)
Definition _discover_instances (os : os_state) (r : registry)
  : result (list value) * registry * list value :=
  match r with
  | None => (Return [], None, [])
  | Some d =>
      let '(instances, d', probed) :=
        fold_left (discover_one os) (map fst d) ([], d, []) in
      match sort_desc started_at_key instances with
      | Some sorted => (Return sorted, Some d', probed)
      | None => (Raise TypeError, Some d', probed)
      end
  end.

(** ** Host: publishing the port file *)

(** Indentation of [json.dump(..., indent=2)] at nesting level [k]. *)
Definition newline_indent (k : nat) : pystr := 10 :: repeat 32 (2 * k)%nat.

(** [json.dumps(v, indent=2)]: one item per line, [","] between items,
    [": "] after a key; an empty list or dictionary stays on one line. *)
Fixpoint dumps_indent (k : nat) (v : value) : pystr :=
  match v with
  | PList (x :: l') =>
      91 :: newline_indent (S k) ++ dumps_indent (S k) x ++
      (fix rest (l : list value) : pystr :=
         match l with
         | [] => []
         | y :: l'' =>
             44 :: newline_indent (S k) ++ dumps_indent (S k) y ++ rest l''
         end) l'
      ++ newline_indent k ++ [93]
  | PDict ((key, x) :: d') =>
      123 :: newline_indent (S k) ++ dumps_str key ++ 58 :: 32 ::
      dumps_indent (S k) x ++
      (fix rest (d : list (pystr * value)) : pystr :=
         match d with
         | [] => []
         | (key', y) :: d'' =>
             44 :: newline_indent (S k) ++ dumps_str key' ++ 58 :: 32 ::
             dumps_indent (S k) y ++ rest d''
         end) d'
      ++ newline_indent k ++ [125]
  | _ => dumps v
  end.

(** What the host reads from Houdini, the process and the clock when it
    fills in a descriptor. *)
Record host_env : Type := {
  env_pid : Z;                     (* os.getpid() *)
  env_hip_file : pystr;            (* hou.hipFile.path() *)
  env_hip_name : pystr;            (* hou.hipFile.basename() *)
  env_houdini_version : pystr;     (* hou.applicationVersionString() *)
  env_now : pystr;                 (* datetime.now(timezone.utc).isoformat() *)
  env_bind_ok : Z -> bool          (* does socket.bind((host, port)) succeed *)
}.

(** The fields of [HoudiniMCPServer].  A socket is known by a number;
    [thread] tells whether the serving thread was started. *)
Record server : Type := {
  host : pystr;
  port : option Z;
  port_range : Z * Z;
  running : bool;
  socket : option Z;
  client : option Z;
  buffer : bytes;
  thread : bool;
  _port_file_path : option pystr
}.

Definition DEFAULT_PORT_RANGE : Z * Z := (9877, 9886).

(** [HoudiniMCPServer(host, port, port_range)]; [None] for [port_range]
    takes the default range. *)
Definition new_server (h : pystr) (p : option Z) (range : option (Z * Z))
  : server :=
  {| host := h; port := p;
     port_range := match range with Some r => r | None => DEFAULT_PORT_RANGE end;
     running := false; socket := None; client := None; buffer := [];
     thread := false; _port_file_path := None |}.

Definition set_port (self : server) (p : option Z) : server :=
  {| host := host self; port := p; port_range := port_range self;
     running := running self; socket := socket self; client := client self;
     buffer := buffer self; thread := thread self;
     _port_file_path := _port_file_path self |}.

Definition set_running (self : server) (b : bool) : server :=
  {| host := host self; port := port self; port_range := port_range self;
     running := b; socket := socket self; client := client self;
     buffer := buffer self; thread := thread self;
     _port_file_path := _port_file_path self |}.

Definition set_socket (self : server) (s : option Z) : server :=
  {| host := host self; port := port self; port_range := port_range self;
     running := running self; socket := s; client := client self;
     buffer := buffer self; thread := thread self;
     _port_file_path := _port_file_path self |}.

Definition set_client (self : server) (c : option Z) : server :=
  {| host := host self; port := port self; port_range := port_range self;
     running := running self; socket := socket self; client := c;
     buffer := buffer self; thread := thread self;
     _port_file_path := _port_file_path self |}.

Definition set_buffer (self : server) (b : bytes) : server :=
  {| host := host self; port := port self; port_range := port_range self;
     running := running self; socket := socket self; client := client self;
     buffer := b; thread := thread self;
     _port_file_path := _port_file_path self |}.

Definition set_thread (self : server) (t : bool) : server :=
  {| host := host self; port := port self; port_range := port_range self;
     running := running self; socket := socket self; client := client self;
     buffer := buffer self; thread := t;
     _port_file_path := _port_file_path self |}.

Definition set_port_file_path (self : server) (p : option pystr) : server :=
  {| host := host self; port := port self; port_range := port_range self;
     running := running self; socket := socket self; client := client self;
     buffer := buffer self; thread := thread self;
     _port_file_path := p |}.

(** [self.port] as a value and inside an f-string. *)
Definition port_value (self : server) : value :=
  match port self with Some p => PInt p | None => PNone end.

Definition port_text (self : server) : pystr :=
  match port self with Some p => int_chars p | None => py "None" end.

Definition descriptor (env : host_env) (self : server) : value :=
  PDict [(py "port", port_value self);
         (py "pid", PInt (env_pid env));
         (py "hip_file", PStr (env_hip_file env));
         (py "hip_name", PStr (env_hip_name env));
         (py "houdini_version", PStr (env_houdini_version env));
         (py "started_at", PStr (env_now env));
         (py "hostname", PStr (host self))].

(** [f'houdini_{self.port}.json'] and the temporary name next to it. *)
Definition port_file_name (self : server) : pystr :=
  py "houdini_" ++ port_text self ++ py ".json".

Definition tmp_file_name (self : server) : pystr :=
  port_file_name self ++ py ".tmp".

(** The operations on the directory, each of them atomic for another
    process that looks at it. *)
Inductive fs_op : Type :=
| Makedirs                               (* os.makedirs(dir, exist_ok=True) *)
| OpenWrite (name : pystr)               (* open(name, 'w'): create or truncate *)
| Append (name : pystr) (data : bytes)   (* data reaches the open file *)
| Replace (src dst : pystr)              (* os.replace(src, dst) *)
| Remove (name : pystr).                 (* os.remove(name) *)

Definition apply_op (r : registry) (op : fs_op) : registry :=
  match op, r with
  | Makedirs, None => Some []
  | Makedirs, Some d => Some d
  | OpenWrite name, Some d => Some (dir_write d name [])
  | Append name data, Some d =>
      match dir_read d name with
      | Some c => Some (dir_write d name (c ++ data))
      | None => Some d
      end
  | Replace src dst, Some d =>
      match dir_read d src with
      | Some c => Some (dir_write (dir_remove d src) dst c)
      | None => Some d
      end
  | Remove name, Some d => Some (dir_remove d name)
  | _, None => None
  end.

(** The directory after each operation of a sequence, the initial state
    first. *)
Fixpoint fs_trace (r : registry) (ops : list fs_op) : list registry :=
  match ops with
  | [] => [r]
  | op :: ops' => r :: fs_trace (apply_op r op) ops'
  end.

Definition fs_run (r : registry) (ops : list fs_op) : registry :=
  fold_left apply_op ops r.

(** The text of a file reaches the disk in pieces; [cuts] gives their
    sizes, the remainder follows when the file is closed. *)
Fixpoint pieces (cuts : list nat) (text : bytes) : list bytes :=
  match cuts with
  | [] => [text]
  | n :: cuts' => firstn n text :: pieces cuts' (skipn n text)
  end.

(** The bytes of [json.dump(info, f, indent=2)]. *)
Definition descriptor_text (env : host_env) (self : server) : bytes :=
  match utf8_encode (dumps_indent 0 (descriptor env self)) with
  | Some b => b
  | None => []
  end.

(** [_write_port_file]: the operations it performs, in order. *)
Definition write_port_file_ops (env : host_env) (cuts : list nat)
  (self : server) : list fs_op :=
  Makedirs :: OpenWrite (tmp_file_name self)
  :: map (Append (tmp_file_name self)) (pieces cuts (descriptor_text env self))
  ++ [Replace (tmp_file_name self) (port_file_name self)].

Definition _write_port_file (env : host_env) (cuts : list nat) (self : server)
  (r : registry) : server * registry :=
  (set_port_file_path self (Some (port_file_name self)),
   fs_run r (write_port_file_ops env cuts self)).

Definition _remove_port_file (self : server) (r : registry) : server * registry :=
  match _port_file_path self with
  | Some path => (set_port_file_path self None, apply_op r (Remove path))
  | None => (self, r)
  end.

(** ** Host: [start] and [stop] *)

(** [range(lo, hi)] *)
Definition py_range (lo hi : Z) : list Z :=
  map (fun i => lo + Z.of_nat i) (seq 0 (Z.to_nat (hi - lo))).

(** The first port of the list that [bind] accepts. *)
Fixpoint first_bindable (env : host_env) (ports : list Z) : option Z :=
  match ports with
  | [] => None
  | p :: ports' => if env_bind_ok env p then Some p else first_bindable env ports'
  end.

(** [stop]: the port file goes first, then the flag, the thread and the
    sockets. *)
Definition stop (self : server) (r : registry) : server * registry :=
  let '(self1, r1) := _remove_port_file self r in
  (set_client (set_socket (set_thread (set_running self1 false) false) None) None,
   r1).

(** [start]: [True] with the port bound and advertised, or [False] after
    [stop] has undone what was done.  The listening socket is socket [0]. *)
Definition start (env : host_env) (os : os_state) (cuts : list nat)
  (self : server) (r : registry) : bool * server * registry :=
  let r0 := fst (_clean_stale_port_files os r) in
  let self0 := set_socket (set_running self true) (Some 0) in
  let bound :=
    match port self0 with
    | Some p => if env_bind_ok env p then Some self0 else None
    | None =>
        match first_bindable env
                (py_range (fst (port_range self0)) (snd (port_range self0) + 1)) with
        | Some p => Some (set_port self0 (Some p))
        | None => None
        end
    end in
  match bound with
  | Some self1 =>
      let '(self2, r1) := _write_port_file env cuts self1 r0 in
      (true, set_thread self2 true, r1)
  | None =>
      let '(self2, r1) := stop self0 r0 in
      (false, self2, r1)
  end.

(** ** Host: command dispatch *)

(** The keys of the [handlers] dictionary of [execute_command]. *)
Definition handler_names : list pystr :=
  map py
    ["get_scene_info"; "create_node"; "modify_node"; "delete_node";
     "get_node_info"; "execute_code"; "set_parameter"; "create_geometry";
     "layout_network"; "connect_nodes"; "set_material"; "create_subnet";
     "create_digital_asset"; "get_parameter_info"; "save_hip"; "load_hip";
     "create_camera"; "create_light"; "create_sim"; "run_simulation";
     "export_fbx"; "export_abc"; "export_usd"; "render_scene";
     "screenshot_viewport"; "render_cop"]%string.

Definition is_handler (name : pystr) : bool :=
  existsb (pystr_eqb name) handler_names.

(** How a call [handler( **params )] ends: with a result, or with an
    exception whose [str(e)] is given. *)
Inductive outcome : Type :=
| Returned (v : value)
| Raised (m : pystr).

(** The command handlers are outside the core.  They act on the state
    [App] of the application; [run_handler name params app] is the call
    [handlers[name]( **params )] in state [app], with everything Python
    does on the way (a [params] that is no mapping or does not fit the
    signature raises [TypeError] inside the call). *)
Record handlers (App : Type) : Type := {
  run_handler : pystr -> value -> App -> outcome * App
}.
Arguments run_handler {App} h name params app.

Definition success_envelope (res : value) : value :=
  PDict [(py "status", PStr (py "success")); (py "result", res)].

Definition error_envelope (msg : pystr) : value :=
  PDict [(py "status", PStr (py "error")); (py "message", PStr msg)].

(** A handler call that was made: name and parameters. *)
Abbreviation call := (pystr * value)%type (only parsing).

(** [execute_command(command)]: the response envelope, the state of the
    application afterwards and the handler calls that were made.  A
    [command] that is no dictionary fails at [command.get] and a type
    that cannot be hashed at [handlers.get]; both end in the outer
    [except] with [str(e)] as the message. *)
Definition execute_command {App} (H : handlers App) (app : App)
  (command : value) : value * App * list call :=
  match command with
  | PDict d =>
      let cmd_type := dict_get d (py "type") PNone in
      let params := dict_get d (py "params") (PDict []) in
      match cmd_type with
      | PStr name =>
          if is_handler name then
            match run_handler H name params app with
            | (Returned res, app') =>
                (success_envelope res, app', [(name, params)])
            | (Raised msg, app') =>
                (error_envelope msg, app', [(name, params)])
            end
          else
            (error_envelope (py "Unknown command type: " ++ name), app, [])
      | PNone =>
          (error_envelope (py "Unknown command type: None"), app, [])
      | PBool b =>
          (error_envelope (py "Unknown command type: "
                           ++ (if b then py "True" else py "False")), app, [])
      | PInt z =>
          (error_envelope (py "Unknown command type: " ++ int_chars z), app, [])
      | PList _ | PDict _ =>
          (error_envelope (py "unhashable type: '" ++ type_name cmd_type
                           ++ py "'"), app, [])
      end
  | _ =>
      (error_envelope (py "'" ++ type_name command
                       ++ py "' object has no attribute 'get'"), app, [])
  end.

(** ** Host: the serving loop *)

Inductive accept_outcome : Type :=
| AcceptConn (c : Z)      (* a client connected; its socket *)
| AcceptTimeout           (* socket.timeout after 0.5 s *)
| AcceptError.            (* any other exception *)

(** [recv(8192)]: data (empty when the peer closed in an orderly way), a
    timeout, or another exception. *)
Inductive recv_outcome : Type :=
| RecvData (d : bytes)
| RecvTimeout
| RecvError.

(** What the network does during one turn of the loop: the answer of
    [accept] (looked at only without a client), of [recv], and whether
    [sendall] goes through. *)
Record turn : Type := {
  turn_accept : accept_outcome;
  turn_recv : recv_outcome;
  turn_send_ok : bool
}.

(** What a turn does that others can see. *)
Inductive event : Type :=
| Dispatched (c : Z) (command : value)  (* a message was decoded *)
| Called (name : pystr) (params : value)
| Sent (c : Z) (data : bytes)
| Closed (c : Z).

Definition drop_client (self : server) : server :=
  set_buffer (set_client self None) [].

(** The part of a turn under [if self.client:], with client [c]. *)
Definition serve_client {App} (H : handlers App) (self : server) (app : App)
  (c : Z) (t : turn) : server * App * list event :=
  match turn_recv t with
  | RecvData [] => (drop_client self, app, [Closed c])
  | RecvData data =>
      let self1 := set_buffer self (buffer self ++ data) in
      match decode_json (buffer self1) with
      | DecOk command =>
          let self2 := set_buffer self1 [] in
          let '(response, app', calls) := execute_command H app command in
          let evs := Dispatched c command
                     :: map (fun k => Called (fst k) (snd k)) calls in
          match encode_json response with
          | Some out =>
              if turn_send_ok t
              then (self2, app', evs ++ [Sent c out])
              else (drop_client self2, app', evs ++ [Closed c])
          | None => (drop_client self2, app', evs ++ [Closed c])
          end
      | DecJSONError => (self1, app, [])
      | DecUnicodeError => (drop_client self1, app, [Closed c])
      end
  | RecvTimeout => (self, app, [])
  | RecvError => (drop_client self, app, [Closed c])
  end.

(** One turn of [while self.running:] in [_run_server]. *)
Definition run_turn {App} (H : handlers App) (st : server * App) (t : turn)
  : server * App * list event :=
  let '(self, app) := st in
  if negb (running self) then (self, app, [])
  else
    match client self with
    | Some c => serve_client H self app c t
    | None =>
        match turn_accept t with
        | AcceptConn c => serve_client H (set_client self (Some c)) app c t
        | AcceptTimeout => (self, app, [])
        | AcceptError => (self, app, [])
        end
    end.

(** The loop over a sequence of turns. *)
Fixpoint run_server {App} (H : handlers App) (st : server * App)
  (ts : list turn) : server * App * list event :=
  match ts with
  | [] => (fst st, snd st, [])
  | t :: ts' =>
      let '(self, app, evs) := run_turn H st t in
      let '(self', app', evs') := run_server H (self, app) ts' in
      (self', app', evs ++ evs')
  end.

(** ** Host: the server of the session *)

(** [hou.session.houdinimcp_server]: [None] when the attribute is absent;
    a server object is truthy.  [init_houdinimcp] returns the server of
    the session, or [None]. *)
Definition init_houdinimcp (env : host_env) (os : os_state) (cuts : list nat)
  (session : option server) (r : registry)
  : option server * option server * registry :=
  match session with
  | Some srv => (Some srv, session, r)
  | None =>
      let '(ok, srv, r') :=
        start env os cuts (new_server (py "localhost") None None) r in
      if ok then (Some srv, Some srv, r') else (None, None, r')
  end.

(** [stop_houdinimcp]: the session and the directory afterwards. *)
Definition stop_houdinimcp (session : option server) (r : registry)
  : option server * registry :=
  match session with
  | Some srv => (None, snd (stop srv r))
  | None => (None, r)
  end.

(** ** Client: [HoudiniConnection] *)

(** [sock] is the number of the open socket, if any.  The port is the
    value taken from a registry file, a tool argument or [DEFAULT_PORT]. *)
Record connection : Type := {
  conn_host : pystr;
  conn_port : value;
  sock : option Z
}.

Definition set_sock (self : connection) (s : option Z) : connection :=
  {| conn_host := conn_host self; conn_port := conn_port self; sock := s |}.

Inductive send_outcome : Type :=
| SendOk
| SendTimeout
| SendConnectionError (m : pystr).

(** What [recv] answers on the client side; a [ConnectionError] carries
    its [str(e)]. *)
Inductive recv_event : Type :=
| Chunk (d : bytes)
| Timeout
| ConnectionLost (m : pystr).

(** What the network does during one [send_command]: the fate of
    [sendall] and the answers of the successive [recv] calls.  When the
    list is used up nothing more arrives and [recv] times out. *)
Record exchange : Type := {
  ex_send : send_outcome;
  ex_reads : list recv_event
}.

(** The world around the client: the operating system, the registry
    directory, the ports on which a host accepts connections, the
    exchanges to come, the number of the next socket, and the log of the
    ports [connect] was tried on. *)
Record world : Type := {
  w_os : os_state;
  w_registry : registry;
  w_listening : value -> bool;
  w_exchanges : list exchange;
  w_next_sock : Z;
  w_connects : list value
}.

Definition set_registry (w : world) (r : registry) : world :=
  {| w_os := w_os w; w_registry := r; w_listening := w_listening w;
     w_exchanges := w_exchanges w; w_next_sock := w_next_sock w;
     w_connects := w_connects w |}.

Definition set_exchanges (w : world) (l : list exchange) : world :=
  {| w_os := w_os w; w_registry := w_registry w; w_listening := w_listening w;
     w_exchanges := l; w_next_sock := w_next_sock w;
     w_connects := w_connects w |}.

(** [connect]: nothing to do with a socket in hand; else one attempt on
    [(host, port)]. *)
Definition connect (self : connection) (w : world) : bool * connection * world :=
  match sock self with
  | Some _ => (true, self, w)
  | None =>
      let w' :=
        {| w_os := w_os w; w_registry := w_registry w;
           w_listening := w_listening w; w_exchanges := w_exchanges w;
           w_next_sock := (if w_listening w (conn_port self)
                           then w_next_sock w + 1 else w_next_sock w);
           w_connects := w_connects w ++ [conn_port self] |} in
      if w_listening w (conn_port self)
      then (true, set_sock self (Some (w_next_sock w)), w')
      else (false, set_sock self None, w')
  end.

Definition disconnect (self : connection) : connection := set_sock self None.

(** The end of [receive_full_response], after the loop was left by
    [break]: "try to use what we have". *)
Definition after_receive (chunks : list bytes) : result bytes :=
  match chunks with
  | [] => Raise (Exception (MsgLit (py "No data received")))
  | _ =>
      match decode_json (concat chunks) with
      | DecOk _ => Return (concat chunks)
      | DecJSONError =>
          Raise (Exception (MsgLit (py "Incomplete JSON response received")))
      | DecUnicodeError => Raise UnicodeDecodeError
      end
  end.

(** The loop of [receive_full_response] over the answers of [recv], with
    the chunks received so far. *)
Fixpoint receive_loop (reads : list recv_event) (chunks : list bytes)
  : result bytes :=
  match reads with
  | [] => after_receive chunks
  | Timeout :: _ => after_receive chunks
  | ConnectionLost m :: _ => Raise (ConnectionError m)
  | Chunk [] :: _ =>
      match chunks with
      | [] => Raise (Exception
                (MsgLit (py "Connection closed before receiving any data")))
      | _ => after_receive chunks
      end
  | Chunk d :: reads' =>
      let chunks' := chunks ++ [d] in
      match decode_json (concat chunks') with
      | DecOk _ => Return (concat chunks')
      | DecJSONError => receive_loop reads' chunks'
      | DecUnicodeError => Raise UnicodeDecodeError
      end
  end.

Definition receive_full_response (reads : list recv_event) : result bytes :=
  receive_loop reads [].

(** The body of the [try] of [send_command], once connected. *)
Definition send_and_receive (command : value) (ex : exchange) : result value :=
  match encode_json command with
  | None => Raise UnicodeEncodeError
  | Some _ =>
      match ex_send ex with
      | SendTimeout => Raise SocketTimeout
      | SendConnectionError m => Raise (ConnectionError m)
      | SendOk =>
          match receive_full_response (ex_reads ex) with
          | Raise e => Raise e
          | Return response_data =>
              match decode_json response_data with
              | DecUnicodeError => Raise UnicodeDecodeError
              | DecJSONError => Raise JSONDecodeError
              | DecOk (PDict response) =>
                  match dict_get response (py "status") PNone with
                  | PStr st =>
                      if pystr_eqb st (py "error") then
                        Raise (Exception (MsgValue
                          (dict_get response (py "message")
                             (PStr (py "Unknown error from Houdini")))))
                      else Return (dict_get response (py "result") (PDict []))
                  | _ => Return (dict_get response (py "result") (PDict []))
                  end
              | DecOk _ => Raise AttributeError
              end
          end
      end
  end.

(** The [except] clauses of [send_command], in their order: what happens
    to the socket and what is raised instead. *)
Definition handle_failure (self : connection) (e : exn) : connection * exn :=
  match e with
  | SocketTimeout =>
      (set_sock self None,
       Exception (MsgLit (py
         "Timeout waiting for Houdini response - try simplifying your request")))
  | ConnectionError _ =>
      (set_sock self None,
       Exception (MsgWrap (py "Connection to Houdini lost: ") e))
  | JSONDecodeError =>
      (self, Exception (MsgWrap (py "Invalid response from Houdini: ") e))
  | _ =>
      (set_sock self None,
       Exception (MsgWrap (py "Communication error with Houdini: ") e))
  end.

(** The request envelope [{"type": command_type, "params": params or {}}]. *)
Definition request (command_type : pystr) (params : value) : value :=
  PDict [(py "type", PStr command_type);
         (py "params", if truthy params then params else PDict [])].

(** [send_command(command_type, params)] *)
Definition send_command (self : connection) (command_type : pystr)
  (params : value) (w : world) : result value * connection * world :=
  let '(ok, self1, w1) := connect self w in
  if negb ok then
    (Raise (ConnectionError (py "Not connected to Houdini")), self1, w1)
  else
    let command := request command_type params in
    let ex := match w_exchanges w1 with
              | ex :: _ => ex
              | [] => {| ex_send := SendOk; ex_reads := [] |}
              end in
    let w2 := set_exchanges w1 (tl (w_exchanges w1)) in
    match send_and_receive command ex with
    | Return res => (Return res, self1, w2)
    | Raise e =>
        let '(self2, e') := handle_failure self1 e in
        (Raise e', self2, w2)
    end.

(** ** Client: the persistent connection *)

Definition DEFAULT_PORT : Z := 9877.

(** The module globals [_houdini_connection] and [_target_port].  The
    connection that [get_houdini_connection] returns is the object the
    global holds: what a caller does to it is done to the global. *)
Record globals : Type := {
  _houdini_connection : option connection;
  _target_port : value             (* [PNone] until a port is pinned *)
}.

Definition set_connection (g : globals) (c : option connection) : globals :=
  {| _houdini_connection := c; _target_port := _target_port g |}.

(** [instances[0]['port']] *)
Definition first_port (instances : list value) : result value :=
  match instances with
  | PDict d :: _ =>
      match dict_lookup d (py "port") with
      | Some p => Return p
      | None => Raise (KeyError (py "port"))
      end
  | _ => Raise TypeError
  end.

(** "Determine which port to connect to": the pinned port, else the port
    of the first discovered instance, else (no instance, or a port that
    is [None]) the default. *)
Definition resolve_port (g : globals) (w : world) : result value * world :=
  match _target_port g with
  | PNone =>
      let '(found, r', _) := _discover_instances (w_os w) (w_registry w) in
      let w' := set_registry w r' in
      match found with
      | Raise e => (Raise e, w')
      | Return [] => (Return (PInt DEFAULT_PORT), w')
      | Return instances =>
          match first_port instances with
          | Raise e => (Raise e, w')
          | Return PNone => (Return (PInt DEFAULT_PORT), w')
          | Return p => (Return p, w')
          end
      end
  | p => (Return p, w)
  end.

(** [get_houdini_connection()] *)
Definition get_houdini_connection (g : globals) (w : world)
  : result connection * globals * world :=
  let probe :=
    match _houdini_connection g with
    | None => (None, g, w)
    | Some c =>
        match send_command c (py "get_scene_info") PNone w with
        | (Return _, c', w') => (Some c', set_connection g (Some c'), w')
        | (Raise _, _, w') => (None, set_connection g None, w')
        end
    end in
  match probe with
  | (Some c, g1, w1) => (Return c, g1, w1)
  | (None, g1, w1) =>
      match resolve_port g1 w1 with
      | (Raise e, w2) => (Raise e, g1, w2)
      | (Return p, w2) =>
          let fresh := {| conn_host := py "localhost"; conn_port := p;
                          sock := None |} in
          match connect fresh w2 with
          | (true, c, w3) => (Return c, set_connection g1 (Some c), w3)
          | (false, _, w3) =>
              (Raise (Exception (MsgLit (py
                 "Could not connect to Houdini. Make sure the Houdini addon is running."))),
               set_connection g1 None, w3)
          end
      end
  end.

(** A tool body: [houdini = get_houdini_connection()] followed by
    [houdini.send_command(command_type, params)]. *)
Definition tool_call (command_type : pystr) (params : value) (g : globals)
  (w : world) : result value * globals * world :=
  match get_houdini_connection g w with
  | (Raise e, g1, w1) => (Raise e, g1, w1)
  | (Return c, g1, w1) =>
      let '(res, c', w2) := send_command c command_type params w1 in
      (res, set_connection g1 (Some c'), w2)
  end.

(** [{inst['port'] for inst in instances}]: every instance needs a
    port, and one that can be hashed. *)
Fixpoint known_ports (instances : list value) : result (list value) :=
  match instances with
  | [] => Return []
  | x :: rest =>
      match first_port [x] with
      | Raise e => Raise e
      | Return (PList _) | Return (PDict _) => Raise TypeError
      | Return p =>
          match known_ports rest with
          | Return ps => Return (p :: ps)
          | Raise e => Raise e
          end
      end
  end.

Definition value_eqb (a b : value) : bool :=
  match a, b with
  | PInt x, PInt y => x =? y
  | PStr x, PStr y => pystr_eqb x y
  | PBool x, PBool y => Bool.eqb x y
  | PInt x, PBool y | PBool y, PInt x => x =? (if y then 1 else 0)
  | PNone, PNone => true
  | _, _ => false
  end.

(** The part of [connect_to_houdini(port)] that changes the state: [true]
    when the port was found among the live instances, the connection
    dropped, the port pinned and a connection requested.  (The text the
    tool returns is left out.) *)
Definition connect_to_houdini (p : value) (g : globals) (w : world)
  : bool * globals * world :=
  let '(found, r', _) := _discover_instances (w_os w) (w_registry w) in
  let w1 := set_registry w r' in
  match found with
  | Raise _ => (false, g, w1)
  | Return instances =>
      match known_ports instances with
      | Raise _ => (false, g, w1)
      | Return ports =>
          if existsb (value_eqb p) ports then
            let g1 := {| _houdini_connection := None; _target_port := p |} in
            match tool_call (py "get_scene_info") PNone g1 w1 with
            | (Return _, g2, w2) => (true, g2, w2)
            | (Raise _, g2, w2) => (false, g2, w2)
            end
          else (false, g, w1)
      end
  end.

(** ** Installer: the hook in [123.py] *)

Definition HOOK_START : pystr := py "# --- HoudiniMCP auto-start hook ---".
Definition HOOK_END : pystr := py "# --- end HoudiniMCP hook ---".

(** A string literal inside the block, between its quotes. *)
Definition quoted (s : pystr) : pystr := 34 :: s ++ [34].

Definition HOOK_BLOCK : pystr :=
  concat
    [py "# --- HoudiniMCP auto-start hook ---"; [10];
     py "import os as _mcp_os"; [10];
     py "if _mcp_os.environ.get("; quoted (py "HOUDINIMCP_AUTO_START");
     py ") == "; quoted (py "1"); py ":"; [10];
     py "    _mcp_root = _mcp_os.environ.get("; quoted (py "HOUDINIMCP_ROOT");
     py ", "; quoted []; py ")"; [10];
     py "    if _mcp_root:"; [10];
     py "        import sys as _mcp_sys"; [10];
     py "        if _mcp_root not in _mcp_sys.path:"; [10];
     py "            _mcp_sys.path.insert(0, _mcp_root)"; [10];
     py "        try:"; [10];
     py "            import houdinimcp_addon"; [10];
     py "            houdinimcp_addon.init_houdinimcp()"; [10];
     py "        except Exception as _mcp_e:"; [10];
     py "            print(f"; quoted (py "[HoudiniMCP] Auto-start failed: {_mcp_e}");
     py ")"; [10];
     py "# --- end HoudiniMCP hook ---"; [10]].

(** [s.find(sub)]: the index of the first occurrence of [sub] in [s].
    [sub in s] is [find sub s <> None], and [s.index(sub)] raises
    [ValueError] where [find] gives [None]. *)
Fixpoint find (sub s : pystr) : option nat :=
  match s with
  | [] => if startswith [] sub then Some 0%nat else None
  | _ :: s' =>
      if startswith s sub then Some 0%nat else option_map S (find sub s')
  end.

(** [s.lstrip(c)] and [s.rstrip(c)] for a one-character [c]. *)
Fixpoint lstrip (c : Z) (s : pystr) : pystr :=
  match s with
  | x :: s' => if x =? c then lstrip c s' else s
  | [] => []
  end.

Definition rstrip (c : Z) (s : pystr) : pystr :=
  List.rev (lstrip c (List.rev s)).

(** [str.isspace] of one character. *)
Definition isspace (c : Z) : bool :=
  ((9 <=? c) && (c <=? 13)) || ((28 <=? c) && (c <=? 32))
  || (c =? 133) || (c =? 160) || (c =? 5760)
  || ((8192 <=? c) && (c <=? 8202)) || (c =? 8232) || (c =? 8233)
  || (c =? 8239) || (c =? 8287) || (c =? 12288).

(** [s.rstrip()] *)
Fixpoint lstrip_space (s : pystr) : pystr :=
  match s with
  | x :: s' => if isspace x then lstrip_space s' else s
  | [] => []
  end.

Definition rstrip_space (s : pystr) : pystr :=
  List.rev (lstrip_space (List.rev s)).

(** The non-empty test of a string. *)
Definition nonempty (s : pystr) : bool :=
  match s with [] => false | _ => true end.

(** [s] with a newline added unless it is empty or ends with one. *)
Definition with_final_newline (s : pystr) : pystr :=
  if nonempty s && negb (endswith s [10]) then s ++ [10] else s.

(** [patch_123]: the content written to [123.py].  [file] is the content
    of the file before, [None] when it does not exist.  The result [None]
    is the [ValueError] of [index] for a file that has the start marker
    and not the end marker; nothing is written then. *)
Definition patch_123 (file : option pystr) : option pystr :=
  let existing_content := match file with Some c => c | None => [] end in
  match find HOOK_START existing_content with
  | Some start_idx =>
      match find HOOK_END existing_content with
      | Some e =>
          let end_idx := (e + length HOOK_END)%nat in
          Some (firstn start_idx existing_content
                ++ rstrip_space HOOK_BLOCK
                ++ skipn end_idx existing_content)
      | None => None
      end
  | None =>
      Some (with_final_newline existing_content ++ [10] ++ HOOK_BLOCK)
  end.

(** [remove_hook]: the file afterwards (left alone when it does not
    exist or has no start marker), or [None] for the [ValueError] of
    [index]. *)
Definition remove_hook (file : option pystr) : option (option pystr) :=
  match file with
  | None => Some None
  | Some content =>
      match find HOOK_START content with
      | None => Some (Some content)
      | Some start_idx =>
          match find HOOK_END content with
          | None => None
          | Some e =>
              let end_idx := (e + length HOOK_END)%nat in
              let before := rstrip 10 (firstn start_idx content) in
              let after := lstrip 10 (skipn end_idx content) in
              let new_content :=
                if nonempty after then before ++ [10] ++ after else before in
              Some (Some (with_final_newline new_content))
          end
      end
  end.

(** ** Vocabulary of the properties *)

(** A Unicode scalar value: a code point that is not a surrogate. *)
Definition scalar_value (c : Z) : bool :=
  ((0 <=? c) && (c <? 55296)) || ((57344 <=? c) && (c <? 1114112)).

Definition wf_str (s : pystr) : bool := forallb scalar_value s.

Fixpoint distinct (l : list pystr) : bool :=
  match l with
  | [] => true
  | k :: l' => negb (existsb (pystr_eqb k) l') && distinct l'
  end.

(** A value as Python builds it: strings of scalar values, and the keys of
    a dictionary pairwise different. *)
Fixpoint wf_value (v : value) : bool :=
  match v with
  | PStr s => wf_str s
  | PList l => forallb wf_value l
  | PDict d =>
      distinct (map fst d)
      && forallb (fun kv => wf_str (fst kv) && wf_value (snd kv)) d
  | _ => true
  end.

Definition is_number (v : value) : bool :=
  match v with PInt _ => true | _ => false end.

(** The text [dumps] writes for the items after the first one of a list
    and of a dictionary. *)
Definition dumps_items (l : list value) : pystr :=
  flat_map (fun y => 44 :: 32 :: dumps y) l.

Definition dumps_members (d : list (pystr * value)) : pystr :=
  flat_map
    (fun kv => 44 :: 32 :: dumps_str (fst kv) ++ 58 :: 32 :: dumps (snd kv)) d.

(** A value is read back from its text whatever follows it (a number
    must not be followed by a digit), with fuel for its own text. *)
Definition no_digit_head (s : pystr) : Prop :=
  match s with [] => True | c :: _ => is_digit c = false end.

Definition reads_back (v : value) : Prop :=
  forall (rest : pystr) (n : nat),
    no_digit_head rest -> (length (dumps v) <= n)%nat ->
    parse_value n (dumps v ++ rest) = Some (v, rest).

(** The first character of a document tells its kind. *)
Definition value_head (c : Z) : Prop :=
  c = 34 \/ c = 123 \/ c = 91 \/ c = 110 \/ c = 116 \/ c = 102
  \/ c = 45 \/ is_digit c = true.

(** The first character of a number. *)
Definition number_head (s : pystr) : bool :=
  match s with
  | c :: _ => (c =? 45) || is_digit c
  | [] => false
  end.
(** *** Framing *)

Definition ascii_text (t : pystr) : Prop := Forall (fun c => 0 <= c < 128) t.

(** The turns of the host loop in which the chunks arrive one after the
    other on the connection in place, and replies go through. *)
Definition arrival (d : bytes) : turn :=
  {| turn_accept := AcceptTimeout; turn_recv := RecvData d;
     turn_send_ok := true |}.




(** A way of cutting a text into chunks, none of them empty. *)
Definition split_of (bs : bytes) (chunks : list bytes) : Prop :=
  concat chunks = bs /\ Forall (fun d => d <> []) chunks.




(** *** Dispatch *)


(** Handlers that do nothing and return [None], on an application
    without state. *)
Definition idle_handlers : handlers unit :=
  {| run_handler := fun _ _ a => (Returned PNone, a) |}.

(** A server in the middle of its loop, holding client [c]. *)
Definition serving (c : Z) : server :=
  set_client (set_running (new_server (py "localhost") (Some 9877) None) true)
    (Some c).

(** The request [{"type": "noop_probe"}] of scenario D and a valid one. *)
Definition noop_probe : list (pystr * value) :=
  [(py "type", PStr (py "noop_probe"))].

Definition scene_info : list (pystr * value) :=
  [(py "type", PStr (py "get_scene_info")); (py "params", PDict [])].

(** *** Client calls *)

(** A POSIX system on which no process answers a probe. *)
Definition lonely_posix : os_state :=
  {| os_platform := Posix;
     os_kill_answer := fun _ => KillESRCH;
     win_open_process := fun _ => None |}.

(** A world with one host, listening on the default port, no registry
    directory, and the given exchanges to come. *)
Definition world_of (exchanges : list exchange) : world :=
  {| w_os := lonely_posix; w_registry := None;
     w_listening := fun p => value_eqb p (PInt DEFAULT_PORT);
     w_exchanges := exchanges; w_next_sock := 1; w_connects := [] |}.

(** A connection to that host with socket [0] open. *)
Definition held : connection :=
  {| conn_host := py "localhost"; conn_port := PInt DEFAULT_PORT;
     sock := Some 0 |}.

(** The host's reply arrives in one piece. *)
Definition reply_in_one (response : value) : exchange :=
  {| ex_send := SendOk; ex_reads := [Chunk (dumps response)] |}.





(** *** Hosts and systems used as examples *)

(** A Windows system on which [OpenProcess] finds no process. *)
Definition lonely_win32 : os_state :=
  {| os_platform := Win32;
     os_kill_answer := fun _ => KillESRCH;
     win_open_process := fun _ => Some 0 |}.

(** A machine on which every port is taken. *)
Definition crowded_env : host_env :=
  {| env_pid := 4242; env_hip_file := py "/tmp/untitled.hip";
     env_hip_name := py "untitled.hip"; env_houdini_version := py "20.5.278";
     env_now := py "2025-01-01T00:00:00+00:00";
     env_bind_ok := fun _ => false |}.

(** *** Registry files used as examples *)

(** A port file whose descriptor has no [pid], and one whose [pid] is [0]. *)
Definition pidless_file : pystr * bytes :=
  (py "houdini_9877.json", dumps (PDict [(py "port", PInt 9877)])).

Definition pid_zero_file : pystr * bytes :=
  (py "houdini_9877.json",
   dumps (PDict [(py "port", PInt 9877); (py "pid", PInt 0)])).

(** *** Discovery *)

(** The descriptor a file of the directory carries: the file has the
    name of a port file and its content is a JSON object. *)
Definition descriptor_of (f : pystr * bytes) : option (list (pystr * value)) :=
  if is_port_file_name (fst f) then
    match decode_json (snd f) with
    | DecOk (PDict info) => Some info
    | _ => None
    end
  else None.

Definition pid_of (info : list (pystr * value)) : value :=
  dict_get info (py "pid") PNone.

(** A descriptor counts as live when it has no pid (or a falsy one), or
    when the probe of its pid answers [True]. *)
Definition is_live (os : os_state) (info : list (pystr * value)) : bool :=
  if truthy (pid_of info) then
    match fst (_is_pid_alive os (pid_of info)) with
    | Return true => true
    | _ => false
    end
  else true.

(** It is stale when it has a pid and the probe answers [False]. *)
Definition is_stale (os : os_state) (info : list (pystr * value)) : bool :=
  truthy (pid_of info)
  && match fst (_is_pid_alive os (pid_of info)) with
     | Return false => true
     | _ => false
     end.

Definition live_descriptors (os : os_state) (d : directory) : list value :=
  flat_map (fun f => match descriptor_of f with
                     | Some info => if is_live os info then [PDict info] else []
                     | None => []
                     end) d.

Definition stale_file (os : os_state) (f : pystr * bytes) : bool :=
  match descriptor_of f with
  | Some info => is_stale os info
  | None => false
  end.

(** The directory once the stale files are gone. *)
Definition without_stale (os : os_state) (d : directory) : directory :=
  filter (fun f => negb (stale_file os f)) d.

(** The pids a scan hands to the prober: the truthy ones. *)
Definition probed_pids (os : os_state) (d : directory) : list value :=
  flat_map (fun f => match descriptor_of f with
                     | Some info =>
                         if truthy (pid_of info) then [pid_of info] else []
                     | None => []
                     end) d.


Definition has_string_key (x : value) : Prop :=
  exists s, started_at_key x = PStr s.

(** *** Target resolution *)



(** A POSIX system on which every process answers the probe. *)
Definition busy_posix : os_state :=
  {| os_platform := Posix;
     os_kill_answer := fun _ => KillOk;
     win_open_process := fun _ => None |}.

(** Two hosts: the first started on port 9877, the second later on 9878. *)
Definition first_host : value :=
  PDict [(py "port", PInt 9877); (py "pid", PInt 100);
         (py "started_at", PStr (py "2025-01-01T10:00:00+00:00"))].

Definition second_host : value :=
  PDict [(py "port", PInt 9878); (py "pid", PInt 200);
         (py "started_at", PStr (py "2025-01-01T11:00:00+00:00"))].

Definition first_file : pystr * bytes :=
  (py "houdini_9877.json", dumps_indent 0 first_host).

Definition second_file : pystr * bytes :=
  (py "houdini_9878.json", dumps_indent 0 second_host).


Definition no_globals : globals :=
  {| _houdini_connection := None; _target_port := PNone |}.

(** *** Turns of the host loop *)

(** A turn in which nothing happens on the network: [recv] times out
    and [accept] brings no client. *)
Definition quiet (t : turn) : bool :=
  match turn_recv t, turn_accept t with
  | RecvTimeout, AcceptConn _ => false
  | RecvTimeout, _ => true
  | _, _ => false
  end.

(** The turn in which client [c] connects and its first chunk arrives. *)
Definition arrival_of (c : Z) (d : bytes) : turn :=
  {| turn_accept := AcceptConn c; turn_recv := RecvData d;
     turn_send_ok := true |}.


(** The clients that a sequence of events closed, and those it served. *)
Definition closed_in (evs : list event) : list Z :=
  flat_map (fun e => match e with Closed c => [c] | _ => [] end) evs.

Definition clients_in (evs : list event) : list Z :=
  flat_map (fun e => match e with
                     | Dispatched c _ | Sent c _ | Closed c => [c]
                     | Called _ _ => []
                     end) evs.


(** The requests that reach a handler: a dictionary whose type is the
    name of a handler. *)
Definition reaches_handler (command : value) : bool :=
  match command with
  | PDict d =>
      match dict_get d (py "type") PNone with
      | PStr name => is_handler name
      | _ => false
      end
  | _ => false
  end.



(** A machine on which ports 9877 and 9878 are taken and the others are
    free. *)
Definition two_taken_env : host_env :=
  {| env_pid := 4242; env_hip_file := py "/tmp/untitled.hip";
     env_hip_name := py "untitled.hip"; env_houdini_version := py "20.5.278";
     env_now := py "2025-01-01T00:00:00+00:00";
     env_bind_ok := fun p => negb ((p =? 9877) || (p =? 9878)) |}.

(** *** Indented documents *)

(** The text [dumps_indent] writes at level [k] for the items after the
    first one of a list and of a dictionary. *)
Definition indent_items (k : nat) (l : list value) : pystr :=
  flat_map (fun y => 44 :: newline_indent k ++ dumps_indent k y) l.

Definition indent_members (k : nat) (d : list (pystr * value)) : pystr :=
  flat_map
    (fun kv => 44 :: newline_indent k ++ dumps_str (fst kv)
               ++ 58 :: 32 :: dumps_indent k (snd kv)) d.

(** A value is read back from its indented text at every level,
    whatever follows it (a number must not be followed by a digit), with
    fuel for its own text. *)
Definition reads_back_indent (v : value) : Prop :=
  forall (k : nat) (rest : pystr) (n : nat),
    no_digit_head rest -> (length (dumps_indent k v) <= n)%nat ->
    parse_value n (dumps_indent k v ++ rest) = Some (v, rest).

(** The files of a registry directory; none when the directory does not
    exist. *)
Definition files (r : registry) : directory :=
  match r with Some d => d | None => [] end.

(** A machine on which every port is free. *)
Definition free_env : host_env :=
  {| env_pid := 4242; env_hip_file := py "/tmp/untitled.hip";
     env_hip_name := py "untitled.hip"; env_houdini_version := py "20.5.278";
     env_now := py "2025-01-01T00:00:00+00:00";
     env_bind_ok := fun _ => true |}.

(** *** Pids the prober cannot judge *)

Definition fits_c_int (z : Z) : bool :=
  (- 2147483648 <=? z) && (z <=? 2147483647).

(** A pid that [os.kill] refuses before any system call: no integer, or
    an integer outside a C [int]. *)
Definition unprobeable (pid : value) : bool :=
  match as_int pid with
  | Some z => negb (fits_c_int z)
  | None => true
  end.

(** A POSIX system on which every process belongs to another user. *)
Definition guarded_posix : os_state :=
  {| os_platform := Posix;
     os_kill_answer := fun _ => KillEPERM;
     win_open_process := fun _ => None |}.

(** A port file whose pid is a process of another user, and one whose
    pid is a string. *)
Definition foreign_file : pystr * bytes :=
  (py "houdini_9877.json",
   dumps (PDict [(py "port", PInt 9877); (py "pid", PInt 1)])).

Definition text_pid_file : pystr * bytes :=
  (py "houdini_9877.json",
   dumps (PDict [(py "port", PInt 9877); (py "pid", PStr (py "4242"))])).

(** *** Calls that end without a reply *)


(** The exception [send_command] raises for a response that is no JSON,
    from its [except json.JSONDecodeError] clause. *)
Definition is_invalid_response_error (e : exn) : bool :=
  match e with
  | Exception (MsgWrap p JSONDecodeError) =>
      pystr_eqb p (py "Invalid response from Houdini: ")
  | _ => false
  end.



(** *** The installer *)

(** The text of [123.py]; a missing file reads as the empty text. *)
Definition file_text (file : option pystr) : pystr :=
  match file with Some c => c | None => [] end.

(** A startup script of the user's own. *)
Definition user_script : pystr :=
  py "import hou" ++ [10] ++ py "print(hou.applicationVersionString())" ++ [10].

(** A hook written by an earlier version of the installer, between the
    same markers. *)
Definition older_hook_body : pystr :=
  [10] ++ py "import houdinimcp_addon" ++ [10]
  ++ py "houdinimcp_addon.init_houdinimcp()" ++ [10].

(** * Properties *)

(** ** Induction on values *)

Lemma value_ind (P : value -> Prop)
  (HNone : P PNone) (HBool : forall b, P (PBool b))
  (HInt : forall z, P (PInt z)) (HStr : forall s, P (PStr s))
  (HList : forall l, Forall P l -> P (PList l))
  (HDict : forall d, Forall (fun kv => P (snd kv)) d -> P (PDict d)) :
  forall v, P v.
Proof.
  fix IH 1. intros [ | b | z | s | l | d ].
  - exact HNone.
  - apply HBool.
  - apply HInt.
  - apply HStr.
  - apply HList. induction l as [ | x l IHl ]; constructor; [ apply IH | exact IHl ].
  - apply HDict. induction d as [ | [k x] d IHd ]; constructor;
      [ apply IH | exact IHd ].
Qed.

(** ** Decimal numbers *)

Lemma scan_digits_chars u rest :
  no_digit_head rest ->
  scan_digits (uint_chars u ++ rest) = (u, rest).
Proof.
  intros Hrest.
  induction u; simpl; try rewrite IHu; try reflexivity.
  destruct rest as [ | c r ]; simpl in *; [ reflexivity | now rewrite Hrest ].
Qed.

Lemma nzhead_head u :
  match nzhead u with D0 _ => False | _ => True end.
Proof. induction u; simpl; auto. Qed.

Lemma pos_to_uint_head p :
  match Pos.to_uint p with Nil | D0 _ => False | _ => True end.
Proof.
  assert (E : Pos.to_uint p = unorm (Pos.to_uint p)).
  { rewrite <- (DecimalPos.Unsigned.to_of (Pos.to_uint p)).
    rewrite DecimalPos.Unsigned.of_to. reflexivity. }
  pose proof (Unsigned.to_uint_nonzero p) as Hnz.
  pose proof (nzhead_head (Pos.to_uint p)) as Hh.
  unfold unorm in E. remember (Pos.to_uint p) as u eqn:Eu. clear Eu.
  destruct (nzhead u) eqn:En; try contradiction; subst u; exact I.
Qed.

Lemma scan_uint_pos p rest :
  no_digit_head rest ->
  scan_uint (uint_chars (Pos.to_uint p) ++ rest) = Some (Pos.to_uint p, rest).
Proof.
  intros Hrest. pose proof (pos_to_uint_head p) as Hh.
  pose proof (scan_digits_chars (Pos.to_uint p) rest Hrest) as Hs.
  destruct (Pos.to_uint p) eqn:E; try contradiction;
    simpl in *; unfold scan_uint; simpl;
    destruct (scan_digits (uint_chars u ++ rest)) eqn:Es; simpl in *;
    now inversion Hs.
Qed.

Lemma scan_number_int z rest :
  no_digit_head rest ->
  scan_number (int_chars z ++ rest) = Some (PInt z, rest).
Proof.
  intros Hrest. unfold int_chars.
  pose proof (DecimalZ.of_to z) as Hz.
  destruct z as [ | p | p ]; simpl in *.
  - reflexivity.
  - pose proof (pos_to_uint_head p) as Hh.
    pose proof (scan_uint_pos p rest Hrest) as Hs.
    unfold scan_number.
    destruct (uint_chars (Pos.to_uint p) ++ rest) as [ | c r ] eqn:E.
    + discriminate Hs.
    + assert (Hc : (c =? 45) = false).
      { destruct (Pos.to_uint p); simpl in E; try contradiction;
          inversion E; reflexivity. }
      rewrite Hc, Hs. simpl. now rewrite Hz.
  - pose proof (scan_uint_pos p rest Hrest) as Hs.
    unfold scan_number. simpl. rewrite Hs. simpl. now rewrite Hz.
Qed.

Lemma int_chars_ascii z : Forall (fun c => 0 <= c < 128) (int_chars z).
Proof.
  assert (Hu : forall u, Forall (fun c => 0 <= c < 128) (uint_chars u)).
  { induction u; simpl; constructor; auto; lia. }
  unfold int_chars. destruct (Z.to_int z); [ apply Hu | constructor; [ lia | apply Hu ] ].
Qed.

Lemma int_chars_head z :
  match int_chars z with
  | [] => False
  | c :: _ => c = 45 \/ is_digit c = true
  end.
Proof.
  unfold int_chars. destruct z as [ | p | p ]; simpl.
  - now right.
  - pose proof (pos_to_uint_head p). destruct (Pos.to_uint p); simpl; auto.
  - now left.
Qed.

(** ** Strings *)

Lemma hex_val_char d : 0 <= d < 16 -> hex_val (hex_char d) = Some d.
Proof.
  intros Hd. unfold hex_char, hex_val.
  destruct (d <? 10) eqn:E.
  - apply Z.ltb_lt in E.
    replace ((48 <=? 48 + d) && (48 + d <=? 57)) with true
      by (symmetry; apply andb_true_iff; split; apply Z.leb_le; lia).
    f_equal; lia.
  - apply Z.ltb_ge in E.
    replace ((48 <=? 87 + d) && (87 + d <=? 57)) with false
      by (symmetry; apply andb_false_iff; right; apply Z.leb_gt; lia).
    replace ((97 <=? 87 + d) && (87 + d <=? 102)) with true
      by (symmetry; apply andb_true_iff; split; apply Z.leb_le; lia).
    f_equal; lia.
Qed.

Lemma scan_hex4_hex4 n rest :
  0 <= n < 65536 -> scan_hex4 (hex4 n ++ rest) = Some (n, rest).
Proof.
  intros Hn. unfold hex4, scan_hex4. simpl.
  rewrite !hex_val_char by (apply Z.mod_pos_bound; lia).
  do 2 f_equal.
  pose proof (Z.div_mod n 4096 ltac:(lia)).
  pose proof (Z.mod_pos_bound n 4096 ltac:(lia)).
  assert (n / 4096 mod 16 = n / 4096)
    by (apply Z.mod_small; split; [ apply Z.div_pos | apply Z.div_lt_upper_bound ]; lia).
  Z.to_euclidean_division_equations; lia.
Qed.

Lemma hex_char_ascii d : 0 <= d < 16 -> 0 <= hex_char d < 128.
Proof. intros Hd. unfold hex_char. destruct (d <? 10); lia. Qed.

Lemma hex4_ascii n : Forall (fun c => 0 <= c < 128) (hex4 n).
Proof.
  unfold hex4. repeat constructor;
    apply hex_char_ascii; apply Z.mod_pos_bound; lia.
Qed.

Lemma escape_char_ascii c : Forall (fun c => 0 <= c < 128) (escape_char c).
Proof.
  unfold escape_char.
  repeat match goal with
         | |- context [if ?x =? ?y then _ else _] =>
             destruct (x =? y); [ repeat constructor; lia | ]
         end.
  destruct ((32 <=? c) && (c <=? 126)) eqn:Eprint.
  - apply andb_true_iff in Eprint as [H1 H2].
    apply Z.leb_le in H1, H2. repeat constructor; lia.
  - destruct (c <? 65536).
    + constructor; [ lia | constructor; [ lia | apply hex4_ascii ] ].
    + constructor; [ lia | constructor; [ lia | ] ].
      apply Forall_app; split; [ apply hex4_ascii | ].
      constructor; [ lia | constructor; [ lia | apply hex4_ascii ] ].
Qed.

Lemma escape_char_nonempty c : escape_char c <> [].
Proof.
  unfold escape_char.
  repeat match goal with
         | |- context [if ?b then _ else _] => destruct b
         end; discriminate.
Qed.

(** Reading back one escaped character. *)
Lemma scanstring_aux_escape c tail n :
  scalar_value c = true ->
  scanstring_aux (S n) (escape_char c ++ tail)
  = cons_char c (scanstring_aux n tail).
Proof.
  intros Hc. unfold scalar_value in Hc. unfold escape_char.
  repeat match goal with
         | |- context [if ?x =? ?y then _ else _] =>
             destruct (Z.eqb_spec x y); [ subst; reflexivity | ]
         end.
  destruct ((32 <=? c) && (c <=? 126)) eqn:Eprint.
  - apply andb_true_iff in Eprint as [H1 H2]. apply Z.leb_le in H1, H2.
    simpl.
    rewrite (proj2 (Z.eqb_neq c 34)), (proj2 (Z.eqb_neq c 92)) by assumption.
    now rewrite (proj2 (Z.ltb_ge c 32)).
  - assert (Hr : c < 32 \/ 126 < c).
    { apply andb_false_iff in Eprint as [H | H]; apply Z.leb_gt in H; lia. }
    assert (Hs : 0 <= c < 55296 \/ 57344 <= c < 1114112).
    { apply orb_true_iff in Hc as [H | H]; apply andb_true_iff in H as [H1 H2];
        apply Z.leb_le in H1; apply Z.ltb_lt in H2; lia. }
    destruct (c <? 65536) eqn:Ebmp.
    + apply Z.ltb_lt in Ebmp.
      change (scanstring_aux (S n) ((92 :: 117 :: hex4 c) ++ tail))
        with (match scan_hex4 (hex4 c ++ tail) with
              | None => None
              | Some (u, r2) =>
                  if is_high_surrogate u && startswith r2 [92; 117] then
                    match scan_hex4 (skipn 2 r2) with
                    | None => None
                    | Some (u2, r4) =>
                        if is_low_surrogate u2 then
                          cons_char (65536 + (u - 55296) * 1024 + (u2 - 56320))
                            (scanstring_aux n r4)
                        else cons_char u (scanstring_aux n r2)
                    end
                  else cons_char u (scanstring_aux n r2)
              end).
      rewrite scan_hex4_hex4 by lia.
      replace (is_high_surrogate c) with false; [ reflexivity | ].
      symmetry. unfold is_high_surrogate. apply andb_false_iff.
      destruct Hs; [ left; apply Z.leb_gt | right; apply Z.leb_gt ]; lia.
    + apply Z.ltb_ge in Ebmp.
      cbv zeta. remember (c - 65536) as m eqn:Em.
      assert (Hm : 0 <= m < 1048576) by lia.
      assert (Hq : 0 <= m / 1024 < 1024)
        by (split; [ apply Z.div_pos | apply Z.div_lt_upper_bound ]; lia).
      pose proof (Z.mod_pos_bound m 1024 ltac:(lia)) as Hrem.
      change (scanstring_aux (S n)
                ((92 :: 117 :: hex4 (55296 + m / 1024)
                     ++ 92 :: 117 :: hex4 (56320 + m mod 1024)) ++ tail))
        with (match scan_hex4 (hex4 (55296 + m / 1024)
                               ++ 92 :: 117 :: hex4 (56320 + m mod 1024) ++ tail)
                    with
              | None => None
              | Some (u, r2) =>
                  if is_high_surrogate u && startswith r2 [92; 117] then
                    match scan_hex4 (skipn 2 r2) with
                    | None => None
                    | Some (u2, r4) =>
                        if is_low_surrogate u2 then
                          cons_char (65536 + (u - 55296) * 1024 + (u2 - 56320))
                            (scanstring_aux n r4)
                        else cons_char u (scanstring_aux n r2)
                    end
                  else cons_char u (scanstring_aux n r2)
              end).
      rewrite scan_hex4_hex4 by lia.
      replace (is_high_surrogate (55296 + m / 1024)) with true
        by (symmetry; apply andb_true_iff; split; apply Z.leb_le; lia).
      cbn [andb startswith skipn Z.eqb Pos.eqb].
      rewrite scan_hex4_hex4 by lia.
      replace (is_low_surrogate (56320 + m mod 1024)) with true
        by (symmetry; apply andb_true_iff; split; apply Z.leb_le; lia).
      replace (65536 + (55296 + m / 1024 - 55296) * 1024
               + (56320 + m mod 1024 - 56320)) with c; [ reflexivity | ].
      pose proof (Z.div_mod m 1024 ltac:(lia)). lia.
Qed.

Lemma scanstring_escaped s : forall (rest : pystr) (n : nat),
  wf_str s = true ->
  (length (flat_map escape_char s ++ 34%Z :: rest) <= n)%nat ->
  scanstring_aux n (flat_map escape_char s ++ 34 :: rest) = Some (s, rest).
Proof.
  induction s as [ | c s IH ]; intros rest n Hwf Hn; simpl in *.
  - destruct n; [ lia | reflexivity ].
  - apply andb_true_iff in Hwf as [Hc Hs].
    rewrite <- app_assoc in *. rewrite length_app in Hn.
    pose proof (escape_char_nonempty c) as Hne.
    destruct n as [ | n ].
    + destruct (escape_char c); [ contradiction | simpl in Hn; lia ].
    + rewrite scanstring_aux_escape by assumption.
      rewrite IH; [ reflexivity | assumption | ].
      destruct (escape_char c); [ contradiction | simpl in Hn; lia ].
Qed.

Lemma scanstring_dumps_str s rest :
  wf_str s = true ->
  scanstring (flat_map escape_char s ++ 34 :: rest) = Some (s, rest).
Proof. intros Hwf. apply scanstring_escaped; [ assumption | apply le_n ]. Qed.

Lemma cons_char_some c o x r :
  cons_char c o = Some (x, r) ->
  exists x', x = c :: x' /\ o = Some (x', r).
Proof.
  destruct o as [ [x' r'] | ]; simpl; intros H; inversion H; eauto.
Qed.

Lemma scan_hex4_app s u r t :
  scan_hex4 s = Some (u, r) -> scan_hex4 (s ++ t) = Some (u, r ++ t).
Proof.
  destruct s as [ | a [ | b [ | c [ | d s ] ] ] ]; try discriminate.
  simpl. destruct (hex_val a), (hex_val b), (hex_val c), (hex_val d);
    try discriminate.
  intros H; inversion H; reflexivity.
Qed.

Lemma scanstring_aux_nil n : scanstring_aux n [] = None.
Proof. destruct n; reflexivity. Qed.

(** What [scanstring] read stays what it reads when text is appended:
    a string ends at its closing quote. *)
Lemma scanstring_aux_app n : forall s x r t m,
  scanstring_aux n s = Some (x, r) -> (n <= m)%nat ->
  scanstring_aux m (s ++ t) = Some (x, r ++ t).
Proof.
  induction n as [ | n IH ]; intros s x r t m H Hm; [ discriminate | ].
  destruct m as [ | m ]; [ lia | ]. apply le_S_n in Hm.
  destruct s as [ | c s ]; [ discriminate | ].
  rewrite <- app_comm_cons. cbn [scanstring_aux] in H |- *.
  destruct (c =? 34).
  { inversion H; reflexivity. }
  destruct (c =? 92).
  - destruct s as [ | e r1 ]; [ discriminate | ]. rewrite <- app_comm_cons.
    destruct (e =? 117).
    + destruct (scan_hex4 r1) as [ [u r2] | ] eqn:Eh; [ | discriminate ].
      rewrite (scan_hex4_app _ _ _ t Eh).
      destruct (is_high_surrogate u); cbn [andb] in H |- *.
      * destruct r2 as [ | a [ | b r3 ] ].
        -- cbn in H. rewrite scanstring_aux_nil in H. discriminate.
        -- cbn [startswith] in H. rewrite andb_false_r in H.
           apply cons_char_some in H as (x' & -> & H).
           assert (Ha : (92 =? a) = false).
           { destruct (Z.eqb_spec 92 a) as [ <- | ]; [ | reflexivity ].
             destruct n; cbn in H; discriminate. }
           replace (startswith ([a] ++ t) [92; 117]) with false
             by (change (startswith ([a] ++ t) [92; 117])
                   with ((92 =? a) && startswith t [117]); now rewrite Ha).
           now rewrite (IH _ _ _ t m H Hm).
        -- change (startswith ((a :: b :: r3) ++ t) [92; 117])
             with (startswith (a :: b :: r3) [92; 117]).
           destruct (startswith (a :: b :: r3) [92; 117]).
           ++ change (skipn 2 ((a :: b :: r3) ++ t)) with (r3 ++ t).
              change (skipn 2 (a :: b :: r3)) with r3 in H.
              destruct (scan_hex4 r3) as [ [u2 r4] | ] eqn:Eh2; [ | discriminate ].
              rewrite (scan_hex4_app _ _ _ t Eh2).
              destruct (is_low_surrogate u2);
                apply cons_char_some in H as (x' & -> & H);
                now rewrite (IH _ _ _ t m H Hm).
           ++ apply cons_char_some in H as (x' & -> & H).
              now rewrite (IH _ _ _ t m H Hm).
      * apply cons_char_some in H as (x' & -> & H).
        now rewrite (IH _ _ _ t m H Hm).
    + destruct (unescape e); [ | discriminate ].
      apply cons_char_some in H as (x' & -> & H).
      now rewrite (IH _ _ _ t m H Hm).
  - destruct (c <? 32); [ discriminate | ].
    apply cons_char_some in H as (x' & -> & H).
    now rewrite (IH _ _ _ t m H Hm).
Qed.

Lemma scanstring_app s x r t :
  scanstring s = Some (x, r) -> scanstring (s ++ t) = Some (x, r ++ t).
Proof.
  unfold scanstring. intros H.
  apply scanstring_aux_app with (n := length s); [ assumption | ].
  rewrite length_app. lia.
Qed.

(** ** Values: what was read stays read when text is appended *)

Lemma skip_ws_app r c r1 t :
  skip_ws r = c :: r1 -> skip_ws (r ++ t) = c :: r1 ++ t.
Proof.
  induction r as [ | a r IH ]; simpl; [ discriminate | ].
  destruct (is_ws a); [ exact IH | ].
  intros H; inversion H; reflexivity.
Qed.

Lemma skip_ws_cons_nonempty r c r1 : skip_ws r = c :: r1 -> r <> [].
Proof. destruct r; [ discriminate | discriminate ]. Qed.

Lemma strip_prefix_app p : forall s r t,
  strip_prefix p s = Some r -> strip_prefix p (s ++ t) = Some (r ++ t).
Proof.
  induction p as [ | a p IH ]; intros s r t; simpl.
  - intros H; inversion H; reflexivity.
  - destruct s as [ | b s ]; [ discriminate | ]. simpl.
    destruct (a =? b); [ apply IH | discriminate ].
Qed.

Lemma scan_digits_app s : forall u r t,
  scan_digits s = (u, r) -> r <> [] -> scan_digits (s ++ t) = (u, r ++ t).
Proof.
  induction s as [ | c s IH ]; intros u r t H Hr; simpl in *.
  - inversion H; subst. contradiction.
  - destruct (is_digit c) eqn:Ed.
    + destruct (scan_digits s) as [u' r'] eqn:Es. inversion H; subst.
      now rewrite (IH _ _ t eq_refl Hr).
    + inversion H; subst. reflexivity.
Qed.

Lemma scan_uint_app s u r t :
  scan_uint s = Some (u, r) -> r <> [] ->
  scan_uint (s ++ t) = Some (u, r ++ t).
Proof.
  destruct s as [ | c s ]; [ discriminate | ].
  unfold scan_uint. rewrite <- app_comm_cons.
  destruct (c =? 48).
  - intros H _; inversion H; reflexivity.
  - destruct (is_digit c); [ | discriminate ].
    intros H Hr. injection H as Hs.
    rewrite app_comm_cons. now rewrite (scan_digits_app (c :: s) u r t Hs Hr).
Qed.

Lemma scan_number_app s v r t :
  scan_number s = Some (v, r) -> r <> [] ->
  scan_number (s ++ t) = Some (v, r ++ t).
Proof.
  destruct s as [ | c s ]; [ discriminate | ].
  unfold scan_number. rewrite <- app_comm_cons.
  destruct (c =? 45).
  - destruct (scan_uint s) as [ [u r'] | ] eqn:Es; [ | discriminate ].
    intros H Hr; inversion H; subst.
    now rewrite (scan_uint_app _ _ _ t Es Hr).
  - destruct (scan_uint (c :: s)) as [ [u r'] | ] eqn:Es; [ | discriminate ].
    intros H Hr; inversion H; subst.
    rewrite app_comm_cons. now rewrite (scan_uint_app _ _ _ t Es Hr).
Qed.

Lemma scan_number_head s : number_head s = false -> scan_number s = None.
Proof.
  destruct s as [ | c s ]; [ reflexivity | ].
  unfold number_head, scan_number, scan_uint.
  intros H. apply orb_false_iff in H as [H1 H2]. rewrite H1, H2.
  destruct (c =? 48) eqn:E; [ | reflexivity ].
  apply Z.eqb_eq in E. subst. discriminate.
Qed.

Lemma parse_value_nil n : parse_value n [] = None.
Proof. destruct n; reflexivity. Qed.

Ltac use_skip_ws t :=
  match goal with
  | H : skip_ws ?r = _ :: _ |- _ => rewrite (skip_ws_app _ _ _ t H)
  end.

Lemma parse_app n :
  (forall s v r t m,
      parse_value n s = Some (v, r) -> r <> [] \/ number_head s = false ->
      (n <= m)%nat -> parse_value m (s ++ t) = Some (v, r ++ t))
  /\ (forall s l r t m,
      parse_members n s = Some (l, r) -> (n <= m)%nat ->
      parse_members m (s ++ t) = Some (l, r ++ t))
  /\ (forall s l r t m,
      parse_elems n s = Some (l, r) -> (n <= m)%nat ->
      parse_elems m (s ++ t) = Some (l, r ++ t)).
Proof.
  induction n as [ | n (IHv & IHm & IHe) ];
    [ repeat split; intros; discriminate | ].
  split; [ | split ].
  - intros s v r t m H Hr Hm.
    destruct m as [ | m ]; [ lia | ]. apply le_S_n in Hm.
    destruct s as [ | c s ]; [ discriminate | ].
    rewrite <- app_comm_cons. cbn [parse_value] in H |- *.
    destruct (c =? 34) eqn:E34.
    { destruct (scanstring s) as [ [str r'] | ] eqn:Es; [ | discriminate ].
      inversion H; subst. now rewrite (scanstring_app _ _ _ t Es). }
    destruct (c =? 123) eqn:E123.
    { destruct (skip_ws s) as [ | c1 r1 ] eqn:Ew; [ discriminate | ].
      use_skip_ws t.
      destruct (c1 =? 125); [ inversion H; reflexivity | ].
      destruct (c1 =? 34); [ | discriminate ].
      destruct (parse_members n r1) as [ [pairs r2] | ] eqn:Ep; [ | discriminate ].
      inversion H; subst. now rewrite (IHm _ _ _ t m Ep Hm). }
    destruct (c =? 91) eqn:E91.
    { destruct (skip_ws s) as [ | c1 r1 ] eqn:Ew; [ discriminate | ].
      use_skip_ws t.
      destruct (c1 =? 93); [ inversion H; reflexivity | ].
      destruct (parse_elems n (c1 :: r1)) as [ [vs r2] | ] eqn:Ep; [ | discriminate ].
      inversion H; subst.
      rewrite app_comm_cons. now rewrite (IHe _ _ _ t m Ep Hm). }
    destruct (c =? 110).
    { destruct (strip_prefix (py "ull") s) as [ r' | ] eqn:Es; [ | discriminate ].
      inversion H; subst. now rewrite (strip_prefix_app _ _ _ t Es). }
    destruct (c =? 116).
    { destruct (strip_prefix (py "rue") s) as [ r' | ] eqn:Es; [ | discriminate ].
      inversion H; subst. now rewrite (strip_prefix_app _ _ _ t Es). }
    destruct (c =? 102).
    { destruct (strip_prefix (py "alse") s) as [ r' | ] eqn:Es; [ | discriminate ].
      inversion H; subst. now rewrite (strip_prefix_app _ _ _ t Es). }
    destruct Hr as [Hr | Hr].
    + rewrite app_comm_cons. now apply scan_number_app.
    + rewrite (scan_number_head _ Hr) in H. discriminate.
  - intros s l r t m H Hm.
    destruct m as [ | m ]; [ lia | ]. apply le_S_n in Hm.
    cbn [parse_members] in H |- *.
    destruct (scanstring s) as [ [key r0] | ] eqn:Es; [ | discriminate ].
    rewrite (scanstring_app _ _ _ t Es).
    destruct (skip_ws r0) as [ | c r1 ] eqn:Ew; [ discriminate | ].
    use_skip_ws t. clear Ew.
    destruct (c =? 58); [ | discriminate ].
    destruct (parse_value n (skip_ws r1)) as [ [v r2] | ] eqn:Ev; [ | discriminate ].
    destruct (skip_ws r1) as [ | c1 r1' ] eqn:Ew1;
      [ rewrite parse_value_nil in Ev; discriminate | ].
    use_skip_ws t. clear Ew1.
    destruct (skip_ws r2) as [ | c2 r3 ] eqn:Ew2; [ discriminate | ].
    rewrite app_comm_cons.
    rewrite (IHv _ _ _ t m Ev (or_introl (skip_ws_cons_nonempty _ _ _ Ew2)) Hm).
    use_skip_ws t. clear Ew2.
    destruct (c2 =? 125); [ inversion H; reflexivity | ].
    destruct (c2 =? 44); [ | discriminate ].
    destruct (skip_ws r3) as [ | c3 r4 ] eqn:Ew3; [ discriminate | ].
    use_skip_ws t. clear Ew3.
    destruct (c3 =? 34); [ | discriminate ].
    destruct (parse_members n r4) as [ [ps r5] | ] eqn:Ep; [ | discriminate ].
    inversion H; subst. now rewrite (IHm _ _ _ t m Ep Hm).
  - intros s l r t m H Hm.
    destruct m as [ | m ]; [ lia | ]. apply le_S_n in Hm.
    cbn [parse_elems] in H |- *.
    destruct (parse_value n s) as [ [v r0] | ] eqn:Ev; [ | discriminate ].
    destruct (skip_ws r0) as [ | c r1 ] eqn:Ew; [ discriminate | ].
    rewrite (IHv _ _ _ t m Ev (or_introl (skip_ws_cons_nonempty _ _ _ Ew)) Hm).
    use_skip_ws t. clear Ew.
    destruct (c =? 93); [ inversion H; reflexivity | ].
    destruct (c =? 44); [ | discriminate ].
    destruct (parse_elems n (skip_ws r1)) as [ [vs r2] | ] eqn:Ep; [ | discriminate ].
    destruct (skip_ws r1) as [ | c1 r1' ] eqn:Ew1.
    { destruct n; cbn [parse_elems] in Ep;
        [ discriminate | rewrite parse_value_nil in Ep; discriminate ]. }
    use_skip_ws t. clear Ew1.
    inversion H; subst. rewrite app_comm_cons. now rewrite (IHe _ _ _ t m Ep Hm).
Qed.

(** ** Values: reading back what [dumps] wrote *)

Lemma dumps_list_cons x l :
  dumps (PList (x :: l)) = 91 :: dumps x ++ dumps_items l ++ [93].
Proof. cbn [dumps]. rewrite <- app_assoc. reflexivity. Qed.

Lemma dumps_dict_cons k x d :
  dumps (PDict ((k, x) :: d))
  = 123 :: dumps_str k ++ 58 :: 32 :: dumps x ++ dumps_members d ++ [125].
Proof.
  cbn [dumps]. rewrite <- !app_assoc. rewrite <- !app_comm_cons.
  rewrite <- !app_assoc.
  match goal with
  | |- context [?f d ++ [125]] =>
      assert (E : forall d', f d' = dumps_members d')
  end.
  { induction d' as [ | [k' y] d' IH ]; [ reflexivity | ].
    cbn [dumps_members flat_map fst snd]. rewrite IH.
    rewrite <- !app_comm_cons. rewrite <- !app_assoc. reflexivity. }
  rewrite E. reflexivity.
Qed.

Lemma dumps_head v : exists c r, dumps v = c :: r /\ value_head c.
Proof.
  unfold value_head. destruct v as [ | [ | ] | z | s | l | d ].
  - exists 110, (py "ull"). split; [ reflexivity | tauto ].
  - exists 116, (py "rue"). split; [ reflexivity | tauto ].
  - exists 102, (py "alse"). split; [ reflexivity | tauto ].
  - pose proof (int_chars_head z) as H. cbn [dumps].
    destruct (int_chars z) as [ | c r ]; [ contradiction | ].
    exists c, r. split; [ reflexivity | tauto ].
  - eexists _, _. split; [ reflexivity | tauto ].
  - eexists _, _. split; [ reflexivity | tauto ].
  - eexists _, _. split; [ reflexivity | tauto ].
Qed.

Lemma value_head_not_ws c : value_head c -> is_ws c = false.
Proof.
  unfold value_head, is_ws, is_digit. intros H.
  repeat (destruct H as [ H | H ]; [ subst; reflexivity | ]).
  apply andb_true_iff in H as [H1 H2]. apply Z.leb_le in H1, H2.
  repeat (apply orb_false_iff; split); apply Z.eqb_neq; lia.
Qed.

Lemma skip_ws_dumps v rest : skip_ws (dumps v ++ rest) = dumps v ++ rest.
Proof.
  destruct (dumps_head v) as (c & r & E & Hc). rewrite E. cbn.
  now rewrite (value_head_not_ws c Hc).
Qed.

Lemma dumps_number_head v :
  is_number v = false -> number_head (dumps v) = false.
Proof.
  destruct v as [ | [ | ] | z | s | l | d ]; try reflexivity. discriminate.
Qed.

Lemma dict_set_fresh d k v :
  existsb (pystr_eqb k) (map fst d) = false -> dict_set d k v = d ++ [(k, v)].
Proof.
  induction d as [ | [k' v'] d IH ]; simpl; [ reflexivity | ].
  intros H. apply orb_false_iff in H as [H1 H2].
  replace (pystr_eqb k' k) with false.
  - now rewrite IH.
  - unfold pystr_eqb in *.
    destruct (list_eq_dec Z.eq_dec k' k) as [ -> | ]; [ | reflexivity ].
    destruct (list_eq_dec Z.eq_dec k k); [ discriminate | contradiction ].
Qed.

Lemma existsb_app_false {A} (f : A -> bool) l1 l2 :
  existsb f (l1 ++ l2) = false <-> existsb f l1 = false /\ existsb f l2 = false.
Proof. rewrite existsb_app. apply orb_false_iff. Qed.

Lemma distinct_app_cons acc k l :
  distinct (acc ++ k :: l) = true ->
  existsb (pystr_eqb k) acc = false /\ distinct ((acc ++ [k]) ++ l) = true.
Proof.
  induction acc as [ | a acc IH ]; simpl.
  - intros H. split; [ reflexivity | exact H ].
  - intros H. apply andb_true_iff in H as [H1 H2].
    apply negb_true_iff in H1. apply existsb_app_false in H1 as [H1a H1b].
    simpl in H1b. apply orb_false_iff in H1b as [H1k H1l].
    destruct (IH H2) as [IH1 IH2]. split.
    + apply orb_false_iff. split; [ | exact IH1 ].
      unfold pystr_eqb in *.
      destruct (list_eq_dec Z.eq_dec k a) as [ -> | ]; [ | reflexivity ].
      destruct (list_eq_dec Z.eq_dec a a); [ discriminate | contradiction ].
    + apply andb_true_iff. split; [ | exact IH2 ].
      apply negb_true_iff. rewrite <- app_assoc. apply existsb_app_false.
      split; [ exact H1a | ]. simpl. now rewrite H1k, H1l.
Qed.

Lemma dict_of_pairs_distinct d :
  distinct (map fst d) = true -> dict_of_pairs d = d.
Proof.
  unfold dict_of_pairs.
  assert (G : forall d acc, distinct (map fst acc ++ map fst d) = true ->
            fold_left (fun d kv => dict_set d (fst kv) (snd kv)) d acc = acc ++ d).
  { clear d. induction d as [ | [k v] d IH ]; intros acc H; simpl.
    - now rewrite app_nil_r.
    - simpl in H. apply distinct_app_cons in H as [H1 H2].
      rewrite dict_set_fresh by assumption.
      rewrite IH; [ now rewrite <- app_assoc | ].
      now rewrite map_app. }
  intros H. apply (G d []). exact H.
Qed.

Lemma no_digit_head_sep c rest :
  c = 44 \/ c = 93 \/ c = 125 -> no_digit_head (c :: rest).
Proof. intros [ -> | [ -> | -> ] ]; reflexivity. Qed.

Lemma no_digit_head_items l rest : no_digit_head (dumps_items l ++ 93 :: rest).
Proof. destruct l; reflexivity. Qed.

Lemma no_digit_head_members d rest :
  no_digit_head (dumps_members d ++ 125 :: rest).
Proof. destruct d; reflexivity. Qed.

Lemma parse_elems_dumps l : forall x (rest : pystr) (n : nat),
  reads_back x -> Forall reads_back l ->
  (length (dumps x ++ dumps_items l) < n)%nat ->
  parse_elems n (dumps x ++ dumps_items l ++ 93 :: rest) = Some (x :: l, rest).
Proof.
  induction l as [ | y l IH ]; intros x rest n Hx Hl Hn;
    (destruct n as [ | n ]; [ lia | ]); rewrite length_app in Hn;
    cbn [parse_elems].
  - rewrite (Hx _ n (no_digit_head_items [] rest)) by (simpl in Hn; lia).
    reflexivity.
  - rewrite (Hx _ n (no_digit_head_items (y :: l) rest)) by lia.
    inversion Hl as [ | ? ? Hy Hl' ]; subst.
    cbn [dumps_items flat_map] in *.
    rewrite <- !app_comm_cons. rewrite <- app_assoc.
    cbn [skip_ws is_ws Z.eqb Pos.eqb orb].
    change (skip_ws (32 :: dumps y ++ flat_map (fun y0 => 44 :: 32 :: dumps y0) l
                     ++ 93 :: rest))
      with (skip_ws (dumps y ++ dumps_items l ++ 93 :: rest)).
    rewrite skip_ws_dumps.
    rewrite IH; [ reflexivity | assumption | assumption | ].
    simpl in Hn. rewrite !length_app in *. unfold dumps_items. lia.
Qed.

Lemma parse_members_dumps d : forall k x (rest : pystr) (n : nat),
  wf_str k = true -> reads_back x ->
  Forall (fun kv => wf_str (fst kv) = true /\ reads_back (snd kv)) d ->
  (length (dumps x ++ dumps_members d) < n)%nat ->
  parse_members n (flat_map escape_char k ++ 34 :: 58 :: 32 :: dumps x
                   ++ dumps_members d ++ 125 :: rest)
  = Some ((k, x) :: d, rest).
Proof.
  induction d as [ | [k' y] d IH ]; intros k x rest n Hk Hx Hd Hn;
    (destruct n as [ | n ]; [ lia | ]); rewrite length_app in Hn;
    cbn [parse_members]; rewrite scanstring_dumps_str by assumption;
    cbn [skip_ws is_ws Z.eqb Pos.eqb orb]; rewrite skip_ws_dumps.
  - rewrite (Hx _ n (no_digit_head_members [] rest)) by (simpl in Hn; lia).
    reflexivity.
  - rewrite (Hx _ n (no_digit_head_members ((k', y) :: d) rest)) by lia.
    inversion Hd as [ | ? ? [Hk' Hy] Hd' ]; subst. cbn [fst snd] in *.
    cbn [dumps_members flat_map fst snd] in *.
    rewrite <- !app_comm_cons. rewrite <- !app_assoc.
    cbn [skip_ws is_ws Z.eqb Pos.eqb orb].
    unfold dumps_str at 1. rewrite <- !app_comm_cons.
    cbn [skip_ws is_ws Z.eqb Pos.eqb orb].
    rewrite <- !app_assoc. rewrite <- !app_comm_cons.
    change (flat_map (fun kv => 44 :: 32 :: dumps_str (fst kv)
                                ++ 58 :: 32 :: dumps (snd kv)) d)
      with (dumps_members d) in *.
    change ([] ++ 58 :: 32 :: dumps y ++ dumps_members d ++ 125 :: rest)
      with (58 :: 32 :: dumps y ++ dumps_members d ++ 125 :: rest).
    rewrite IH; [ reflexivity | assumption | assumption | assumption | ].
    simpl in Hn. rewrite !length_app in *. simpl in Hn. lia.
Qed.

Lemma value_head_number c :
  c = 45 \/ is_digit c = true ->
  (c =? 34) = false /\ (c =? 123) = false /\ (c =? 91) = false
  /\ (c =? 110) = false /\ (c =? 116) = false /\ (c =? 102) = false.
Proof.
  unfold is_digit. intros [ -> | H ]; [ repeat split | ].
  apply andb_true_iff in H as [H1 H2]. apply Z.leb_le in H1, H2.
  repeat split; apply Z.eqb_neq; lia.
Qed.

Lemma value_head_not_close c : value_head c -> (c =? 93) = false.
Proof.
  unfold value_head, is_digit. intros H.
  repeat (destruct H as [ H | H ]; [ subst; reflexivity | ]).
  apply andb_true_iff in H as [H1 H2]. apply Z.leb_le in H1, H2.
  apply Z.eqb_neq; lia.
Qed.

Lemma wf_value_list l :
  wf_value (PList l) = true -> Forall (fun x => wf_value x = true) l.
Proof.
  cbn [wf_value]. intros H. apply Forall_forall.
  now apply (proj1 (forallb_forall _ _)).
Qed.

Lemma wf_value_dict d :
  wf_value (PDict d) = true ->
  distinct (map fst d) = true
  /\ Forall (fun kv => wf_str (fst kv) = true /\ wf_value (snd kv) = true) d.
Proof.
  cbn [wf_value]. intros H. apply andb_true_iff in H as [H1 H2].
  split; [ assumption | ].
  apply Forall_forall. intros kv Hin.
  rewrite forallb_forall in H2. specialize (H2 kv Hin).
  now apply andb_true_iff in H2.
Qed.

(** Every well-formed value is read back from the text [dumps] writes. *)
Lemma parse_value_dumps v : wf_value v = true -> reads_back v.
Proof.
  induction v as [ | b | z | s | l IHl | d IHd ] using value_ind;
    intros Hwf rest n Hrest Hn.
  - destruct n as [ | n ]; [ simpl in Hn; lia | reflexivity ].
  - destruct n as [ | n ]; [ destruct b; simpl in Hn; lia | ].
    destruct b; reflexivity.
  - pose proof (int_chars_head z) as Hh. cbn [dumps] in *.
    pose proof (scan_number_int z rest Hrest) as Hs.
    destruct (int_chars z) as [ | c r ]; [ contradiction | ].
    destruct n as [ | n ]; [ simpl in Hn; lia | ].
    destruct (value_head_number c Hh) as (E1 & E2 & E3 & E4 & E5 & E6).
    rewrite <- app_comm_cons in *. cbn [parse_value].
    rewrite E1, E2, E3, E4, E5, E6. exact Hs.
  - destruct n as [ | n ]; [ simpl in Hn; lia | ].
    cbn [dumps]. unfold dumps_str. rewrite <- app_comm_cons, <- app_assoc.
    change ([34] ++ rest) with (34 :: rest).
    cbn [parse_value Z.eqb Pos.eqb].
    now rewrite scanstring_dumps_str.
  - destruct l as [ | x l ].
    + destruct n as [ | n ]; [ simpl in Hn; lia | reflexivity ].
    + rewrite dumps_list_cons in *.
      destruct n as [ | n ]; [ simpl in Hn; lia | ].
      pose proof (wf_value_list _ Hwf) as Hall.
      inversion IHl as [ | ? ? IHx IHl' ]; subst.
      inversion Hall as [ | ? ? Hx Hall' ]; subst.
      rewrite <- app_comm_cons, <- !app_assoc.
      cbn [parse_value Z.eqb Pos.eqb].
      rewrite skip_ws_dumps.
      destruct (dumps_head x) as (c & r & E & Hc).
      assert (Hp : parse_elems n (dumps x ++ dumps_items l ++ 93 :: rest)
                   = Some (x :: l, rest)).
      { apply parse_elems_dumps; [ auto | | ].
        - clear - IHl' Hall'. induction IHl' as [ | y l Hy Hl IH ]; constructor;
            inversion Hall'; subst; auto.
        - simpl in Hn. rewrite !length_app in *. simpl in Hn |- *. lia. }
      change ([93] ++ rest) with (93 :: rest).
      rewrite E in Hp |- *. rewrite <- app_comm_cons in Hp |- *. cbv iota.
      rewrite (value_head_not_close c Hc). now rewrite Hp.
  - destruct d as [ | [k x] d ].
    + destruct n as [ | n ]; [ simpl in Hn; lia | reflexivity ].
    + rewrite dumps_dict_cons in *.
      destruct n as [ | n ]; [ simpl in Hn; lia | ].
      destruct (wf_value_dict _ Hwf) as [Hdist Hall].
      inversion IHd as [ | ? ? IHx IHd' ]; subst.
      inversion Hall as [ | ? ? [Hk Hx] Hall' ]; subst. cbn [fst snd] in *.
      unfold dumps_str at 1.
      rewrite <- !app_comm_cons, <- !app_assoc. rewrite <- !app_comm_cons.
      cbn [parse_value Z.eqb Pos.eqb skip_ws is_ws orb].
      assert (Hp : parse_members n
                     (flat_map escape_char k ++ 34 :: 58 :: 32 :: dumps x
                      ++ dumps_members d ++ 125 :: rest)
                   = Some ((k, x) :: d, rest)).
      { apply parse_members_dumps; [ assumption | auto | | ].
        - clear - IHd' Hall'. induction IHd' as [ | y l Hy Hl IH ]; constructor;
            inversion Hall' as [ | ? ? [H1 H2] ? ]; subst; auto.
        - simpl in Hn. unfold dumps_str in Hn. rewrite !length_app in *.
          simpl in Hn |- *. rewrite !length_app in *. simpl in Hn. lia. }
      match goal with
      | |- context [parse_members n ?t] =>
          replace t
            with (flat_map escape_char k ++ 34 :: 58 :: 32 :: dumps x
                  ++ dumps_members d ++ 125 :: rest)
            by (change ([] ++ 58 :: 32 :: (dumps x ++ dumps_members d ++ [125])
                        ++ rest)
                  with (58 :: 32 :: (dumps x ++ dumps_members d ++ [125]) ++ rest);
                now rewrite <- !app_assoc)
      end.
      rewrite Hp. now rewrite dict_of_pairs_distinct.
Qed.

(** [json.loads(json.dumps(v)) == v] *)
Lemma loads_dumps v : wf_value v = true -> loads (dumps v) = Some v.
Proof.
  intros Hwf. unfold loads.
  pose proof (skip_ws_dumps v []) as Hs. rewrite app_nil_r in Hs. rewrite Hs.
  pose proof (parse_value_dumps v Hwf [] (S (length (dumps v))) I) as Hp.
  rewrite app_nil_r in Hp. rewrite Hp by lia. reflexivity.
Qed.

(** ** UTF-8 on ASCII text *)

Lemma utf8_encode_ascii t : ascii_text t -> utf8_encode t = Some t.
Proof.
  induction 1 as [ | c t Hc Ht IH ]; [ reflexivity | ].
  cbn [utf8_encode]. rewrite IH.
  replace ((0 <=? c) && (c <? 128)) with true; [ reflexivity | ].
  symmetry. apply andb_true_iff. split; [ apply Z.leb_le | apply Z.ltb_lt ]; lia.
Qed.

Lemma utf8_decode_ascii t : ascii_text t -> utf8_decode t = Some t.
Proof.
  induction 1 as [ | c t Hc Ht IH ]; [ reflexivity | ].
  cbn [utf8_decode]. rewrite IH.
  replace ((0 <=? c) && (c <? 128)) with true; [ reflexivity | ].
  symmetry. apply andb_true_iff. split; [ apply Z.leb_le | apply Z.ltb_lt ]; lia.
Qed.

Lemma ascii_text_app a b : ascii_text (a ++ b) <-> ascii_text a /\ ascii_text b.
Proof. apply Forall_app. Qed.

Lemma dumps_str_ascii s : ascii_text (dumps_str s).
Proof.
  unfold dumps_str. constructor; [ lia | ].
  apply ascii_text_app. split; [ | repeat constructor; lia ].
  induction s as [ | c s IH ]; [ constructor | ].
  cbn [flat_map]. apply ascii_text_app. split; [ apply escape_char_ascii | exact IH ].
Qed.

(** [ensure_ascii]: the text of a document is plain ASCII. *)
Lemma dumps_ascii v : ascii_text (dumps v).
Proof.
  induction v as [ | b | z | s | l IHl | d IHd ] using value_ind.
  - repeat constructor; lia.
  - destruct b; repeat constructor; lia.
  - apply int_chars_ascii.
  - apply dumps_str_ascii.
  - destruct l as [ | x l ]; [ repeat constructor; lia | ].
    rewrite dumps_list_cons. inversion IHl as [ | ? ? Hx Hl ]; subst.
    constructor; [ lia | ].
    apply ascii_text_app. split; [ exact Hx | ].
    apply ascii_text_app. split; [ | repeat constructor; lia ].
    clear - Hl. induction Hl as [ | y l Hy Hl IH ]; [ constructor | ].
    cbn [dumps_items flat_map]. constructor; [ lia | constructor; [ lia | ] ].
    apply ascii_text_app. split; assumption.
  - destruct d as [ | [k x] d ]; [ repeat constructor; lia | ].
    rewrite dumps_dict_cons. inversion IHd as [ | ? ? Hx Hd ]; subst.
    constructor; [ lia | ].
    apply ascii_text_app. split; [ apply dumps_str_ascii | ].
    constructor; [ lia | constructor; [ lia | ] ].
    apply ascii_text_app. split; [ exact Hx | ].
    apply ascii_text_app. split; [ | repeat constructor; lia ].
    clear - Hd. induction Hd as [ | [k' y] d Hy Hd IH ]; [ constructor | ].
    cbn [dumps_members flat_map fst snd].
    constructor; [ lia | constructor; [ lia | ] ].
    apply ascii_text_app. split; [ | exact IH ].
    apply ascii_text_app. split; [ apply dumps_str_ascii | ].
    constructor; [ lia | constructor; [ lia | exact Hy ] ].
Qed.

(** Encoding a message never fails and gives the text itself. *)
Lemma encode_json_dumps v : encode_json v = Some (dumps v).
Proof. apply utf8_encode_ascii, dumps_ascii. Qed.

Lemma decode_json_dumps v : wf_value v = true -> decode_json (dumps v) = DecOk v.
Proof.
  intros Hwf. unfold decode_json.
  rewrite utf8_decode_ascii by apply dumps_ascii.
  now rewrite loads_dumps.
Qed.

(** ** Framing: no proper prefix of a document is a document *)

Lemma decode_json_prefix v p q :
  wf_value v = true -> is_number v = false ->
  dumps v = p ++ q -> p <> [] -> q <> [] ->
  decode_json p = DecJSONError.
Proof.
  intros Hwf Hnum E Hp Hq. unfold decode_json.
  pose proof (dumps_ascii v) as Ha. rewrite E in Ha.
  apply ascii_text_app in Ha as [Ha _].
  rewrite (utf8_decode_ascii p Ha).
  destruct (loads p) as [ v' | ] eqn:El; [ exfalso | reflexivity ].
  unfold loads in El.
  destruct (dumps_head v) as (c & r & Eh & Hc).
  destruct p as [ | c' p' ]; [ contradiction | ].
  assert (c' = c) by (rewrite Eh in E; now inversion E). subst c'.
  assert (Hws : skip_ws (c :: p') = c :: p')
    by (cbn; now rewrite (value_head_not_ws c Hc)).
  rewrite Hws in El.
  destruct (parse_value (S (length (c :: p'))) (c :: p')) as [ [v1 r1] | ] eqn:Ep;
    [ | discriminate ].
  destruct (skip_ws r1) eqn:Er; [ | discriminate ].
  assert (Hnh : number_head (c :: p') = false).
  { pose proof (dumps_number_head v Hnum) as Hn. rewrite Eh in Hn. exact Hn. }
  destruct (parse_app (S (length (c :: p')))) as (Hv & _ & _).
  pose proof (Hv _ _ _ q (S (length (dumps v))) Ep (or_intror Hnh)) as Hext.
  rewrite <- E in Hext.
  pose proof (parse_value_dumps v Hwf [] (S (length (dumps v))) I) as Hrt.
  rewrite app_nil_r in Hrt. rewrite Hrt in Hext by lia.
  assert (Hlen : (S (length (c :: p')) <= S (length (dumps v)))%nat)
    by (rewrite E, length_app; lia).
  specialize (Hext Hlen). inversion Hext as [ [Hv1 Hr1] ].
  symmetry in Hr1. apply app_eq_nil in Hr1 as [_ Hq']. contradiction.
Qed.

(** ** Framing: the client *)

Lemma concat_snoc {A} (l : list (list A)) d : concat (l ++ [d]) = concat l ++ d.
Proof. rewrite concat_app. simpl. now rewrite app_nil_r. Qed.

Lemma concat_nonempty {A} (l : list (list A)) :
  Forall (fun d => d <> []) l -> l <> [] -> concat l <> [].
Proof.
  intros Hall Hl. destruct l as [ | d l ]; [ contradiction | ].
  inversion Hall; subst. simpl. destruct d; [ contradiction | discriminate ].
Qed.

Lemma receive_loop_message v :
  wf_value v = true -> is_number v = false ->
  forall chunks prev,
    concat prev ++ concat chunks = dumps v ->
    Forall (fun d => d <> []) chunks -> chunks <> [] ->
    receive_loop (map Chunk chunks) prev = Return (dumps v).
Proof.
  intros Hwf Hnum. induction chunks as [ | d rest IH ]; intros prev E Hall Hne;
    [ contradiction | ].
  inversion Hall as [ | ? ? Hd Hrest ]; subst.
  destruct d as [ | x d ]; [ contradiction | ].
  cbn [map receive_loop]. rewrite concat_snoc.
  destruct rest as [ | d' rest ].
  - simpl in E. rewrite app_nil_r in E. rewrite E.
    now rewrite decode_json_dumps.
  - assert (Hq : concat (d' :: rest) <> [])
      by (apply concat_nonempty; [ assumption | discriminate ]).
    cbn [concat] in E. rewrite app_assoc in E.
    rewrite (decode_json_prefix v _ _ Hwf Hnum (eq_sym E)); [ | | exact Hq ].
    + apply IH; [ | assumption | discriminate ].
      now rewrite concat_snoc.
    + destruct (concat prev); discriminate.
Qed.

(** ** Framing: the host *)











(** ** Command dispatch *)





(** ** The client and an error envelope *)

Lemma send_command_connected self ct params w s :
  sock self = Some s ->
  send_command self ct params w
  = match send_and_receive (request ct params)
            match w_exchanges w with
            | ex :: _ => ex
            | [] => {| ex_send := SendOk; ex_reads := [] |}
            end with
    | Return res => (Return res, self, set_exchanges w (tl (w_exchanges w)))
    | Raise e =>
        (Raise (snd (handle_failure self e)), fst (handle_failure self e),
         set_exchanges w (tl (w_exchanges w)))
    end.
Proof.
  intros Hs. unfold send_command, connect. rewrite Hs. cbn [negb].
  destruct (send_and_receive _ _) as [ res | e ]; [ reflexivity | ].
  now destruct (handle_failure self e).
Qed.

(** A reply with status ["error"], however it is cut, makes
    [send_command] raise inside its own [try]: the catch-all clause drops
    the socket and wraps the message. *)
Lemma error_reply_drops_socket self ct params w s ex rest response chunks :
  sock self = Some s -> w_exchanges w = ex :: rest ->
  ex_send ex = SendOk -> ex_reads ex = map Chunk chunks ->
  wf_value (PDict response) = true ->
  split_of (dumps (PDict response)) chunks ->
  dict_get response (py "status") PNone = PStr (py "error") ->
  send_command self ct params w
  = (Raise (Exception (MsgWrap (py "Communication error with Houdini: ")
              (Exception (MsgValue
                 (dict_get response (py "message")
                    (PStr (py "Unknown error from Houdini"))))))),
     set_sock self None, set_exchanges w rest).
Proof.
  intros Hs Hw Hsend Hreads Hwf [Hcat Hall] Hst.
  rewrite (send_command_connected self ct params w s Hs). rewrite Hw.
  unfold send_and_receive. rewrite encode_json_dumps, Hsend, Hreads.
  assert (Hne : chunks <> []).
  { intros ->. cbn [concat] in Hcat.
    destruct (dumps_head (PDict response)) as (x & r & Ex & _).
    rewrite Ex in Hcat. discriminate. }
  unfold receive_full_response.
  rewrite (receive_loop_message (PDict response) Hwf eq_refl chunks []
             Hcat Hall Hne).
  rewrite (decode_json_dumps _ Hwf). rewrite Hst. reflexivity.
Qed.

(** C1, on the code.  The host answers [{"type": "noop_probe"}] with an
    error envelope and keeps its client socket, but the client, on
    receiving that envelope, sets its socket to [None]: its next call
    opens a new connection (socket [1], a second [connect] on the port)
    instead of reusing socket [0]. *)
Theorem error_envelope_invalidates_client_connection :
  let reply := error_envelope (py "Unknown command type: noop_probe") in
  let w := world_of [reply_in_one reply; reply_in_one (success_envelope PNone)] in
  let first := send_command held (py "noop_probe") PNone w in
  let second := send_command (snd (fst first)) (py "get_scene_info") PNone
                  (snd first) in
  client (fst (fst (run_server idle_handlers (serving 0, tt)
                      [arrival (dumps (PDict noop_probe))]))) = Some 0
  /\ fst (fst first)
     = Raise (Exception (MsgWrap (py "Communication error with Houdini: ")
                (Exception (MsgValue
                   (PStr (py "Unknown command type: noop_probe"))))))
  /\ sock (snd (fst first)) = None
  /\ sock (snd (fst second)) = Some 1
  /\ w_connects (snd second) = [PInt DEFAULT_PORT].
Proof.
  cbv zeta. split; [ reflexivity | ].
  rewrite (error_reply_drops_socket held (py "noop_probe") PNone _ 0
             (reply_in_one (error_envelope (py "Unknown command type: noop_probe")))
             [reply_in_one (success_envelope PNone)]
             [(py "status", PStr (py "error"));
              (py "message", PStr (py "Unknown command type: noop_probe"))]
             [dumps (error_envelope (py "Unknown command type: noop_probe"))]);
    try reflexivity.
  - repeat split; reflexivity.
  - split; [ reflexivity | vm_compute; repeat constructor; discriminate ].
Qed.

(** ** The client and a read timeout *)








(** ** The liveness prober *)

(** The probe is a query: it delivers no signal. *)
Lemma is_pid_alive_sends_nothing os pid : snd (_is_pid_alive os pid) = [].
Proof.
  unfold _is_pid_alive, os_kill.
  destruct (os_platform os).
  - now destruct (win_open_process os pid).
  - destruct (as_int pid) as [ z | ]; [ | reflexivity ].
    destruct ((-2147483648 <=? z) && (z <=? 2147483647)); [ | reflexivity ].
    now destruct (os_kill_answer os z).
Qed.

(** On Windows every exception is caught: the probe answers for any
    argument. *)
Lemma is_pid_alive_win32_total os pid :
  os_platform os = Win32 -> exists b, fst (_is_pid_alive os pid) = Return b.
Proof.
  intros Hp. unfold _is_pid_alive. rewrite Hp.
  destruct (win_open_process os pid); eexists; reflexivity.
Qed.

(** On POSIX the probe answers for an integer that fits a C [int]. *)
Lemma is_pid_alive_posix_int os z :
  os_platform os = Posix -> -2147483648 <= z <= 2147483647 ->
  exists b, fst (_is_pid_alive os (PInt z)) = Return b.
Proof.
  intros Hp Hz. unfold _is_pid_alive, os_kill. rewrite Hp. cbn [as_int].
  replace ((-2147483648 <=? z) && (z <=? 2147483647)) with true
    by (symmetry; apply andb_true_iff; split; apply Z.leb_le; lia).
  destruct (os_kill_answer os z); eexists; reflexivity.
Qed.

(** C9, on the code.  The probe delivers no signal, and on Windows it
    answers [False] for a process identifier that is too large; on POSIX
    the same identifier makes [os.kill] raise [OverflowError], which the
    [except (OSError, ProcessLookupError)] clause lets through. *)
Theorem posix_probe_raises_for_large_pid :
  _is_pid_alive lonely_posix (PInt 2147483648) = (Raise OverflowError, [])
  /\ _is_pid_alive lonely_win32 (PInt 2147483648) = (Return false, [])
  /\ _is_pid_alive lonely_posix (PInt 99999999) = (Return false, []).
Proof. repeat split; reflexivity. Qed.

(** ** The registry directory *)

Lemma pystr_eqb_eq a b : pystr_eqb a b = true <-> a = b.
Proof.
  unfold pystr_eqb. destruct (list_eq_dec Z.eq_dec a b); split;
    intros; try discriminate; auto.
Qed.

Lemma pystr_eqb_refl a : pystr_eqb a a = true.
Proof. now apply pystr_eqb_eq. Qed.

Lemma pystr_eqb_neq a b : a <> b -> pystr_eqb a b = false.
Proof.
  intros H. destruct (pystr_eqb a b) eqn:E; [ | reflexivity ].
  apply pystr_eqb_eq in E. contradiction.
Qed.

Lemma dir_read_write_same d n c : dir_read (dir_write d n c) n = Some c.
Proof.
  induction d as [ | [n' c'] d IH ]; cbn [dir_write dir_read].
  - now rewrite pystr_eqb_refl.
  - destruct (pystr_eqb n' n) eqn:E; cbn [dir_read]; rewrite E; auto.
Qed.

Lemma dir_read_write_other d n c m :
  n <> m -> dir_read (dir_write d n c) m = dir_read d m.
Proof.
  intros Hnm. induction d as [ | [n' c'] d IH ]; cbn [dir_write dir_read].
  - now rewrite pystr_eqb_neq.
  - destruct (pystr_eqb n' n) eqn:E; cbn [dir_read].
    + apply pystr_eqb_eq in E. subst n'. now rewrite pystr_eqb_neq.
    + now rewrite IH.
Qed.

Lemma dir_read_remove_same d n : dir_read (dir_remove d n) n = None.
Proof.
  induction d as [ | [n' c'] d IH ]; [ reflexivity | ].
  unfold dir_remove in *. cbn [filter fst].
  destruct (pystr_eqb n' n) eqn:E; cbn [negb]; [ exact IH | ].
  cbn [dir_read]. now rewrite E.
Qed.

Lemma dir_read_remove_other d n m :
  n <> m -> dir_read (dir_remove d n) m = dir_read d m.
Proof.
  intros Hnm. induction d as [ | [n' c'] d IH ]; [ reflexivity | ].
  unfold dir_remove in *. cbn [filter fst dir_read].
  destruct (pystr_eqb n' n) eqn:E; cbn [negb].
  - apply pystr_eqb_eq in E. subst n'. now rewrite pystr_eqb_neq.
  - cbn [dir_read]. now rewrite IH.
Qed.

(** Removing a file makes no file appear and changes no other file. *)
Lemma dir_read_remove_some d n m c :
  dir_read (dir_remove d n) m = Some c -> dir_read d m = Some c.
Proof.
  destruct (list_eq_dec Z.eq_dec n m) as [ -> | Hnm ].
  - now rewrite dir_read_remove_same.
  - now rewrite dir_read_remove_other.
Qed.

(** ** Publishing the port file *)

Lemma tmp_file_name_differs self : tmp_file_name self <> port_file_name self.
Proof.
  unfold tmp_file_name. intros E.
  apply (f_equal (@length Z)) in E. rewrite length_app in E.
  cbn [py list_ascii_of_string map length] in E. lia.
Qed.

Lemma concat_pieces cuts : forall text, concat (pieces cuts text) = text.
Proof.
  induction cuts as [ | n cuts IH ]; intros text; cbn [pieces concat].
  - apply app_nil_r.
  - rewrite IH. apply firstn_skipn.
Qed.

Lemma fs_trace_snoc ops : forall r op,
  fs_trace r (ops ++ [op]) = fs_trace r ops ++ [apply_op (fs_run r ops) op].
Proof.
  induction ops as [ | o ops IH ]; intros r op; [ reflexivity | ].
  cbn [List.app fs_trace fs_run fold_left]. now rewrite IH.
Qed.

Lemma fs_run_snoc ops r op :
  fs_run r (ops ++ [op]) = apply_op (fs_run r ops) op.
Proof. unfold fs_run. now rewrite fold_left_app. Qed.

(** While the temporary file is being written, the port file is what it
    was and the temporary file holds what was written so far. *)
Lemma appends_leave_port_file tmp final pcs : forall d,
  tmp <> final ->
  Forall (fun st => reg_read st final = dir_read d final)
    (fs_trace (Some d) (map (Append tmp) pcs))
  /\ exists d',
      fs_run (Some d) (map (Append tmp) pcs) = Some d'
      /\ dir_read d' final = dir_read d final
      /\ (forall c, dir_read d tmp = Some c ->
                    dir_read d' tmp = Some (c ++ concat pcs)).
Proof.
  induction pcs as [ | p pcs IH ]; intros d Hne.
  - cbn [map fs_trace fs_run fold_left concat]. split.
    + constructor; [ reflexivity | constructor ].
    + exists d. repeat split. intros c Hc. now rewrite app_nil_r.
  - cbn [map fs_trace fs_run fold_left concat apply_op].
    destruct (dir_read d tmp) as [ c | ] eqn:Et.
    + destruct (IH (dir_write d tmp (c ++ p)) Hne) as (Hall & d' & Er & Hf & Ht).
      rewrite dir_read_write_other in Hall, Hf by assumption.
      split; [ constructor; [ reflexivity | exact Hall ] | ].
      exists d'. split; [ exact Er | split; [ exact Hf | ] ].
      intros c0 Hc0. injection Hc0 as <-.
      rewrite (Ht (c ++ p)) by apply dir_read_write_same.
      now rewrite app_assoc.
    + destruct (IH d Hne) as (Hall & d' & Er & Hf & Ht).
      split; [ constructor; [ reflexivity | exact Hall ] | ].
      exists d'. split; [ exact Er | split; [ exact Hf | ] ].
      intros c0 Hc0. discriminate.
Qed.

(** C8.  [_write_port_file] writes the whole descriptor to the temporary
    file and then renames it over the port file: in every state the
    directory goes through, the port file is what it was before (absent
    or the previous content) or holds the complete new descriptor, which
    is what it holds at the end; and the temporary file is complete
    before the rename.  [cuts] is any way the text reaches the disk in
    pieces. *)
Theorem port_file_replaced_atomically
  (env : host_env) (cuts : list nat) (self : server) (r : registry) :
  Forall (fun st =>
            reg_read st (port_file_name self) = reg_read r (port_file_name self)
            \/ reg_read st (port_file_name self) = Some (descriptor_text env self))
    (fs_trace r (write_port_file_ops env cuts self))
  /\ reg_read (snd (_write_port_file env cuts self r)) (port_file_name self)
     = Some (descriptor_text env self)
  /\ reg_read
       (fs_run r (removelast (write_port_file_ops env cuts self)))
       (tmp_file_name self)
     = Some (descriptor_text env self).
Proof.
  pose proof (tmp_file_name_differs self) as Hne.
  set (tmp := tmp_file_name self) in *. set (final := port_file_name self) in *.
  set (text := descriptor_text env self).
  set (d0 := match r with Some d => d | None => [] end).
  assert (Hr0 : apply_op r Makedirs = Some d0) by (destruct r; reflexivity).
  assert (Hf0 : dir_read d0 final = reg_read r final) by (destruct r; reflexivity).
  destruct (appends_leave_port_file tmp final (pieces cuts text)
              (dir_write d0 tmp []) Hne) as (Hall & d' & Er & Hf & Ht).
  rewrite dir_read_write_other in Hall, Hf by assumption.
  specialize (Ht [] (dir_read_write_same d0 tmp [])).
  rewrite concat_pieces in Ht. cbn [List.app] in Ht.
  assert (Hpre : fs_run r (Makedirs :: OpenWrite tmp
                           :: map (Append tmp) (pieces cuts text)) = Some d').
  { cbn [fs_run fold_left]. rewrite Hr0. cbn [apply_op]. exact Er. }
  assert (Hlast : apply_op (Some d') (Replace tmp final)
                  = Some (dir_write (dir_remove d' tmp) final text)).
  { cbn [apply_op]. now rewrite Ht. }
  unfold _write_port_file, write_port_file_ops. cbn [snd].
  fold tmp final text.
  change (Makedirs :: OpenWrite tmp :: map (Append tmp) (pieces cuts text)
          ++ [Replace tmp final])
    with ((Makedirs :: OpenWrite tmp :: map (Append tmp) (pieces cuts text))
          ++ [Replace tmp final]).
  rewrite fs_trace_snoc, fs_run_snoc, removelast_last, Hpre, Hlast.
  split; [ | split ].
  - apply Forall_app. split.
    + cbn [fs_trace]. rewrite Hr0. cbn [apply_op].
      constructor; [ now left | ].
      constructor; [ left; cbn [reg_read]; exact Hf0 | ].
      eapply Forall_impl; [ | exact Hall ].
      intros st Hst. left. now rewrite Hst.
    + constructor; [ | constructor ].
      right. cbn [reg_read]. apply dir_read_write_same.
  - cbn [reg_read]. apply dir_read_write_same.
  - cbn [reg_read]. exact Ht.
Qed.

(** ** Starting the host *)

(** The cleaning pass removes files and does nothing else to the
    directory. *)
Lemma clean_one_only_removes os acc fname m c :
  dir_read (fst (clean_one os acc fname)) m = Some c ->
  dir_read (fst acc) m = Some c.
Proof.
  destruct acc as [d probed]. unfold clean_one. cbn [fst].
  destruct (negb (is_port_file_name fname)); [ auto | ].
  destruct (dir_read d fname); [ | auto ].
  destruct (decode_json l) as [ [ | | | | | info ] | | ]; auto.
  destruct (truthy (dict_get info (py "pid") PNone)); [ | auto ].
  destruct (fst (_is_pid_alive os (dict_get info (py "pid") PNone)))
    as [ [ | ] | ]; cbn [fst]; auto.
  apply dir_read_remove_some.
Qed.

Lemma clean_fold_only_removes os names : forall acc m c,
  dir_read (fst (fold_left (clean_one os) names acc)) m = Some c ->
  dir_read (fst acc) m = Some c.
Proof.
  induction names as [ | n names IH ]; intros acc m c H; [ exact H | ].
  cbn [fold_left] in H. apply IH in H.
  now apply clean_one_only_removes in H.
Qed.

Lemma clean_stale_only_removes os r m c :
  reg_read (fst (_clean_stale_port_files os r)) m = Some c ->
  reg_read r m = Some c.
Proof.
  destruct r as [ d | ]; cbn [_clean_stale_port_files]; [ | auto ].
  pose proof (clean_fold_only_removes os (map fst d) (d, []) m c) as H.
  destruct (fold_left (clean_one os) (map fst d) (d, [])) as [d' probed].
  exact H.
Qed.

Lemma first_bindable_none env ports :
  Forall (fun p => env_bind_ok env p = false) ports ->
  first_bindable env ports = None.
Proof.
  induction 1 as [ | p ports Hp Hall IH ]; [ reflexivity | ].
  cbn [first_bindable]. now rewrite Hp.
Qed.

Lemma py_range_bounds lo hi p : In p (py_range lo hi) -> lo <= p < hi.
Proof.
  unfold py_range. intros H. apply in_map_iff in H as (i & <- & Hi).
  apply in_seq in Hi. lia.
Qed.

(** C7.  With no explicit port and every port of [9877..9886] taken,
    [start] returns [False]: the server is stopped (not running, no
    socket, no thread), it has no port file of its own, and the registry
    directory holds no file that was not there before with the same
    content (the cleaning pass that precedes the bind can only have
    removed files). *)
Theorem start_fails_when_range_is_taken
  (env : host_env) (os : os_state) (cuts : list nat) (h : pystr)
  (r : registry) :
  (forall p, 9877 <= p <= 9886 -> env_bind_ok env p = false) ->
  let '(ok, self', r') := start env os cuts (new_server h None None) r in
  ok = false
  /\ running self' = false /\ socket self' = None /\ thread self' = false
  /\ port self' = None /\ _port_file_path self' = None
  /\ r' = fst (_clean_stale_port_files os r)
  /\ forall name c, reg_read r' name = Some c -> reg_read r name = Some c.
Proof.
  intros Htaken. unfold start.
  cbn [new_server set_running set_socket port port_range fst snd
       DEFAULT_PORT_RANGE host running socket client buffer thread
       _port_file_path].
  rewrite first_bindable_none.
  - unfold stop, _remove_port_file. cbn.
    repeat split; try reflexivity.
    intros name c. apply clean_stale_only_removes.
  - apply Forall_forall. intros p Hp. apply py_range_bounds in Hp.
    apply Htaken. lia.
Qed.

Lemma start_fails_when_range_is_taken_witness :
  (forall p, 9877 <= p <= 9886 -> env_bind_ok crowded_env p = false)
  /\ let '(ok, self', r') :=
       start crowded_env lonely_posix [] (new_server (py "localhost") None None)
         (Some [pidless_file]) in
     ok = false
     /\ running self' = false /\ socket self' = None /\ thread self' = false
     /\ port self' = None /\ _port_file_path self' = None
     /\ r' = fst (_clean_stale_port_files lonely_posix
                    (Some [pidless_file]))
     /\ forall name c,
         reg_read r' name = Some c ->
         reg_read (Some [pidless_file]) name
         = Some c.
Proof.
  split; [ intros p _; reflexivity | ].
  apply (start_fails_when_range_is_taken crowded_env lonely_posix []
           (py "localhost")
           (Some [pidless_file])).
  intros p _. reflexivity.
Defined.

(** ** Sorting the instances *)



Lemma insert_desc_perm key x : forall l l',
  insert_desc key x l = Some l' -> Permutation (x :: l) l'.
Proof.
  induction l as [ | y l IH ]; intros l' H; cbn [insert_desc] in H.
  - inversion H. apply Permutation_refl.
  - destruct (py_lt (key x) (key y)) as [ [ | ] | ]; try discriminate.
    + destruct (insert_desc key x l) as [ l0 | ]; [ | discriminate ].
      inversion H; subst. eapply Permutation_trans; [ apply perm_swap | ].
      apply perm_skip. now apply IH.
    + inversion H. apply Permutation_refl.
Qed.

Lemma sort_desc_perm key : forall l l',
  sort_desc key l = Some l' -> Permutation l l'.
Proof.
  induction l as [ | x l IH ]; intros l' H; cbn [sort_desc] in H.
  - inversion H. constructor.
  - destruct (sort_desc key l) as [ s | ]; [ | discriminate ].
    eapply Permutation_trans; [ apply perm_skip, IH; reflexivity | ].
    exact (insert_desc_perm key x s l' H).
Qed.



Lemma insert_desc_strings x : forall l,
  has_string_key x -> Forall has_string_key l ->
  exists l', insert_desc started_at_key x l = Some l'.
Proof.
  intros l [sx Hx]. induction 1 as [ | y l [sy Hy] Hl IH ]; cbn [insert_desc].
  - eexists; reflexivity.
  - rewrite Hx, Hy. cbn [py_lt]. destruct (str_ltb sx sy); [ | eexists; reflexivity ].
    destruct IH as [ l' -> ]. eexists; reflexivity.
Qed.

Lemma sort_desc_strings l :
  Forall has_string_key l -> exists l', sort_desc started_at_key l = Some l'.
Proof.
  induction 1 as [ | x l Hx Hl IH ]; cbn [sort_desc]; [ eexists; reflexivity | ].
  destruct IH as [ s Es ]. rewrite Es.
  apply insert_desc_strings; [ exact Hx | ].
  eapply Permutation_Forall; [ apply (sort_desc_perm _ _ _ Es) | exact Hl ].
Qed.

(** ** Scanning the registry directory *)

Lemma dir_read_app_notin a b n :
  ~ In n (map fst a) -> dir_read (a ++ b) n = dir_read b n.
Proof.
  induction a as [ | [m c] a IH ]; intros Hn; [ reflexivity | ].
  cbn [List.app dir_read]. cbn [map fst In] in Hn.
  rewrite pystr_eqb_neq by tauto. apply IH. tauto.
Qed.

Lemma dir_remove_notin a n : ~ In n (map fst a) -> dir_remove a n = a.
Proof.
  induction a as [ | [m c] a IH ]; intros Hn; [ reflexivity | ].
  unfold dir_remove in *. cbn [filter fst]. cbn [map fst In] in Hn.
  rewrite pystr_eqb_neq by tauto. cbn [negb]. f_equal. apply IH. tauto.
Qed.

Lemma dir_remove_app a b n : dir_remove (a ++ b) n = dir_remove a n ++ dir_remove b n.
Proof. unfold dir_remove. apply filter_app. Qed.

Lemma without_stale_names os d n :
  In n (map fst (without_stale os d)) -> In n (map fst d).
Proof.
  unfold without_stale. intros H. apply in_map_iff in H as ([m c] & <- & Hin).
  apply filter_In in Hin as [Hin _]. apply in_map_iff. now exists (m, c).
Qed.

Lemma live_descriptors_snoc os d f :
  live_descriptors os (d ++ [f])
  = live_descriptors os d
    ++ match descriptor_of f with
       | Some info => if is_live os info then [PDict info] else []
       | None => []
       end.
Proof. unfold live_descriptors. rewrite flat_map_app. cbn. now rewrite app_nil_r. Qed.

Lemma probed_pids_snoc os d f :
  probed_pids os (d ++ [f])
  = probed_pids os d
    ++ match descriptor_of f with
       | Some info => if truthy (pid_of info) then [pid_of info] else []
       | None => []
       end.
Proof. unfold probed_pids. rewrite flat_map_app. cbn. now rewrite app_nil_r. Qed.

Lemma without_stale_snoc os d f :
  without_stale os (d ++ [f])
  = without_stale os d ++ (if stale_file os f then [] else [f]).
Proof.
  unfold without_stale. rewrite filter_app. cbn [filter].
  now destruct (stale_file os f).
Qed.

(** One turn of the client's scan, on a file that is still where the
    listing saw it. *)
Lemma discover_one_step os instances pre post probed n c :
  ~ In n (map fst pre) -> ~ In n (map fst post) ->
  discover_one os (instances, pre ++ (n, c) :: post, probed) n
  = (instances
     ++ match descriptor_of (n, c) with
        | Some info => if is_live os info then [PDict info] else []
        | None => []
        end,
     pre ++ (if stale_file os (n, c) then [] else [(n, c)]) ++ post,
     probed
     ++ match descriptor_of (n, c) with
        | Some info => if truthy (pid_of info) then [pid_of info] else []
        | None => []
        end).
Proof.
  intros Hpre Hpost.
  unfold discover_one, stale_file, descriptor_of, is_live, is_stale, pid_of.
  cbn [fst snd].
  destruct (is_port_file_name n); cbn [negb];
    [ | now rewrite !app_nil_r ].
  rewrite dir_read_app_notin by assumption. cbn [dir_read].
  rewrite pystr_eqb_refl.
  destruct (decode_json c) as [ [ | | | | | info ] | | ];
    try now rewrite !app_nil_r.
  destruct (truthy (dict_get info (py "pid") PNone)); cbn [andb];
    [ | now rewrite app_nil_r ].
  destruct (fst (_is_pid_alive os (dict_get info (py "pid") PNone)))
    as [ [ | ] | ]; try now rewrite ?app_nil_r.
  rewrite app_nil_r. do 2 f_equal.
  rewrite dir_remove_app, dir_remove_notin by assumption.
  f_equal. unfold dir_remove. cbn [filter fst]. rewrite pystr_eqb_refl.
  cbn [negb]. now apply dir_remove_notin.
Qed.

Lemma clean_one_step os pre post probed n c :
  ~ In n (map fst pre) -> ~ In n (map fst post) ->
  clean_one os (pre ++ (n, c) :: post, probed) n
  = (pre ++ (if stale_file os (n, c) then [] else [(n, c)]) ++ post,
     probed
     ++ match descriptor_of (n, c) with
        | Some info => if truthy (pid_of info) then [pid_of info] else []
        | None => []
        end).
Proof.
  intros Hpre Hpost.
  unfold clean_one, stale_file, descriptor_of, is_stale, pid_of.
  cbn [fst snd].
  destruct (is_port_file_name n); cbn [negb];
    [ | now rewrite !app_nil_r ].
  rewrite dir_read_app_notin by assumption. cbn [dir_read].
  rewrite pystr_eqb_refl.
  destruct (decode_json c) as [ [ | | | | | info ] | | ];
    try now rewrite !app_nil_r.
  destruct (truthy (dict_get info (py "pid") PNone)); cbn [andb];
    [ | now rewrite app_nil_r ].
  destruct (fst (_is_pid_alive os (dict_get info (py "pid") PNone)))
    as [ [ | ] | ]; try reflexivity.
  f_equal.
  rewrite dir_remove_app, dir_remove_notin by assumption.
  f_equal. unfold dir_remove. cbn [filter fst]. rewrite pystr_eqb_refl.
  cbn [negb]. now apply dir_remove_notin.
Qed.

Lemma NoDup_app_cons_notin {A} (a : list A) x b :
  NoDup (a ++ x :: b) -> ~ In x a /\ ~ In x b.
Proof.
  intros H. apply NoDup_remove_2 in H. split; intros Hin; apply H;
    apply in_or_app; auto.
Qed.

Lemma discover_fold os : forall post pre,
  NoDup (map fst (pre ++ post)) ->
  fold_left (discover_one os) (map fst post)
    (live_descriptors os pre, without_stale os pre ++ post, probed_pids os pre)
  = (live_descriptors os (pre ++ post), without_stale os (pre ++ post),
     probed_pids os (pre ++ post)).
Proof.
  induction post as [ | [n c] post IH ]; intros pre Hnd.
  - now rewrite !app_nil_r.
  - cbn [map fst fold_left].
    rewrite map_app in Hnd. cbn [map fst] in Hnd.
    destruct (NoDup_app_cons_notin _ _ _ Hnd) as [Hpre Hpost].
    rewrite discover_one_step;
      [ | intros Hin; apply Hpre; now apply (without_stale_names os) | exact Hpost ].
    rewrite <- live_descriptors_snoc, <- probed_pids_snoc.
    rewrite app_assoc, <- without_stale_snoc.
    replace (pre ++ (n, c) :: post) with ((pre ++ [(n, c)]) ++ post)
      by now rewrite <- app_assoc.
    apply IH. rewrite <- app_assoc. cbn [List.app].
    rewrite map_app. exact Hnd.
Qed.

Lemma clean_fold os : forall post pre,
  NoDup (map fst (pre ++ post)) ->
  fold_left (clean_one os) (map fst post)
    (without_stale os pre ++ post, probed_pids os pre)
  = (without_stale os (pre ++ post), probed_pids os (pre ++ post)).
Proof.
  induction post as [ | [n c] post IH ]; intros pre Hnd.
  - now rewrite !app_nil_r.
  - cbn [map fst fold_left].
    rewrite map_app in Hnd. cbn [map fst] in Hnd.
    destruct (NoDup_app_cons_notin _ _ _ Hnd) as [Hpre Hpost].
    rewrite clean_one_step;
      [ | intros Hin; apply Hpre; now apply (without_stale_names os) | exact Hpost ].
    rewrite <- probed_pids_snoc.
    rewrite app_assoc, <- without_stale_snoc.
    replace (pre ++ (n, c) :: post) with ((pre ++ [(n, c)]) ++ post)
      by now rewrite <- app_assoc.
    apply IH. rewrite <- app_assoc. cbn [List.app].
    rewrite map_app. exact Hnd.
Qed.

(** What the host's cleaning pass does to a directory. *)
Lemma clean_stale_scan os d :
  NoDup (map fst d) ->
  _clean_stale_port_files os (Some d)
  = (Some (without_stale os d), probed_pids os d).
Proof.
  intros Hnd. unfold _clean_stale_port_files.
  pose proof (clean_fold os d [] Hnd) as H.
  change (without_stale os [] ++ d) with d in H.
  change (probed_pids os []) with (@nil value) in H.
  change ([] ++ d) with d in H. now rewrite H.
Qed.

(** What the client's scan collects, before the sort. *)
Lemma discover_scan os d :
  NoDup (map fst d) ->
  fold_left (discover_one os) (map fst d) ([], d, [])
  = (live_descriptors os d, without_stale os d, probed_pids os d).
Proof. intros Hnd. exact (discover_fold os d [] Hnd). Qed.

Lemma dir_read_in d : forall n c,
  NoDup (map fst d) -> In (n, c) d -> dir_read d n = Some c.
Proof.
  induction d as [ | [m c'] d IH ]; intros n c Hnd Hin; [ contradiction | ].
  cbn [map fst] in Hnd. inversion Hnd as [ | ? ? Hm Hnd' ]; subst.
  cbn [dir_read]. destruct Hin as [ E | Hin ].
  - inversion E; subst. now rewrite pystr_eqb_refl.
  - rewrite pystr_eqb_neq; [ now apply IH | ].
    intros ->. apply Hm. apply in_map_iff. now exists (n, c).
Qed.

Lemma without_stale_NoDup os d :
  NoDup (map fst d) -> NoDup (map fst (without_stale os d)).
Proof.
  induction d as [ | [n c] d IH ]; intros Hnd; [ constructor | ].
  cbn [map fst] in Hnd. inversion Hnd as [ | ? ? Hn Hnd' ]; subst.
  unfold without_stale in *. cbn [filter].
  destruct (negb (stale_file os (n, c))); [ | now apply IH ].
  cbn [map fst]. constructor; [ | now apply IH ].
  intros Hin. apply Hn. now apply (without_stale_names os).
Qed.

(** The descriptors the amended C5 speaks of, spelled out. *)
Lemma live_descriptors_spec os d x :
  In x (live_descriptors os d)
  <-> exists f info, In f d /\ descriptor_of f = Some info
                     /\ is_live os info = true /\ x = PDict info.
Proof.
  unfold live_descriptors. rewrite in_flat_map. split.
  - intros (f & Hf & Hx). exists f.
    destruct (descriptor_of f) as [ info | ]; [ | contradiction ].
    destruct (is_live os info) eqn:El; [ | contradiction ].
    destruct Hx as [ <- | [] ]. now exists info.
  - intros (f & info & Hf & Hd & Hl & ->). exists f. split; [ exact Hf | ].
    rewrite Hd, Hl. now left.
Qed.

Lemma without_stale_spec os d f :
  In f (without_stale os d) <-> In f d /\ stale_file os f = false.
Proof.
  unfold without_stale. rewrite filter_In. now rewrite negb_true_iff.
Qed.




(** C10.  A port file whose descriptor has no pid, or a falsy one, is
    treated as live by both scans: its pid is not among those probed, the
    file is still there afterwards with its content, and every list the
    client's discovery returns contains the descriptor; discovery does
    return a list when the [started_at] of the live descriptors are
    strings. *)
Theorem falsy_pid_is_treated_as_live
  (os : os_state) (d : directory) (fname : pystr) (content : bytes)
  (info : list (pystr * value)) :
  NoDup (map fst d) -> In (fname, content) d ->
  is_port_file_name fname = true ->
  decode_json content = DecOk (PDict info) ->
  truthy (dict_get info (py "pid") PNone) = false ->
  (let '(r', probed) := _clean_stale_port_files os (Some d) in
   reg_read r' fname = Some content
   /\ ~ In (dict_get info (py "pid") PNone) probed)
  /\ (let '(found, r', probed) := _discover_instances os (Some d) in
      reg_read r' fname = Some content
      /\ ~ In (dict_get info (py "pid") PNone) probed
      /\ (forall l, found = Return l -> In (PDict info) l)
      /\ (Forall has_string_key (live_descriptors os d) ->
          exists l, found = Return l)).
Proof.
  intros Hnd Hin Hname Hdec Hpid.
  assert (Hdesc : descriptor_of (fname, content) = Some info)
    by (unfold descriptor_of; cbn [fst snd]; now rewrite Hname, Hdec).
  assert (Hkept : dir_read (without_stale os d) fname = Some content).
  { apply dir_read_in; [ now apply without_stale_NoDup | ].
    apply without_stale_spec. split; [ exact Hin | ].
    unfold stale_file, is_stale, pid_of. now rewrite Hdesc, Hpid. }
  assert (Hprobed : ~ In (dict_get info (py "pid") PNone) (probed_pids os d)).
  { unfold probed_pids. rewrite in_flat_map. intros (f & _ & Hf).
    destruct (descriptor_of f) as [ info' | ]; [ | contradiction ].
    unfold pid_of in Hf.
    destruct (truthy (dict_get info' (py "pid") PNone)) eqn:Et; [ | contradiction ].
    destruct Hf as [ E | [] ]. rewrite E in Et. congruence. }
  assert (Hlive : In (PDict info) (live_descriptors os d)).
  { apply live_descriptors_spec. exists (fname, content), info.
    repeat split; try assumption. unfold is_live, pid_of. now rewrite Hpid. }
  split.
  - rewrite (clean_stale_scan os d Hnd). split; assumption.
  - unfold _discover_instances. rewrite (discover_scan os d Hnd).
    destruct (sort_desc started_at_key (live_descriptors os d)) as [ l | ] eqn:El.
    + repeat split; try assumption.
      * intros l' E. inversion E; subst l'.
        eapply Permutation_in; [ apply (sort_desc_perm _ _ _ El) | exact Hlive ].
      * intros _. now exists l.
    + repeat split; try assumption.
      * intros l' E. discriminate.
      * intros Hkeys. destruct (sort_desc_strings _ Hkeys) as [ l El' ]. congruence.
Qed.

Lemma falsy_pid_is_treated_as_live_witness :
  (let '(r', probed) := _clean_stale_port_files lonely_posix (Some [pid_zero_file]) in
   reg_read r' (fst pid_zero_file) = Some (snd pid_zero_file)
   /\ ~ In (PInt 0) probed)
  /\ (let '(found, r', probed) :=
        _discover_instances lonely_posix (Some [pid_zero_file]) in
      reg_read r' (fst pid_zero_file) = Some (snd pid_zero_file)
      /\ ~ In (PInt 0) probed
      /\ (forall l, found = Return l
                    -> In (PDict [(py "port", PInt 9877); (py "pid", PInt 0)]) l)
      /\ (Forall has_string_key (live_descriptors lonely_posix [pid_zero_file]) ->
          exists l, found = Return l)).
Proof.
  apply (falsy_pid_is_treated_as_live lonely_posix [pid_zero_file]
           (fst pid_zero_file) (snd pid_zero_file)
           [(py "port", PInt 9877); (py "pid", PInt 0)]).
  - repeat constructor. intros [].
  - now left.
  - reflexivity.
  - reflexivity.
  - reflexivity.
Defined.

(** ** Target resolution *)






(** * Further properties of the host *)

(** ** Dispatch *)

(** X1.  Whatever value was decoded, [execute_command] answers with an
    envelope whose status is ["success"] or ["error"]; and unless the
    value is a dictionary whose type names a handler, the answer is an
    error envelope, no handler is called and the application is left as
    it was.  This covers a request that is no object, one without a type,
    and a type that is no string. *)
Theorem execute_command_always_answers
  {App} (H : handlers App) (app : App) (command : value) :
  ((exists res, fst (fst (execute_command H app command)) = success_envelope res)
   \/ (exists msg, fst (fst (execute_command H app command)) = error_envelope msg))
  /\ (reaches_handler command = false ->
      (exists msg, fst (fst (execute_command H app command)) = error_envelope msg)
      /\ snd (fst (execute_command H app command)) = app
      /\ snd (execute_command H app command) = []).
Proof.
  unfold execute_command, reaches_handler.
  destruct command as [ | b | z | s | l | d ];
    try (split; [ right; eexists; reflexivity
                | intros _; repeat split; eexists; reflexivity ]).
  destruct (dict_get d (py "type") PNone) as [ | b | z | name | l | d' ];
    try (split; [ right; eexists; reflexivity
                | intros _; repeat split; eexists; reflexivity ]).
  destruct (is_handler name).
  - split; [ | discriminate ].
    destruct (run_handler H name (dict_get d (py "params") (PDict [])) app)
      as [ [ res | msg ] app' ]; [ left | right ]; eexists; reflexivity.
  - split; [ right; eexists; reflexivity
           | intros _; repeat split; eexists; reflexivity ].
Qed.

Lemma execute_command_always_answers_witness :
  reaches_handler (PList [PInt 1]) = false
  /\ ((exists msg, fst (fst (execute_command idle_handlers tt (PList [PInt 1])))
                   = error_envelope msg)
      /\ snd (fst (execute_command idle_handlers tt (PList [PInt 1]))) = tt
      /\ snd (execute_command idle_handlers tt (PList [PInt 1])) = []).
Proof.
  split; [ reflexivity | ].
  apply (execute_command_always_answers idle_handlers tt (PList [PInt 1])).
  reflexivity.
Defined.

(** ** The serving loop *)

Lemma run_turn_quiet {App} (H : handlers App) st t :
  quiet t = true -> run_turn H st t = (fst st, snd st, []).
Proof.
  intros Hq. destruct st as [self app]. unfold run_turn, quiet in *. cbn [fst snd].
  destruct (running self); cbn [negb]; [ | reflexivity ].
  destruct (turn_recv t) eqn:Er; try discriminate.
  destruct (client self) as [ c | ].
  - unfold serve_client. now rewrite Er.
  - destruct (turn_accept t); [ discriminate | reflexivity | reflexivity ].
Qed.

(** X2.  Turns in which [recv] times out (and no client connects) change
    nothing: the bytes buffered so far stay, and a run with such turns
    anywhere in it ends in the same state with the same events as the run
    without them. *)
Theorem quiet_turns_change_nothing
  {App} (H : handlers App) (ts : list turn) :
  forall st,
    run_server H st ts = run_server H st (filter (fun t => negb (quiet t)) ts).
Proof.
  induction ts as [ | t ts IH ]; intros st; [ reflexivity | ].
  cbn [filter]. destruct (quiet t) eqn:Eq; cbn [negb].
  - cbn [run_server]. rewrite (run_turn_quiet H st t Eq).
    destruct st as [self app]. cbn [fst snd].
    rewrite <- IH.
    now destruct (run_server H (self, app) ts) as [ [self' app'] evs' ].
  - cbn [run_server]. destruct (run_turn H st t) as [ [self1 app1] evs1 ].
    now rewrite IH.
Qed.


Lemma clients_in_called calls tl :
  clients_in (map (fun k : pystr * value => Called (fst k) (snd k)) calls ++ tl)
  = clients_in tl.
Proof. induction calls as [ | k calls IH ]; [ reflexivity | exact IH ]. Qed.

Lemma closed_in_called calls tl :
  closed_in (map (fun k : pystr * value => Called (fst k) (snd k)) calls ++ tl)
  = closed_in tl.
Proof. induction calls as [ | k calls IH ]; [ reflexivity | exact IH ]. Qed.

Lemma closed_in_app a b : closed_in (a ++ b) = closed_in a ++ closed_in b.
Proof. apply flat_map_app. Qed.

Lemma clients_in_app a b : clients_in (a ++ b) = clients_in a ++ clients_in b.
Proof. apply flat_map_app. Qed.

(** What a turn can do to the client held: keep it or drop it. *)
Lemma serve_client_keeps_or_closes {App} (H : handlers App) self app c t :
  client self = Some c ->
  let '(self', _, evs) := serve_client H self app c t in
  Forall (fun x => x = c) (clients_in evs)
  /\ ((client self' = Some c /\ closed_in evs = [])
      \/ (client self' = None /\ buffer self' = [] /\ closed_in evs = [c])).
Proof.
  intros Hc. unfold serve_client.
  destruct (turn_recv t) as [ [ | x d ] | | ].
  - cbn. split; [ repeat constructor | right; auto ].
  - cbn [buffer set_buffer].
    destruct (decode_json (buffer self ++ x :: d)) as [ command | | ].
    + destruct (execute_command H app command) as [ [response app'] calls ].
      rewrite encode_json_dumps.
      assert (Hcalls : forall tl,
                 clients_in (Dispatched c command
                             :: map (fun k : pystr * value => Called (fst k) (snd k)) calls
                             ++ tl) = c :: clients_in tl)
        by (intros tl; cbn [clients_in flat_map List.app]; f_equal;
            apply clients_in_called).
      assert (Hclosed : forall tl,
                 closed_in (Dispatched c command
                            :: map (fun k : pystr * value => Called (fst k) (snd k)) calls
                            ++ tl) = closed_in tl)
        by (intros tl; cbn [closed_in flat_map List.app]; apply closed_in_called).
      destruct (turn_send_ok t); rewrite <- !app_comm_cons.
      * rewrite Hcalls, Hclosed. cbn. split; [ repeat constructor | left; auto ].
      * rewrite Hcalls, Hclosed. cbn. split; [ repeat constructor | right; auto ].
    + cbn. split; [ constructor | left; auto ].
    + cbn. split; [ repeat constructor | right; auto ].
  - cbn. split; [ constructor | left; auto ].
  - cbn. split; [ repeat constructor | right; auto ].
Qed.

(** X3.  One client at a time: while the host holds client [c] and has
    not closed it, whatever [accept] would offer is not looked at; every
    message dispatched and every reply sent in the run is for [c], and
    [c] is still the client at the end. *)
Theorem held_client_is_the_only_one_served
  {App} (H : handlers App) (ts : list turn) :
  forall self app c,
    client self = Some c ->
    let '(self', _, evs) := run_server H (self, app) ts in
    closed_in evs = [] ->
    client self' = Some c /\ Forall (fun x => x = c) (clients_in evs).
Proof.
  induction ts as [ | t ts IH ]; intros self app c Hc.
  - cbn. intros _. split; [ exact Hc | constructor ].
  - cbn [run_server]. unfold run_turn.
    destruct (running self) eqn:Er; cbn [negb].
    + rewrite Hc.
      pose proof (serve_client_keeps_or_closes H self app c t Hc) as Hs.
      destruct (serve_client H self app c t) as [ [self1 app1] evs1 ].
      destruct Hs as [Hall [ [Hc1 Hcl1] | (Hc1 & _ & Hcl1) ] ].
      * specialize (IH self1 app1 c Hc1).
        destruct (run_server H (self1, app1) ts) as [ [self2 app2] evs2 ].
        cbv beta iota in IH |- *.
        rewrite closed_in_app, clients_in_app, Hcl1. intros Hcl2.
        destruct (IH Hcl2) as [Hc2 Hall2]. split; [ exact Hc2 | ].
        apply Forall_app. split; assumption.
      * destruct (run_server H (self1, app1) ts) as [ [self2 app2] evs2 ].
        cbv beta iota. rewrite closed_in_app, Hcl1. discriminate.
    + specialize (IH self app c Hc).
      destruct (run_server H (self, app) ts) as [ [self2 app2] evs2 ].
      exact IH.
Qed.

Lemma held_client_is_the_only_one_served_witness :
  client (serving 7) = Some 7
  /\ let '(self', _, evs) :=
       run_server idle_handlers (serving 7, tt)
         [arrival_of 8 (dumps (PDict scene_info))] in
     closed_in evs = [] ->
     client self' = Some 7 /\ Forall (fun x => x = 7) (clients_in evs).
Proof.
  split; [ reflexivity | ].
  apply (held_client_is_the_only_one_served idle_handlers
           [arrival_of 8 (dumps (PDict scene_info))] (serving 7) tt 7).
  reflexivity.
Defined.















(** * Further properties of the registry on the host side *)



Lemma dir_read_some_in d n c : dir_read d n = Some c -> In (n, c) d.
Proof.
  induction d as [ | [m c'] d IH ]; cbn [dir_read]; [ discriminate | ].
  destruct (pystr_eqb m n) eqn:E.
  - apply pystr_eqb_eq in E. subst m. intros H; inversion H. now left.
  - intros H. right. now apply IH.
Qed.

(** What [_write_port_file] leaves in the directory: the port file with
    the whole descriptor, no temporary file, and every other file as it
    was. *)
Lemma write_port_file_result env cuts self r :
  exists d',
    fs_run r (write_port_file_ops env cuts self) = Some d'
    /\ dir_read d' (port_file_name self) = Some (descriptor_text env self)
    /\ dir_read d' (tmp_file_name self) = None
    /\ forall name, name <> port_file_name self -> name <> tmp_file_name self ->
                    dir_read d' name = reg_read r name.
Proof.
  pose proof (tmp_file_name_differs self) as Hne.
  set (tmp := tmp_file_name self) in *. set (final := port_file_name self) in *.
  set (text := descriptor_text env self).
  set (d0 := match r with Some d => d | None => [] end).
  assert (Hr0 : apply_op r Makedirs = Some d0) by (destruct r; reflexivity).
  assert (Hf0 : forall name, dir_read d0 name = reg_read r name)
    by (destruct r; reflexivity).
  assert (Hmid : exists d1,
             fs_run (Some (dir_write d0 tmp [])) (map (Append tmp) (pieces cuts text))
             = Some d1
             /\ dir_read d1 tmp = Some text
             /\ forall name, name <> tmp -> dir_read d1 name = dir_read d0 name).
  { destruct (appends_leave_port_file tmp final (pieces cuts text)
                (dir_write d0 tmp []) Hne) as (_ & d1 & Er & _ & Ht).
    exists d1. split; [ exact Er | ]. split.
    - specialize (Ht [] (dir_read_write_same d0 tmp [])).
      now rewrite concat_pieces in Ht.
    - intros name Hname.
      destruct (appends_leave_port_file tmp name (pieces cuts text)
                  (dir_write d0 tmp []) (not_eq_sym Hname)) as (_ & d2 & Er2 & Hf2 & _).
      rewrite Er in Er2. inversion Er2; subst d2.
      now rewrite Hf2, dir_read_write_other by congruence. }
  destruct Hmid as (d1 & Er & Ht & Hother).
  exists (dir_write (dir_remove d1 tmp) final text).
  unfold write_port_file_ops. fold tmp final text.
  change (Makedirs :: OpenWrite tmp :: map (Append tmp) (pieces cuts text)
          ++ [Replace tmp final])
    with ((Makedirs :: OpenWrite tmp :: map (Append tmp) (pieces cuts text))
          ++ [Replace tmp final]).
  rewrite fs_run_snoc. cbn [fs_run fold_left]. rewrite Hr0. cbn [apply_op].
  unfold fs_run in Er. rewrite Er. cbn [apply_op]. rewrite Ht.
  split; [ reflexivity | ]. split; [ apply dir_read_write_same | ]. split.
  - rewrite dir_read_write_other by congruence. apply dir_read_remove_same.
  - intros name Hn1 Hn2.
    rewrite dir_read_write_other by congruence.
    rewrite dir_read_remove_other by congruence.
    rewrite Hother by assumption. apply Hf0.
Qed.



(** X10.  [stop] after a [start] that succeeded withdraws the host: the
    server is not running and has no socket, no client and no thread;
    its port file is gone from the directory and no temporary file is
    left; every other file is as the cleaning pass of [start] left it;
    and a second [stop] changes nothing. *)
Theorem stop_withdraws_the_port_file
  (env : host_env) (os : os_state) (cuts : list nat) (self : server)
  (r : registry) (self1 : server) (r1 : registry) :
  start env os cuts self r = (true, self1, r1) ->
  let '(self2, r2) := stop self1 r1 in
  running self2 = false /\ socket self2 = None /\ client self2 = None
  /\ thread self2 = false /\ _port_file_path self2 = None
  /\ reg_read r2 (port_file_name self1) = None
  /\ reg_read r2 (tmp_file_name self1) = None
  /\ (forall name,
        name <> port_file_name self1 -> name <> tmp_file_name self1 ->
        reg_read r2 name = reg_read (fst (_clean_stale_port_files os r)) name)
  /\ stop self2 r2 = (self2, r2).
Proof.
  unfold start.
  set (r0 := fst (_clean_stale_port_files os r)).
  set (self0 := set_socket (set_running self true) (Some 0)).
  match goal with
  | |- match ?b with Some _ => _ | None => _ end = _ -> _ =>
      destruct b as [ bound | ] eqn:Eb
  end.
  2:{ destruct (stop self0 r0) as [s2 r2]. discriminate. }
  unfold _write_port_file.
  destruct (write_port_file_result env cuts bound r0)
    as (d' & Er & Hfinal & Htmp & Hother).
  rewrite Er. intros H. inversion H; subst self1 r1. clear H.
  assert (Ename : port_file_name
                    (set_thread (set_port_file_path bound
                                   (Some (port_file_name bound))) true)
                  = port_file_name bound) by reflexivity.
  assert (Etmp : tmp_file_name
                   (set_thread (set_port_file_path bound
                                  (Some (port_file_name bound))) true)
                 = tmp_file_name bound) by reflexivity.
  rewrite Ename, Etmp.
  unfold stop, _remove_port_file.
  cbn [set_thread set_port_file_path _port_file_path apply_op
       set_running set_socket set_client running socket client thread
       reg_read host port port_range buffer].
  pose proof (tmp_file_name_differs bound) as Hne.
  repeat split.
  - apply dir_read_remove_same.
  - rewrite dir_read_remove_other by congruence. exact Htmp.
  - intros name Hn1 Hn2.
    rewrite dir_read_remove_other by congruence. now apply Hother.
Qed.

Lemma stop_withdraws_the_port_file_witness :
  let started :=
    start two_taken_env lonely_posix [10%nat]
      (new_server (py "localhost") None None) (Some [pidless_file]) in
  fst (fst started) = true
  /\ let '(self2, r2) := stop (snd (fst started)) (snd started) in
     running self2 = false /\ socket self2 = None /\ client self2 = None
     /\ thread self2 = false /\ _port_file_path self2 = None
     /\ reg_read r2 (port_file_name (snd (fst started))) = None
     /\ reg_read r2 (tmp_file_name (snd (fst started))) = None
     /\ (forall name,
           name <> port_file_name (snd (fst started)) ->
           name <> tmp_file_name (snd (fst started)) ->
           reg_read r2 name
           = reg_read (fst (_clean_stale_port_files lonely_posix
                              (Some [pidless_file]))) name)
     /\ stop self2 r2 = (self2, r2).
Proof.
  split; [ reflexivity | ].
  apply (stop_withdraws_the_port_file two_taken_env lonely_posix [10%nat]
           (new_server (py "localhost") None None) (Some [pidless_file])).
  reflexivity.
Defined.
(** ** What a scan can see of a port file being written *)

Lemma port_file_name_is_scanned self :
  is_port_file_name (port_file_name self) = true.
Proof.
  unfold is_port_file_name, port_file_name, endswith.
  rewrite !rev_app_distr. reflexivity.
Qed.

Lemma tmp_file_name_is_not_scanned self :
  is_port_file_name (tmp_file_name self) = false.
Proof.
  unfold is_port_file_name, tmp_file_name, endswith.
  rewrite !rev_app_distr. apply andb_false_r.
Qed.

(** X11.  Both scans take a file by its name, [houdini_*.json]; the
    temporary file [_write_port_file] fills is not such a file and the
    port file is.  So in every state the directory goes through while a
    host publishes itself, each file a scan would open is either what it
    was before the host began or the host's own port file holding the
    complete descriptor: no scan reads a descriptor that is half
    written. *)
Theorem scan_never_opens_a_partial_descriptor
  (env : host_env) (cuts : list nat) (self : server) (r : registry) :
  is_port_file_name (tmp_file_name self) = false
  /\ is_port_file_name (port_file_name self) = true
  /\ Forall (fun st =>
               forall name, is_port_file_name name = true ->
                 reg_read st name = reg_read r name
                 \/ (name = port_file_name self
                     /\ reg_read st name = Some (descriptor_text env self)))
       (fs_trace r (write_port_file_ops env cuts self)).
Proof.
  split; [ apply tmp_file_name_is_not_scanned | ].
  split; [ apply port_file_name_is_scanned | ].
  set (tmp := tmp_file_name self). set (final := port_file_name self).
  set (text := descriptor_text env self).
  set (d0 := match r with Some d => d | None => [] end).
  assert (Hr0 : apply_op r Makedirs = Some d0) by (destruct r; reflexivity).
  assert (Hf0 : forall name, is_port_file_name name = true ->
                  dir_read d0 name = reg_read r name).
  { intros name _. destruct r; reflexivity. }
  assert (Htmp : forall name, is_port_file_name name = true -> tmp <> name).
  { intros name Hname E. subst name. unfold tmp in Hname.
    rewrite tmp_file_name_is_not_scanned in Hname. discriminate. }
  apply Forall_forall. intros st Hst name Hname.
  specialize (Htmp name Hname).
  destruct (appends_leave_port_file tmp name (pieces cuts text)
              (dir_write d0 tmp []) Htmp) as (Hall & d' & Er & Hf & Ht).
  rewrite dir_read_write_other in Hall, Hf by assumption.
  specialize (Ht [] (dir_read_write_same d0 tmp [])).
  rewrite concat_pieces in Ht. cbn [List.app] in Ht.
  unfold write_port_file_ops in Hst. fold tmp final text in Hst.
  change (Makedirs :: OpenWrite tmp :: map (Append tmp) (pieces cuts text)
          ++ [Replace tmp final])
    with ((Makedirs :: OpenWrite tmp :: map (Append tmp) (pieces cuts text))
          ++ [Replace tmp final]) in Hst.
  rewrite fs_trace_snoc in Hst. apply in_app_or in Hst as [ Hst | Hst ].
  - left. cbn [fs_trace] in Hst. rewrite Hr0 in Hst. cbn [apply_op] in Hst.
    destruct Hst as [ <- | [ <- | Hst ] ]; [ reflexivity | now apply Hf0 | ].
    rewrite Forall_forall in Hall. rewrite (Hall st Hst). now apply Hf0.
  - destruct Hst as [ <- | [] ].
    cbn [fs_run fold_left]. rewrite Hr0. cbn [apply_op].
    unfold fs_run in Er. rewrite Er. cbn [apply_op]. rewrite Ht.
    cbn [reg_read].
    destruct (list_eq_dec Z.eq_dec name final) as [ -> | Hne ].
    + right. split; [ reflexivity | apply dir_read_write_same ].
    + left. rewrite dir_read_write_other by congruence.
      rewrite dir_read_remove_other by congruence.
      rewrite Hf. now apply Hf0.
Qed.
(** * Further properties of the registry: from the host to the client *)

(** ** Reading back an indented document *)

Lemma dumps_indent_list_cons k x l :
  dumps_indent k (PList (x :: l))
  = 91 :: newline_indent (S k) ++ dumps_indent (S k) x
    ++ indent_items (S k) l ++ newline_indent k ++ [93].
Proof.
  cbn [dumps_indent]. f_equal. f_equal. f_equal.
  match goal with
  | |- ?f l ++ _ = _ => assert (E : forall l', f l' = indent_items (S k) l')
  end.
  { induction l' as [ | y l' IH ]; [ reflexivity | ].
    cbn [indent_items flat_map]. rewrite IH.
    rewrite <- app_comm_cons. now rewrite <- !app_assoc. }
  now rewrite E.
Qed.

Lemma dumps_indent_dict_cons k key x d :
  dumps_indent k (PDict ((key, x) :: d))
  = 123 :: newline_indent (S k) ++ dumps_str key ++ 58 :: 32 ::
    dumps_indent (S k) x ++ indent_members (S k) d ++ newline_indent k ++ [125].
Proof.
  cbn [dumps_indent]. f_equal. f_equal. f_equal. f_equal. f_equal. f_equal.
  match goal with
  | |- ?f d ++ _ = _ => assert (E : forall d', f d' = indent_members (S k) d')
  end.
  { induction d' as [ | [key' y] d' IH ]; [ reflexivity | ].
    cbn [indent_members flat_map fst snd]. rewrite IH.
    rewrite <- ?app_comm_cons, <- ?app_assoc. cbn [List.app].
    rewrite <- ?app_comm_cons, <- ?app_assoc. reflexivity. }
  now rewrite E.
Qed.

Lemma skip_ws_newline_indent k s : skip_ws (newline_indent k ++ s) = skip_ws s.
Proof.
  unfold newline_indent. rewrite <- app_comm_cons.
  cbn [skip_ws is_ws Z.eqb Pos.eqb orb].
  induction (2 * k)%nat as [ | m IH ]; [ reflexivity | ].
  cbn [repeat List.app skip_ws is_ws Z.eqb Pos.eqb orb]. exact IH.
Qed.

Lemma dumps_indent_head k v : exists c r, dumps_indent k v = c :: r /\ value_head c.
Proof.
  destruct v as [ | b | z | s | [ | x l ] | [ | [key x] d ] ];
    try exact (dumps_head _).
  - eexists _, _. split; [ reflexivity | unfold value_head; tauto ].
  - eexists _, _. split; [ reflexivity | unfold value_head; tauto ].
Qed.

Lemma skip_ws_dumps_indent k v rest :
  skip_ws (dumps_indent k v ++ rest) = dumps_indent k v ++ rest.
Proof.
  destruct (dumps_indent_head k v) as (c & r & E & Hc). rewrite E. cbn.
  now rewrite (value_head_not_ws c Hc).
Qed.

Lemma no_digit_head_indent_items k j l rest :
  no_digit_head (indent_items k l ++ newline_indent j ++ 93 :: rest).
Proof. destruct l; reflexivity. Qed.

Lemma no_digit_head_indent_members k j d rest :
  no_digit_head (indent_members k d ++ newline_indent j ++ 125 :: rest).
Proof. destruct d; reflexivity. Qed.

Lemma parse_elems_indent k j l : forall x (rest : pystr) (n : nat),
  reads_back_indent x -> Forall reads_back_indent l ->
  (length (dumps_indent k x ++ indent_items k l) < n)%nat ->
  parse_elems n (dumps_indent k x ++ indent_items k l
                 ++ newline_indent j ++ 93 :: rest)
  = Some (x :: l, rest).
Proof.
  induction l as [ | y l IH ]; intros x rest n Hx Hl Hn;
    (destruct n as [ | n ]; [ lia | ]); rewrite length_app in Hn;
    cbn [parse_elems].
  - rewrite (Hx k _ n (no_digit_head_indent_items k j [] rest))
      by (simpl in Hn; lia).
    cbn [indent_items flat_map List.app].
    rewrite skip_ws_newline_indent. reflexivity.
  - rewrite (Hx k _ n (no_digit_head_indent_items k j (y :: l) rest)) by lia.
    inversion Hl as [ | ? ? Hy Hl' ]; subst.
    cbn [indent_items flat_map] in *.
    rewrite <- !app_comm_cons. rewrite <- !app_assoc.
    cbn [skip_ws is_ws Z.eqb Pos.eqb orb].
    rewrite skip_ws_newline_indent.
    change (flat_map (fun y0 => 44 :: newline_indent k ++ dumps_indent k y0) l)
      with (indent_items k l) in *.
    rewrite skip_ws_dumps_indent.
    rewrite IH; [ reflexivity | assumption | assumption | ].
    simpl in Hn. rewrite !length_app in *. lia.
Qed.

Lemma parse_members_indent k j d : forall key x (rest : pystr) (n : nat),
  wf_str key = true -> reads_back_indent x ->
  Forall (fun kv => wf_str (fst kv) = true /\ reads_back_indent (snd kv)) d ->
  (length (dumps_indent k x ++ indent_members k d) < n)%nat ->
  parse_members n (flat_map escape_char key ++ 34 :: 58 :: 32 :: dumps_indent k x
                   ++ indent_members k d ++ newline_indent j ++ 125 :: rest)
  = Some ((key, x) :: d, rest).
Proof.
  induction d as [ | [key' y] d IH ]; intros key x rest n Hk Hx Hd Hn;
    (destruct n as [ | n ]; [ lia | ]); rewrite length_app in Hn;
    cbn [parse_members]; rewrite scanstring_dumps_str by assumption;
    cbn [skip_ws is_ws Z.eqb Pos.eqb orb]; rewrite skip_ws_dumps_indent.
  - rewrite (Hx k _ n (no_digit_head_indent_members k j [] rest))
      by (simpl in Hn; lia).
    cbn [indent_members flat_map List.app].
    rewrite skip_ws_newline_indent. reflexivity.
  - rewrite (Hx k _ n (no_digit_head_indent_members k j ((key', y) :: d) rest))
      by lia.
    inversion Hd as [ | ? ? [Hk' Hy] Hd' ]; subst. cbn [fst snd] in *.
    cbn [indent_members flat_map fst snd] in *.
    change (flat_map (fun kv => 44 :: newline_indent k ++ dumps_str (fst kv)
                                ++ 58 :: 32 :: dumps_indent k (snd kv)) d)
      with (indent_members k d) in *.
    rewrite <- !app_comm_cons. rewrite <- !app_assoc.
    cbn [skip_ws is_ws Z.eqb Pos.eqb orb].
    rewrite skip_ws_newline_indent.
    unfold dumps_str at 1. rewrite <- !app_comm_cons.
    cbn [skip_ws is_ws Z.eqb Pos.eqb orb].
    rewrite <- !app_assoc. rewrite <- !app_comm_cons.
    change ([] ++ 58 :: 32 :: dumps_indent k y ++ indent_members k d
            ++ newline_indent j ++ 125 :: rest)
      with (58 :: 32 :: dumps_indent k y ++ indent_members k d
            ++ newline_indent j ++ 125 :: rest).
    rewrite IH; [ reflexivity | assumption | assumption | assumption | ].
    simpl in Hn. rewrite !length_app in *. simpl in Hn.
    rewrite !length_app in *. simpl in Hn. lia.
Qed.

(** Every well-formed value is read back from the text
    [json.dumps(v, indent=2)] writes. *)
Lemma parse_value_dumps_indent v : wf_value v = true -> reads_back_indent v.
Proof.
  induction v as [ | b | z | s | l IHl | d IHd ] using value_ind;
    intros Hwf k rest n Hrest Hn;
    try exact (parse_value_dumps _ Hwf rest n Hrest Hn).
  - destruct l as [ | x l ];
      [ exact (parse_value_dumps _ Hwf rest n Hrest Hn) | ].
    rewrite dumps_indent_list_cons in *.
    destruct n as [ | n ]; [ simpl in Hn; lia | ].
    pose proof (wf_value_list _ Hwf) as Hall.
    inversion IHl as [ | ? ? IHx IHl' ]; subst.
    inversion Hall as [ | ? ? Hx Hall' ]; subst.
    rewrite <- app_comm_cons, <- !app_assoc.
    cbn [parse_value Z.eqb Pos.eqb].
    rewrite skip_ws_newline_indent, skip_ws_dumps_indent.
    destruct (dumps_indent_head (S k) x) as (c & r & E & Hc).
    assert (Hp : parse_elems n (dumps_indent (S k) x ++ indent_items (S k) l
                                ++ newline_indent k ++ 93 :: rest)
                 = Some (x :: l, rest)).
    { apply parse_elems_indent; [ auto | | ].
      - clear - IHl' Hall'. induction IHl' as [ | y l Hy Hl IH ]; constructor;
          inversion Hall'; subst; auto.
      - simpl in Hn. rewrite !length_app in *. simpl in Hn |- *. lia. }
    change ([93] ++ rest) with (93 :: rest).
    rewrite E in Hp |- *. rewrite <- app_comm_cons in Hp |- *. cbv iota.
    rewrite (value_head_not_close c Hc). now rewrite Hp.
  - destruct d as [ | [key x] d ];
      [ exact (parse_value_dumps _ Hwf rest n Hrest Hn) | ].
    rewrite dumps_indent_dict_cons in *.
    destruct n as [ | n ]; [ simpl in Hn; lia | ].
    destruct (wf_value_dict _ Hwf) as [Hdist Hall].
    inversion IHd as [ | ? ? IHx IHd' ]; subst.
    inversion Hall as [ | ? ? [Hk Hx] Hall' ]; subst. cbn [fst snd] in *.
    rewrite <- app_comm_cons, <- !app_assoc.
    cbn [parse_value Z.eqb Pos.eqb].
    rewrite skip_ws_newline_indent.
    unfold dumps_str at 1.
    rewrite <- !app_comm_cons, <- !app_assoc. rewrite <- !app_comm_cons.
    cbn [skip_ws is_ws Z.eqb Pos.eqb orb].
    assert (Hp : parse_members n
                   (flat_map escape_char key ++ 34 :: 58 :: 32 ::
                    dumps_indent (S k) x ++ indent_members (S k) d
                    ++ newline_indent k ++ 125 :: rest)
                 = Some ((key, x) :: d, rest)).
    { apply parse_members_indent; [ assumption | auto | | ].
      - clear - IHd' Hall'. induction IHd' as [ | y l Hy Hl IH ]; constructor;
          inversion Hall' as [ | ? ? [H1 H2] ? ]; subst; auto.
      - simpl in Hn. unfold dumps_str in Hn. rewrite !length_app in *.
        simpl in Hn |- *. rewrite !length_app in *. simpl in Hn.
        rewrite !length_app in Hn. lia. }
    match goal with
    | |- context [parse_members n ?t] =>
        replace t
          with (flat_map escape_char key ++ 34 :: 58 :: 32 ::
                dumps_indent (S k) x ++ indent_members (S k) d
                ++ newline_indent k ++ 125 :: rest)
          by (cbn [List.app]; now rewrite <- ?app_assoc)
    end.
    rewrite Hp. now rewrite dict_of_pairs_distinct.
Qed.

(** [json.loads(json.dumps(v, indent=2)) == v] *)
Lemma loads_dumps_indent v :
  wf_value v = true -> loads (dumps_indent 0 v) = Some v.
Proof.
  intros Hwf. unfold loads.
  pose proof (skip_ws_dumps_indent 0 v []) as Hs. rewrite app_nil_r in Hs.
  rewrite Hs.
  pose proof (parse_value_dumps_indent v Hwf 0%nat []
                (S (length (dumps_indent 0 v))) I) as Hp.
  rewrite app_nil_r in Hp. rewrite Hp by lia. reflexivity.
Qed.
(** ** A published descriptor is found by the client *)

Lemma newline_indent_ascii k : ascii_text (newline_indent k).
Proof.
  unfold newline_indent. constructor; [ lia | ].
  induction (2 * k)%nat as [ | m IH ]; constructor; [ lia | exact IH ].
Qed.

Lemma dumps_indent_ascii v : forall k, ascii_text (dumps_indent k v).
Proof.
  induction v as [ | b | z | s | l IHl | d IHd ] using value_ind; intros k;
    try exact (dumps_ascii _).
  - destruct l as [ | x l ]; [ exact (dumps_ascii _) | ].
    rewrite dumps_indent_list_cons. inversion IHl as [ | ? ? Hx Hl ]; subst.
    constructor; [ lia | ].
    apply ascii_text_app. split; [ apply newline_indent_ascii | ].
    apply ascii_text_app. split; [ apply Hx | ].
    apply ascii_text_app. split.
    + clear - Hl. induction Hl as [ | y l Hy Hl IH ]; [ constructor | ].
      cbn [indent_items flat_map]. constructor; [ lia | ].
      apply ascii_text_app. split; [ | exact IH ].
      apply ascii_text_app. split; [ apply newline_indent_ascii | apply Hy ].
    + apply ascii_text_app. split; [ apply newline_indent_ascii | ].
      repeat constructor; lia.
  - destruct d as [ | [key x] d ]; [ exact (dumps_ascii _) | ].
    rewrite dumps_indent_dict_cons. inversion IHd as [ | ? ? Hx Hd ]; subst.
    constructor; [ lia | ].
    apply ascii_text_app. split; [ apply newline_indent_ascii | ].
    apply ascii_text_app. split; [ apply dumps_str_ascii | ].
    constructor; [ lia | constructor; [ lia | ] ].
    apply ascii_text_app. split; [ apply Hx | ].
    apply ascii_text_app. split.
    + clear - Hd. induction Hd as [ | [key' y] d Hy Hd IH ]; [ constructor | ].
      cbn [indent_members flat_map fst snd]. constructor; [ lia | ].
      apply ascii_text_app. split; [ | exact IH ].
      apply ascii_text_app. split; [ apply newline_indent_ascii | ].
      apply ascii_text_app. split; [ apply dumps_str_ascii | ].
      constructor; [ lia | constructor; [ lia | apply Hy ] ].
    + apply ascii_text_app. split; [ apply newline_indent_ascii | ].
      repeat constructor; lia.
Qed.

(** What a scan decodes from the file [json.dump(info, f, indent=2)]
    wrote. *)
Lemma decode_descriptor_text env self :
  wf_value (descriptor env self) = true ->
  decode_json (descriptor_text env self) = DecOk (descriptor env self).
Proof.
  intros Hwf. unfold descriptor_text, decode_json.
  rewrite utf8_encode_ascii by apply dumps_indent_ascii.
  rewrite utf8_decode_ascii by apply dumps_indent_ascii.
  now rewrite loads_dumps_indent.
Qed.

Lemma dir_write_names d n c m :
  In m (map fst (dir_write d n c)) -> m = n \/ In m (map fst d).
Proof.
  induction d as [ | [k c'] d IH ]; cbn [dir_write map fst In].
  - intros [ <- | [] ]. now left.
  - destruct (pystr_eqb k n); cbn [map fst In]; [ tauto | ].
    intros [ H | H ]; [ tauto | ]. apply IH in H. tauto.
Qed.

Lemma dir_write_NoDup d n c :
  NoDup (map fst d) -> NoDup (map fst (dir_write d n c)).
Proof.
  induction d as [ | [k c'] d IH ]; cbn [dir_write map fst]; intros Hnd.
  - repeat constructor. intros [].
  - inversion Hnd as [ | ? ? Hk Hnd' ]; subst.
    destruct (pystr_eqb k n) eqn:E; cbn [map fst]; [ now constructor | ].
    constructor; [ | now apply IH ].
    intros Hin. apply dir_write_names in Hin as [ -> | Hin ]; [ | tauto ].
    now rewrite pystr_eqb_refl in E.
Qed.

Lemma dir_remove_NoDup d n :
  NoDup (map fst d) -> NoDup (map fst (dir_remove d n)).
Proof.
  unfold dir_remove.
  induction d as [ | [k c'] d IH ]; cbn [filter map fst]; intros Hnd;
    [ constructor | ].
  inversion Hnd as [ | ? ? Hk Hnd' ]; subst.
  destruct (negb (pystr_eqb k n)); cbn [map fst]; [ | now apply IH ].
  constructor; [ | now apply IH ].
  intros Hin. apply Hk. apply in_map_iff in Hin as ([k' c0] & E & Hin).
  cbn [fst] in E. subst k'. apply filter_In in Hin as [Hin _].
  apply in_map_iff. now exists (k, c0).
Qed.

(** No operation gives a name to two files. *)
Lemma apply_op_NoDup r op :
  NoDup (map fst (files r)) -> NoDup (map fst (files (apply_op r op))).
Proof.
  destruct op as [ | name | name data | src dst | name ], r as [ d | ];
    cbn [apply_op files map]; intros Hnd; try assumption; try constructor.
  - now apply dir_write_NoDup.
  - destruct (dir_read d name); [ now apply dir_write_NoDup | assumption ].
  - destruct (dir_read d src); [ | assumption ].
    now apply dir_write_NoDup, dir_remove_NoDup.
  - now apply dir_remove_NoDup.
Qed.

Lemma fs_run_NoDup ops : forall r,
  NoDup (map fst (files r)) -> NoDup (map fst (files (fs_run r ops))).
Proof.
  induction ops as [ | op ops IH ]; intros r Hnd; [ exact Hnd | ].
  cbn [fs_run fold_left]. apply IH. now apply apply_op_NoDup.
Qed.

(** X12.  What a host publishes, the client finds.  After
    [_write_port_file] on a directory of distinctly named files, with
    the prober answering [True] for the host's own pid, a scan by
    [_discover_instances] decodes the host's port file to the very
    descriptor the host wrote ([json.load] undoes [json.dump] with
    [indent=2]), returns a list that contains it, and leaves the file in
    place.  The descriptor is one Python builds (strings of scalar
    values), and the other live descriptors have string [started_at]s,
    so that the sort does not raise. *)
Theorem published_descriptor_is_discovered
  (env : host_env) (os : os_state) (cuts : list nat) (self : server)
  (r : registry) :
  NoDup (map fst (files r)) ->
  wf_value (descriptor env self) = true ->
  fst (_is_pid_alive os (PInt (env_pid env))) = Return true ->
  Forall has_string_key (live_descriptors os (files r)) ->
  let r1 := snd (_write_port_file env cuts self r) in
  decode_json (descriptor_text env self) = DecOk (descriptor env self)
  /\ exists l r2 probed,
       _discover_instances os r1 = (Return l, r2, probed)
       /\ In (descriptor env self) l
       /\ reg_read r2 (port_file_name self) = Some (descriptor_text env self).
Proof.
  intros Hnd Hwf Hlive Hkeys. cbv zeta.
  pose proof (decode_descriptor_text env self Hwf) as Hdec.
  split; [ exact Hdec | ].
  unfold _write_port_file. cbn [snd].
  pose proof (fs_run_NoDup (write_port_file_ops env cuts self) r Hnd) as Hnd'.
  destruct (write_port_file_result env cuts self r)
    as (d' & Er & Hfinal & Htmp & Hother).
  rewrite Er in Hnd' |- *. cbn [files] in Hnd'.
  assert (Hdesc : descriptor_of (port_file_name self, descriptor_text env self)
                  = Some [(py "port", port_value self);
                          (py "pid", PInt (env_pid env));
                          (py "hip_file", PStr (env_hip_file env));
                          (py "hip_name", PStr (env_hip_name env));
                          (py "houdini_version", PStr (env_houdini_version env));
                          (py "started_at", PStr (env_now env));
                          (py "hostname", PStr (host self))]).
  { unfold descriptor_of. cbn [fst snd].
    now rewrite port_file_name_is_scanned, Hdec. }
  set (info := [(py "port", port_value self);
                (py "pid", PInt (env_pid env));
                (py "hip_file", PStr (env_hip_file env));
                (py "hip_name", PStr (env_hip_name env));
                (py "houdini_version", PStr (env_houdini_version env));
                (py "started_at", PStr (env_now env));
                (py "hostname", PStr (host self))]) in *.
  assert (Hpid : pid_of info = PInt (env_pid env)) by reflexivity.
  assert (Hil : is_live os info = true).
  { unfold is_live. rewrite Hpid, Hlive. now destruct (truthy _). }
  assert (Hns : is_stale os info = false).
  { unfold is_stale. rewrite Hpid, Hlive. apply andb_false_r. }
  assert (Hin : In (port_file_name self, descriptor_text env self) d')
    by now apply dir_read_some_in.
  assert (Hkeys' : Forall has_string_key (live_descriptors os d')).
  { apply Forall_forall. intros x Hx.
    apply live_descriptors_spec in Hx as ([n c] & info' & Hf & Hd & Hl & ->).
    pose proof (dir_read_in d' n c Hnd' Hf) as Hread.
    destruct (list_eq_dec Z.eq_dec n (port_file_name self)) as [ -> | Hn1 ].
    - rewrite Hfinal in Hread. inversion Hread; subst c.
      rewrite Hdesc in Hd. inversion Hd; subst info'.
      exists (env_now env). reflexivity.
    - destruct (list_eq_dec Z.eq_dec n (tmp_file_name self)) as [ -> | Hn2 ];
        [ congruence | ].
      rewrite (Hother n Hn1 Hn2) in Hread.
      rewrite Forall_forall in Hkeys. apply Hkeys.
      apply live_descriptors_spec. exists (n, c), info'.
      repeat split; try assumption.
      destruct r as [ d | ]; [ | discriminate ].
      now apply dir_read_some_in. }
  unfold _discover_instances. rewrite (discover_scan os d' Hnd').
  destruct (sort_desc_strings _ Hkeys') as [ l El ]. rewrite El.
  exists l, (Some (without_stale os d')), (probed_pids os d').
  split; [ reflexivity | ]. split.
  - eapply Permutation_in; [ apply (sort_desc_perm _ _ _ El) | ].
    apply live_descriptors_spec.
    exists (port_file_name self, descriptor_text env self), info.
    repeat split; assumption.
  - cbn [reg_read]. apply dir_read_in; [ now apply without_stale_NoDup | ].
    apply without_stale_spec. split; [ exact Hin | ].
    unfold stale_file. now rewrite Hdesc.
Qed.

Lemma published_descriptor_is_discovered_witness :
  let self := set_port (new_server (py "localhost") None None) (Some 9877) in
  let r1 := snd (_write_port_file free_env [10%nat] self (Some [second_file])) in
  decode_json (descriptor_text free_env self) = DecOk (descriptor free_env self)
  /\ exists l r2 probed,
       _discover_instances busy_posix r1 = (Return l, r2, probed)
       /\ In (descriptor free_env self) l
       /\ reg_read r2 (port_file_name self)
          = Some (descriptor_text free_env self).
Proof.
  apply (published_descriptor_is_discovered free_env busy_posix [10%nat]
           (set_port (new_server (py "localhost") None None) (Some 9877))
           (Some [second_file])).
  - repeat constructor. intros [].
  - reflexivity.
  - reflexivity.
  - vm_compute. repeat constructor. eexists. reflexivity.
Defined.
(** * Further properties of the two scans *)

Lemma stale_is_not_live os info : is_stale os info = true -> is_live os info = false.
Proof.
  unfold is_stale, is_live. intros H. apply andb_true_iff in H as [Ht Hp].
  rewrite Ht.
  now destruct (fst (_is_pid_alive os (pid_of info))) as [ [ | ] | ].
Qed.

Lemma live_descriptors_without_stale os d :
  live_descriptors os (without_stale os d) = live_descriptors os d.
Proof.
  unfold live_descriptors, without_stale.
  induction d as [ | f d IH ]; [ reflexivity | ].
  cbn [filter flat_map]. unfold stale_file at 1.
  destruct (descriptor_of f) as [ info | ] eqn:Ed; cbn [negb].
  - destruct (is_stale os info) eqn:Es; cbn [negb flat_map].
    + rewrite (stale_is_not_live os info Es). exact IH.
    + rewrite Ed. now rewrite IH.
  - cbn [flat_map]. rewrite Ed. now rewrite IH.
Qed.

Lemma without_stale_twice os d :
  without_stale os (without_stale os d) = without_stale os d.
Proof.
  unfold without_stale.
  induction d as [ | f d IH ]; [ reflexivity | ].
  cbn [filter]. destruct (negb (stale_file os f)) eqn:E; [ | exact IH ].
  cbn [filter]. rewrite E. now rewrite IH.
Qed.

Lemma probed_pids_without_stale os d pid :
  In pid (probed_pids os (without_stale os d)) -> In pid (probed_pids os d).
Proof.
  unfold probed_pids. rewrite !in_flat_map. intros (f & Hf & Hpid).
  exists f. split; [ | exact Hpid ]. now apply without_stale_spec in Hf.
Qed.

(** A stale file of a directory of distinctly named files is gone once
    the stale files are removed. *)
Lemma dir_read_without_stale os d n c :
  NoDup (map fst d) -> In (n, c) d -> stale_file os (n, c) = true ->
  dir_read (without_stale os d) n = None.
Proof.
  intros Hnd Hin Hs.
  destruct (dir_read (without_stale os d) n) as [ c' | ] eqn:E; [ | reflexivity ].
  apply dir_read_some_in, without_stale_spec in E as [Hin' Hs'].
  pose proof (dir_read_in d n c Hnd Hin) as H1.
  pose proof (dir_read_in d n c' Hnd Hin') as H2.
  congruence.
Qed.

(** X13.  The cleaning pass of the host and the scan of the client treat
    the directory alike: on a directory of distinctly named files they
    leave the same files behind and hand the same pids, in the same
    order, to the prober. *)
Theorem host_and_client_scans_agree (os : os_state) (r : registry) :
  NoDup (map fst (files r)) ->
  fst (_clean_stale_port_files os r) = snd (fst (_discover_instances os r))
  /\ snd (_clean_stale_port_files os r) = snd (_discover_instances os r).
Proof.
  destruct r as [ d | ]; cbn [files]; intros Hnd; [ | now split ].
  rewrite (clean_stale_scan os d Hnd).
  unfold _discover_instances. rewrite (discover_scan os d Hnd).
  now destruct (sort_desc started_at_key (live_descriptors os d)).
Qed.

Lemma host_and_client_scans_agree_witness :
  fst (_clean_stale_port_files lonely_posix (Some [second_file; pid_zero_file]))
  = snd (fst (_discover_instances lonely_posix
                (Some [second_file; pid_zero_file])))
  /\ snd (_clean_stale_port_files lonely_posix (Some [second_file; pid_zero_file]))
     = snd (_discover_instances lonely_posix (Some [second_file; pid_zero_file])).
Proof.
  apply (host_and_client_scans_agree lonely_posix
           (Some [second_file; pid_zero_file])).
  cbn [files map].
  constructor; [ intros [ H | [] ]; vm_compute in H; discriminate H | ].
  repeat constructor. intros [].
Defined.

(** X14.  A scan leaves nothing for the next one to do: when
    [_discover_instances] is run again on the directory it left (the
    processes being as they were), it returns the same result, deletes
    no file and probes no pid it had not probed; and the cleaning pass
    of a host that starts then deletes nothing either. *)
Theorem second_scan_changes_nothing (os : os_state) (r : registry) :
  NoDup (map fst (files r)) ->
  let '(found, r1, probed) := _discover_instances os r in
  fst (_discover_instances os r1) = (found, r1)
  /\ incl (snd (_discover_instances os r1)) probed
  /\ fst (_clean_stale_port_files os r1) = r1.
Proof.
  destruct r as [ d | ]; cbn [files]; intros Hnd.
  2:{ cbn. repeat split. intros x []. }
  pose proof (without_stale_NoDup os d Hnd) as Hnd'.
  assert (H2 : _discover_instances os (Some (without_stale os d))
               = (match sort_desc started_at_key (live_descriptors os d) with
                  | Some sorted => Return sorted
                  | None => Raise TypeError
                  end,
                  Some (without_stale os d),
                  probed_pids os (without_stale os d))).
  { unfold _discover_instances. rewrite (discover_scan os _ Hnd').
    rewrite live_descriptors_without_stale, without_stale_twice.
    now destruct (sort_desc started_at_key (live_descriptors os d)). }
  unfold _discover_instances at 1. rewrite (discover_scan os d Hnd).
  destruct (sort_desc started_at_key (live_descriptors os d)) as [ l | ];
    rewrite H2; cbn [fst snd];
    (split; [ reflexivity | ];
     split; [ intros pid; apply probed_pids_without_stale | ];
     rewrite (clean_stale_scan os _ Hnd'); cbn [fst];
     now rewrite without_stale_twice).
Qed.

Lemma second_scan_changes_nothing_witness :
  let '(found, r1, probed) :=
    _discover_instances lonely_posix (Some [second_file; pid_zero_file]) in
  fst (_discover_instances lonely_posix r1) = (found, r1)
  /\ incl (snd (_discover_instances lonely_posix r1)) probed
  /\ fst (_clean_stale_port_files lonely_posix r1) = r1.
Proof.
  apply (second_scan_changes_nothing lonely_posix
           (Some [second_file; pid_zero_file])).
  cbn [files map].
  constructor; [ intros [ H | [] ]; vm_compute in H; discriminate H | ].
  repeat constructor. intros [].
Defined.

(** ** Pids the prober misjudges or cannot judge *)

(** X15.  On POSIX the prober takes a process it may not signal for a
    dead one: [os.kill] raises [PermissionError], an [OSError], and the
    probe answers [False].  So the port file of a live host that runs as
    another user is deleted by both scans and its descriptor is left out
    of every list the client's discovery returns. *)
Theorem other_users_process_is_taken_for_dead
  (os : os_state) (d : directory) (fname : pystr) (content : bytes)
  (info : list (pystr * value)) (z : Z) :
  os_platform os = Posix -> os_kill_answer os z = KillEPERM ->
  z <> 0 -> fits_c_int z = true ->
  NoDup (map fst d) -> In (fname, content) d ->
  is_port_file_name fname = true ->
  decode_json content = DecOk (PDict info) ->
  dict_get info (py "pid") PNone = PInt z ->
  fst (_is_pid_alive os (PInt z)) = Return false
  /\ reg_read (fst (_clean_stale_port_files os (Some d))) fname = None
  /\ (let '(found, r', probed) := _discover_instances os (Some d) in
      reg_read r' fname = None
      /\ forall l, found = Return l -> ~ In (PDict info) l).
Proof.
  intros Hposix Hperm Hz Hfits Hnd Hin Hname Hdec Hpid.
  assert (Hprobe : fst (_is_pid_alive os (PInt z)) = Return false).
  { unfold _is_pid_alive, os_kill. rewrite Hposix. cbn [as_int].
    unfold fits_c_int in Hfits. rewrite Hfits, Hperm. reflexivity. }
  assert (Htruthy : truthy (PInt z) = true).
  { cbn [truthy]. apply negb_true_iff. now apply Z.eqb_neq. }
  assert (Hdesc : descriptor_of (fname, content) = Some info)
    by (unfold descriptor_of; cbn [fst snd]; now rewrite Hname, Hdec).
  assert (Hstale : is_stale os info = true).
  { unfold is_stale, pid_of. now rewrite Hpid, Htruthy, Hprobe. }
  assert (Hgone : dir_read (without_stale os d) fname = None).
  { apply (dir_read_without_stale os d fname content Hnd Hin).
    unfold stale_file. now rewrite Hdesc. }
  split; [ exact Hprobe | ]. split.
  - now rewrite (clean_stale_scan os d Hnd).
  - unfold _discover_instances. rewrite (discover_scan os d Hnd).
    destruct (sort_desc started_at_key (live_descriptors os d)) as [ l | ] eqn:El;
      (split; [ exact Hgone | ]); intros l' E; [ | discriminate ].
    inversion E; subst l'. intros Hl.
    apply (Permutation_in _ (Permutation_sym (sort_desc_perm _ _ _ El))) in Hl.
    apply live_descriptors_spec in Hl as (f & info' & _ & _ & Hlive & E').
    inversion E'; subst info'.
    rewrite (stale_is_not_live os info Hstale) in Hlive. discriminate.
Qed.

Lemma other_users_process_is_taken_for_dead_witness :
  fst (_is_pid_alive guarded_posix (PInt 1)) = Return false
  /\ reg_read (fst (_clean_stale_port_files guarded_posix (Some [foreign_file])))
       (fst foreign_file) = None
  /\ (let '(found, r', probed) :=
        _discover_instances guarded_posix (Some [foreign_file]) in
      reg_read r' (fst foreign_file) = None
      /\ forall l, found = Return l
                   -> ~ In (PDict [(py "port", PInt 9877); (py "pid", PInt 1)]) l).
Proof.
  apply (other_users_process_is_taken_for_dead guarded_posix [foreign_file]
           (fst foreign_file) (snd foreign_file)
           [(py "port", PInt 9877); (py "pid", PInt 1)] 1).
  - reflexivity.
  - reflexivity.
  - lia.
  - reflexivity.
  - repeat constructor. intros [].
  - now left.
  - reflexivity.
  - reflexivity.
  - reflexivity.
Defined.

(** X16.  On POSIX a descriptor whose pid [os.kill] refuses (a string, a
    list, an integer outside a C [int]) makes the probe raise
    [TypeError] or [OverflowError]; each scan swallows the exception and
    goes on to the next file.  The pid was handed to the prober, the
    file is neither deleted nor listed: it stays in the directory and no
    scan ever reports or removes it. *)
Theorem unprobeable_pid_is_skipped_and_kept
  (os : os_state) (d : directory) (fname : pystr) (content : bytes)
  (info : list (pystr * value)) :
  os_platform os = Posix ->
  truthy (dict_get info (py "pid") PNone) = true ->
  unprobeable (dict_get info (py "pid") PNone) = true ->
  NoDup (map fst d) -> In (fname, content) d ->
  is_port_file_name fname = true ->
  decode_json content = DecOk (PDict info) ->
  (exists e, fst (_is_pid_alive os (dict_get info (py "pid") PNone)) = Raise e)
  /\ (let '(r', probed) := _clean_stale_port_files os (Some d) in
      reg_read r' fname = Some content
      /\ In (dict_get info (py "pid") PNone) probed)
  /\ (let '(found, r', probed) := _discover_instances os (Some d) in
      reg_read r' fname = Some content
      /\ In (dict_get info (py "pid") PNone) probed
      /\ forall l, found = Return l -> ~ In (PDict info) l).
Proof.
  intros Hposix Htruthy Hun Hnd Hin Hname Hdec.
  set (pid := dict_get info (py "pid") PNone) in *.
  assert (Hprobe : exists e, fst (_is_pid_alive os pid) = Raise e).
  { unfold _is_pid_alive, os_kill. rewrite Hposix.
    unfold unprobeable, fits_c_int in Hun.
    destruct (as_int pid) as [ z | ]; [ | now exists TypeError ].
    apply negb_true_iff in Hun. rewrite Hun. now exists OverflowError. }
  destruct Hprobe as [e He].
  assert (Hdesc : descriptor_of (fname, content) = Some info)
    by (unfold descriptor_of; cbn [fst snd]; now rewrite Hname, Hdec).
  assert (Hns : is_stale os info = false).
  { unfold is_stale, pid_of. fold pid. rewrite He. apply andb_false_r. }
  assert (Hnl : is_live os info = false).
  { unfold is_live, pid_of. fold pid. now rewrite Htruthy, He. }
  assert (Hkept : dir_read (without_stale os d) fname = Some content).
  { apply dir_read_in; [ now apply without_stale_NoDup | ].
    apply without_stale_spec. split; [ exact Hin | ].
    unfold stale_file. now rewrite Hdesc. }
  assert (Hprobed : In pid (probed_pids os d)).
  { unfold probed_pids. apply in_flat_map. exists (fname, content).
    split; [ exact Hin | ]. rewrite Hdesc. unfold pid_of. fold pid.
    rewrite Htruthy. now left. }
  split; [ now exists e | ]. split.
  - rewrite (clean_stale_scan os d Hnd). now split.
  - unfold _discover_instances. rewrite (discover_scan os d Hnd).
    destruct (sort_desc started_at_key (live_descriptors os d)) as [ l | ] eqn:El;
      (split; [ exact Hkept | ]); (split; [ exact Hprobed | ]);
      intros l' E; [ | discriminate ].
    inversion E; subst l'. intros Hl.
    apply (Permutation_in _ (Permutation_sym (sort_desc_perm _ _ _ El))) in Hl.
    apply live_descriptors_spec in Hl as (f & info' & _ & _ & Hlive & E').
    inversion E'; subst info'. congruence.
Qed.

Lemma unprobeable_pid_is_skipped_and_kept_witness :
  (exists e, fst (_is_pid_alive busy_posix (PStr (py "4242"))) = Raise e)
  /\ (let '(r', probed) := _clean_stale_port_files busy_posix (Some [text_pid_file]) in
      reg_read r' (fst text_pid_file) = Some (snd text_pid_file)
      /\ In (PStr (py "4242")) probed)
  /\ (let '(found, r', probed) :=
        _discover_instances busy_posix (Some [text_pid_file]) in
      reg_read r' (fst text_pid_file) = Some (snd text_pid_file)
      /\ In (PStr (py "4242")) probed
      /\ forall l, found = Return l
                   -> ~ In (PDict [(py "port", PInt 9877);
                                   (py "pid", PStr (py "4242"))]) l).
Proof.
  apply (unprobeable_pid_is_skipped_and_kept busy_posix [text_pid_file]
           (fst text_pid_file) (snd text_pid_file)
           [(py "port", PInt 9877); (py "pid", PStr (py "4242"))]).
  - reflexivity.
  - reflexivity.
  - reflexivity.
  - repeat constructor. intros [].
  - now left.
  - reflexivity.
  - reflexivity.
Defined.
(** * Further properties of the client *)

(** ** A call, end to end *)




(** ** Calls that end without a reply *)




(** ** What a failed call leaves behind *)

(** [receive_full_response] returns only bytes that are a document, and
    what it raises is no [JSONDecodeError]. *)
Lemma receive_loop_result reads : forall chunks,
  match receive_loop reads chunks with
  | Return data => exists v, decode_json data = DecOk v
  | Raise e => e <> JSONDecodeError
  end.
Proof.
  assert (Hafter : forall chunks,
            match after_receive chunks with
            | Return data => exists v, decode_json data = DecOk v
            | Raise e => e <> JSONDecodeError
            end).
  { intros chunks. unfold after_receive.
    destruct chunks as [ | d chunks ]; [ discriminate | ].
    destruct (decode_json (concat (d :: chunks))) as [ v | | ] eqn:E;
      [ now exists v | discriminate | discriminate ]. }
  induction reads as [ | [ [ | x d ] | | m ] reads IH ]; intros chunks;
    cbn [receive_loop]; try apply Hafter; try discriminate.
  - destruct chunks; [ discriminate | apply Hafter ].
  - destruct (decode_json (concat (chunks ++ [x :: d]))) as [ v | | ] eqn:E;
      [ now exists v | apply IH | discriminate ].
Qed.

Lemma send_and_receive_no_json_error command ex :
  send_and_receive command ex <> Raise JSONDecodeError.
Proof.
  unfold send_and_receive.
  destruct (encode_json command); [ | discriminate ].
  destruct (ex_send ex); try discriminate.
  unfold receive_full_response.
  pose proof (receive_loop_result (ex_reads ex) []) as H.
  destruct (receive_loop (ex_reads ex) []) as [ data | e ].
  - destruct H as [v Hv]. rewrite Hv.
    destruct v as [ | | | | | response ]; try discriminate.
    destruct (dict_get response (py "status") PNone); try discriminate.
    destruct (pystr_eqb s (py "error")); discriminate.
  - intros E. inversion E. contradiction.
Qed.

(** X19.  Whenever [send_command] raises, the connection is left without
    a socket, so that the next call connects anew.  The one clause that
    would keep the socket, for a response that is no JSON, is never
    taken: [receive_full_response] hands over only bytes it has parsed,
    so [send_command] never raises "Invalid response from Houdini". *)
Theorem failed_call_leaves_no_socket
  (self : connection) (ct : pystr) (params : value) (w : world)
  (e : exn) (self' : connection) (w' : world) :
  send_command self ct params w = (Raise e, self', w') ->
  sock self' = None /\ is_invalid_response_error e = false.
Proof.
  unfold send_command, connect.
  destruct (sock self) as [ s | ] eqn:Es.
  - cbn [negb].
    pose proof (send_and_receive_no_json_error (request ct params)
                  match w_exchanges w with
                  | ex :: _ => ex
                  | [] => {| ex_send := SendOk; ex_reads := [] |}
                  end) as Hno.
    destruct (send_and_receive _ _) as [ res | e0 ]; [ discriminate | ].
    destruct e0; try contradiction;
      cbn [handle_failure]; intros H; inversion H; subst;
      (split; [ reflexivity | reflexivity ]).
  - destruct (w_listening w (conn_port self)); cbn [negb].
    + pose proof (send_and_receive_no_json_error (request ct params)
                    match w_exchanges w with
                    | ex :: _ => ex
                    | [] => {| ex_send := SendOk; ex_reads := [] |}
                    end) as Hno.
      cbn [w_exchanges].
      destruct (send_and_receive _ _) as [ res | e0 ]; [ discriminate | ].
      destruct e0; try contradiction;
        cbn [handle_failure]; intros H; inversion H; subst;
        (split; [ reflexivity | reflexivity ]).
    + intros H; inversion H; subst. split; reflexivity.
Qed.

Lemma failed_call_leaves_no_socket_witness :
  sock (set_sock held None) = None
  /\ is_invalid_response_error
       (Exception (MsgWrap (py "Communication error with Houdini: ")
          (Exception (MsgLit (py "No data received"))))) = false.
Proof.
  apply (failed_call_leaves_no_socket held (py "get_scene_info") PNone
           (world_of [{| ex_send := SendOk; ex_reads := [Timeout] |}])
           (Exception (MsgWrap (py "Communication error with Houdini: ")
              (Exception (MsgLit (py "No data received")))))
           (set_sock held None) (set_exchanges (world_of []) [])).
  reflexivity.
Defined.
(** ** The persistent connection *)


(** ** Switching to another instance *)

(** X21.  [connect_to_houdini] pins the port before it connects and does
    not take the pin back.  When the port is the port of a live instance
    of the registry but no host accepts on it, the tool fails, the
    connection held before is gone, and the port stays pinned: from then
    on every [get_houdini_connection] tries that port alone, without
    looking at the registry, whatever instances are live. *)
Theorem failed_switch_stays_pinned
  (z : Z) (g : globals) (w : world) (instances : list value)
  (r' : registry) (probed ports : list value) :
  _discover_instances (w_os w) (w_registry w) = (Return instances, r', probed) ->
  known_ports instances = Return ports ->
  existsb (value_eqb (PInt z)) ports = true ->
  w_listening w (PInt z) = false ->
  let '(ok, g', w') := connect_to_houdini (PInt z) g w in
  ok = false
  /\ _houdini_connection g' = None /\ _target_port g' = PInt z
  /\ w_connects w' = w_connects w ++ [PInt z]
  /\ forall w2 : world,
       let '(res, g2, w2') := get_houdini_connection g' w2 in
       w_connects w2' = w_connects w2 ++ [PInt z]
       /\ w_registry w2' = w_registry w2
       /\ _target_port g2 = PInt z.
Proof.
  intros Hscan Hports Hknown Hdown.
  unfold connect_to_houdini. rewrite Hscan, Hports, Hknown.
  unfold tool_call, get_houdini_connection, resolve_port, connect.
  cbn [_houdini_connection _target_port sock conn_port set_registry
       w_listening w_connects].
  rewrite Hdown.
  cbn [set_connection _houdini_connection _target_port w_connects].
  repeat split.
  intros w2. cbn [sock conn_port].
  destruct (w_listening w2 (PInt z)); cbn; repeat split.
Qed.

Lemma failed_switch_stays_pinned_witness :
  let w := {| w_os := busy_posix; w_registry := Some [first_file; second_file];
              w_listening := fun p => value_eqb p (PInt 9877);
              w_exchanges := []; w_next_sock := 1; w_connects := [] |} in
  let '(ok, g', w') := connect_to_houdini (PInt 9878) no_globals w in
  ok = false
  /\ _houdini_connection g' = None /\ _target_port g' = PInt 9878
  /\ w_connects w' = w_connects w ++ [PInt 9878]
  /\ forall w2 : world,
       let '(res, g2, w2') := get_houdini_connection g' w2 in
       w_connects w2' = w_connects w2 ++ [PInt 9878]
       /\ w_registry w2' = w_registry w2
       /\ _target_port g2 = PInt 9878.
Proof.
  apply (failed_switch_stays_pinned 9878 no_globals
           {| w_os := busy_posix; w_registry := Some [first_file; second_file];
              w_listening := fun p => value_eqb p (PInt 9877);
              w_exchanges := []; w_next_sock := 1; w_connects := [] |}
           [second_host; first_host] (Some [first_file; second_file])
           [PInt 100; PInt 200] [PInt 9878; PInt 9877]);
    reflexivity.
Defined.


(** * Further properties of the host: the server of the session *)

Lemma first_bindable_some env ports p :
  first_bindable env ports = Some p -> In p ports /\ env_bind_ok env p = true.
Proof.
  induction ports as [ | q ports IH ]; cbn [first_bindable]; [ discriminate | ].
  destruct (env_bind_ok env q) eqn:E.
  - intros H; inversion H; subst. split; [ now left | exact E ].
  - intros H. destruct (IH H) as [Hin Hok]. split; [ now right | exact Hok ].
Qed.

(** X23.  The session holds at most one server.  When [init_houdinimcp]
    has started one, it is stored in the session, running, on a port of
    [9877..9886] that was free, with its port file in the directory;
    calling [init_houdinimcp] again, in whatever state the machine is,
    returns that same server and binds no port and writes no file; and
    [stop_houdinimcp] empties the session and removes the port file. *)
Theorem session_holds_one_server
  (env : host_env) (os : os_state) (cuts : list nat) (r : registry)
  (srv : server) (session : option server) (r1 : registry) :
  init_houdinimcp env os cuts None r = (Some srv, session, r1) ->
  session = Some srv
  /\ running srv = true
  /\ (exists p, port srv = Some p /\ 9877 <= p <= 9886
                /\ env_bind_ok env p = true)
  /\ reg_read r1 (port_file_name srv) = Some (descriptor_text env srv)
  /\ (forall env' os' cuts',
        init_houdinimcp env' os' cuts' session r1 = (Some srv, session, r1))
  /\ fst (stop_houdinimcp session r1) = None
  /\ reg_read (snd (stop_houdinimcp session r1)) (port_file_name srv) = None.
Proof.
  unfold init_houdinimcp.
  destruct (start env os cuts (new_server (py "localhost") None None) r)
    as [ [ok srv0] r0 ] eqn:Estart.
  destruct ok; [ | discriminate ].
  intros H. inversion H; subst srv0 session r0. clear H.
  revert Estart. unfold start.
  cbn [new_server set_running set_socket port port_range fst snd
       DEFAULT_PORT_RANGE host running socket client buffer thread
       _port_file_path].
  destruct (first_bindable env (py_range 9877 (9886 + 1))) as [ p | ] eqn:Ep.
  2:{ unfold stop, _remove_port_file. cbn. discriminate. }
  apply first_bindable_some in Ep as [Hin Hok].
  apply py_range_bounds in Hin.
  unfold _write_port_file.
  match goal with
  | |- context [write_port_file_ops env cuts ?s] => set (self1 := s)
  end.
  destruct (write_port_file_result env cuts self1
              (fst (_clean_stale_port_files os r)))
    as (d' & Er & Hfinal & _ & _).
  rewrite Er. intros H. inversion H; subst srv r1. clear H.
  split; [ reflexivity | ]. split; [ reflexivity | ].
  split; [ exists p; repeat split; [ lia | lia | exact Hok ] | ].
  split; [ exact Hfinal | ].
  split; [ reflexivity | ].
  split; [ reflexivity | ].
  unfold stop_houdinimcp, stop, _remove_port_file.
  cbn [set_thread set_port_file_path _port_file_path apply_op snd reg_read].
  apply dir_read_remove_same.
Qed.

Lemma session_holds_one_server_witness :
  let started :=
    init_houdinimcp two_taken_env lonely_posix [10%nat] None
      (Some [pidless_file]) in
  exists srv,
    fst (fst started) = Some srv
    /\ snd (fst started) = Some srv
    /\ running srv = true
    /\ (exists p, port srv = Some p /\ 9877 <= p <= 9886
                  /\ env_bind_ok two_taken_env p = true)
    /\ reg_read (snd started) (port_file_name srv)
       = Some (descriptor_text two_taken_env srv)
    /\ (forall env' os' cuts',
          init_houdinimcp env' os' cuts' (snd (fst started)) (snd started)
          = (Some srv, snd (fst started), snd started))
    /\ fst (stop_houdinimcp (snd (fst started)) (snd started)) = None
    /\ reg_read (snd (stop_houdinimcp (snd (fst started)) (snd started)))
         (port_file_name srv) = None.
Proof.
  eexists. split; [ reflexivity | ].
  apply (session_holds_one_server two_taken_env lonely_posix [10%nat]
           (Some [pidless_file])).
  reflexivity.
Defined.
(** * Properties of the installer *)

(** ** Searching a text *)

Lemma startswith_app_sep x needle : forall a b,
  ~ In x needle -> startswith (a ++ x :: b) needle = true ->
  startswith a needle = true.
Proof.
  induction needle as [ | n needle IH ]; intros a b Hx H; [ reflexivity | ].
  destruct a as [ | c a ]; cbn [List.app startswith] in *.
  - apply andb_true_iff in H as [H _]. apply Z.eqb_eq in H. subst n.
    exfalso. apply Hx. now left.
  - apply andb_true_iff in H as [H1 H2]. rewrite H1. cbn [andb].
    apply (IH a b); [ | exact H2 ]. intros Hin. apply Hx. now right.
Qed.

Lemma find_cons_none needle c a :
  find needle (c :: a) = None ->
  startswith (c :: a) needle = false /\ find needle a = None.
Proof.
  cbn [find]. destruct (startswith (c :: a) needle); [ discriminate | ].
  destruct (find needle a); [ discriminate | now split ].
Qed.

(** A text without the needle, followed by a character the needle does
    not contain: the first occurrence lies behind that character. *)
Lemma find_app_sep x needle b : forall a,
  ~ In x needle -> needle <> [] -> find needle a = None ->
  find needle (a ++ x :: b)
  = option_map (fun i => (length a + 1 + i)%nat) (find needle b).
Proof.
  intros a Hx Hne. induction a as [ | c a IH ]; intros Hnone.
  - cbn [List.app find length].
    destruct (startswith (x :: b) needle) eqn:E.
    + destruct needle as [ | n needle ]; [ contradiction | ].
      cbn [startswith] in E. apply andb_true_iff in E as [E _].
      apply Z.eqb_eq in E. subst n. exfalso. apply Hx. now left.
    + destruct (find needle b); reflexivity.
  - apply find_cons_none in Hnone as [Hs Hnone].
    cbn [List.app find length].
    destruct (startswith (c :: a ++ x :: b) needle) eqn:E.
    + apply (startswith_app_sep x needle (c :: a) b Hx) in E. congruence.
    + rewrite (IH Hnone). destruct (find needle b); reflexivity.
Qed.

Lemma find_app_newline needle a :
  ~ In 10 needle -> needle <> [] -> find needle a = None ->
  find needle (a ++ [10]) = None.
Proof.
  intros Hx Hne Hnone. rewrite (find_app_sep 10 needle [] a Hx Hne Hnone).
  cbn [find]. destruct needle; [ contradiction | reflexivity ].
Qed.

Lemma find_with_final_newline needle a :
  ~ In 10 needle -> needle <> [] -> find needle a = None ->
  find needle (with_final_newline a) = None.
Proof.
  intros Hx Hne Hnone. unfold with_final_newline.
  destruct (nonempty a && negb (endswith a [10])); [ | exact Hnone ].
  now apply find_app_newline.
Qed.

Lemma firstn_app_sep {A} (a : list A) x b :
  firstn (length a + 1 + 0) (a ++ x :: b) = a ++ [x].
Proof.
  replace (length a + 1 + 0)%nat with (length (a ++ [x]))
    by (rewrite length_app; simpl; lia).
  replace (a ++ x :: b) with ((a ++ [x]) ++ b) by now rewrite <- app_assoc.
  rewrite firstn_app, Nat.sub_diag, firstn_all. cbn [firstn]. apply app_nil_r.
Qed.

Lemma skipn_app_sep {A} (a : list A) x b k :
  skipn (length a + 1 + k) (a ++ x :: b) = skipn k b.
Proof.
  replace (length a + 1 + k)%nat with (length (a ++ [x]) + k)%nat
    by (rewrite length_app; simpl; lia).
  replace (a ++ x :: b) with ((a ++ [x]) ++ b) by now rewrite <- app_assoc.
  rewrite skipn_app.
  replace (length (a ++ [x]) + k - length (a ++ [x]))%nat with k by lia.
  rewrite skipn_all2 by lia. reflexivity.
Qed.

(** ** Stripping newlines *)

Lemma rstrip_app_newline s : rstrip 10 (s ++ [10]) = rstrip 10 s.
Proof. unfold rstrip. rewrite rev_app_distr. reflexivity. Qed.

Lemma rstrip_with_final_newline s :
  rstrip 10 (with_final_newline s) = rstrip 10 s.
Proof.
  unfold with_final_newline.
  destruct (nonempty s && negb (endswith s [10])); [ | reflexivity ].
  apply rstrip_app_newline.
Qed.

Lemma lstrip_fixed c s : startswith s [c] = false -> lstrip c s = s.
Proof.
  destruct s as [ | x s ]; [ reflexivity | ]. cbn [startswith lstrip].
  rewrite andb_true_r. rewrite Z.eqb_sym. now intros ->.
Qed.

Lemma rstrip_fixed s : endswith s [10] = false -> rstrip 10 s = s.
Proof.
  unfold endswith, rstrip. cbn [List.rev List.app]. intros H.
  rewrite (lstrip_fixed 10 _ H). apply rev_involutive.
Qed.

(** ** The block *)

Lemma hook_start_in_block : find HOOK_START HOOK_BLOCK = Some 0%nat.
Proof. vm_compute. reflexivity. Qed.

Lemma hook_end_in_block : find HOOK_END HOOK_BLOCK = Some 507%nat.
Proof. vm_compute. reflexivity. Qed.

Lemma block_ends_with_newline : rstrip_space HOOK_BLOCK ++ [10] = HOOK_BLOCK.
Proof. vm_compute. reflexivity. Qed.

Lemma block_after_end :
  skipn (507 + length HOOK_END) HOOK_BLOCK = [10].
Proof. vm_compute. reflexivity. Qed.

Lemma hook_start_one_line : ~ In 10 HOOK_START /\ HOOK_START <> [].
Proof.
  split; [ | discriminate ]. vm_compute.
  intros H. repeat (destruct H as [ H | H ]; [ discriminate H | ]). exact H.
Qed.

Lemma hook_end_one_line : ~ In 10 HOOK_END /\ HOOK_END <> [].
Proof.
  split; [ | discriminate ]. vm_compute.
  intros H. repeat (destruct H as [ H | H ]; [ discriminate H | ]). exact H.
Qed.

(** Where the markers are in a file to which the block was appended. *)
Lemma markers_after_append a :
  find HOOK_START a = None -> find HOOK_END a = None ->
  find HOOK_START (a ++ [10] ++ HOOK_BLOCK) = Some (length a + 1 + 0)%nat
  /\ find HOOK_END (a ++ [10] ++ HOOK_BLOCK) = Some (length a + 1 + 507)%nat.
Proof.
  intros Hs He.
  destruct hook_start_one_line as [Hs1 Hs2].
  destruct hook_end_one_line as [He1 He2].
  change (a ++ [10] ++ HOOK_BLOCK) with (a ++ 10 :: HOOK_BLOCK).
  rewrite (find_app_sep 10 HOOK_START HOOK_BLOCK a Hs1 Hs2 Hs).
  rewrite (find_app_sep 10 HOOK_END HOOK_BLOCK a He1 He2 He).
  rewrite hook_start_in_block, hook_end_in_block. now split.
Qed.

(** X24.  Installing twice is installing once.  On a [123.py] that has
    neither marker (or does not exist), [patch_123] appends the block
    after the text, which is given a final newline if it lacks one, and
    an empty line; run again on the file it wrote, it finds the markers,
    replaces the block by itself and writes the same content. *)
Theorem install_is_idempotent (file : option pystr) :
  find HOOK_START (file_text file) = None ->
  find HOOK_END (file_text file) = None ->
  patch_123 file
  = Some (with_final_newline (file_text file) ++ [10] ++ HOOK_BLOCK)
  /\ patch_123 (patch_123 file) = patch_123 file.
Proof.
  intros Hs He.
  assert (E1 : patch_123 file
               = Some (with_final_newline (file_text file) ++ [10] ++ HOOK_BLOCK)).
  { unfold patch_123. fold (file_text file). now rewrite Hs. }
  split; [ exact E1 | ]. rewrite E1.
  set (a := with_final_newline (file_text file)).
  destruct hook_start_one_line as [Hs1 Hs2].
  destruct hook_end_one_line as [He1 He2].
  destruct (markers_after_append a) as [Fs Fe];
    [ now apply find_with_final_newline | now apply find_with_final_newline | ].
  unfold patch_123. rewrite Fs, Fe. f_equal.
  change (a ++ [10] ++ HOOK_BLOCK) with (a ++ 10 :: HOOK_BLOCK).
  rewrite firstn_app_sep.
  replace (length a + 1 + 507 + length HOOK_END)%nat
    with (length a + 1 + (507 + length HOOK_END))%nat by lia.
  rewrite skipn_app_sep, block_after_end.
  rewrite <- app_assoc. cbn [List.app].
  now rewrite block_ends_with_newline.
Qed.

Lemma install_is_idempotent_witness :
  patch_123 (Some user_script)
  = Some (with_final_newline (file_text (Some user_script))
          ++ [10] ++ HOOK_BLOCK)
  /\ patch_123 (patch_123 (Some user_script)) = patch_123 (Some user_script).
Proof.
  apply (install_is_idempotent (Some user_script)); vm_compute; reflexivity.
Defined.

(** X25.  Uninstalling undoes installing.  On the file [patch_123] wrote
    from a [123.py] without markers, [remove_hook] cuts the block out
    together with the empty line before it and leaves the text that was
    there, its trailing newlines replaced by a single one; a text that
    is not empty and ends with exactly one newline, and a file that was
    empty, come back as they were. *)
Theorem uninstall_undoes_install (c installed : pystr) :
  find HOOK_START c = None -> find HOOK_END c = None ->
  patch_123 (Some c) = Some installed ->
  remove_hook (Some installed) = Some (Some (with_final_newline (rstrip 10 c)))
  /\ (c = [] -> remove_hook (Some installed) = Some (Some c))
  /\ (forall body, c = body ++ [10] -> nonempty body = true ->
                   endswith body [10] = false ->
                   remove_hook (Some installed) = Some (Some c)).
Proof.
  intros Hs He Hpatch.
  assert (E1 : installed = with_final_newline c ++ [10] ++ HOOK_BLOCK).
  { unfold patch_123 in Hpatch. rewrite Hs in Hpatch. congruence. }
  subst installed. clear Hpatch.
  set (a := with_final_newline c).
  destruct hook_start_one_line as [Hs1 Hs2].
  destruct hook_end_one_line as [He1 He2].
  destruct (markers_after_append a) as [Fs Fe];
    [ now apply find_with_final_newline | now apply find_with_final_newline | ].
  assert (E : remove_hook (Some (a ++ [10] ++ HOOK_BLOCK))
              = Some (Some (with_final_newline (rstrip 10 c)))).
  { unfold remove_hook. rewrite Fs, Fe.
    change (a ++ [10] ++ HOOK_BLOCK) with (a ++ 10 :: HOOK_BLOCK).
    rewrite firstn_app_sep.
    replace (length a + 1 + 507 + length HOOK_END)%nat
      with (length a + 1 + (507 + length HOOK_END))%nat by lia.
    rewrite skipn_app_sep, block_after_end.
    cbn [lstrip Z.eqb Pos.eqb nonempty].
    rewrite rstrip_app_newline. unfold a.
    now rewrite rstrip_with_final_newline. }
  split; [ exact E | ]. split.
  - intros ->. rewrite E. reflexivity.
  - intros body -> Hne Hend. rewrite E.
    rewrite rstrip_app_newline, (rstrip_fixed body Hend).
    unfold with_final_newline. now rewrite Hne, Hend.
Qed.

Lemma uninstall_undoes_install_witness :
  remove_hook (Some (user_script ++ [10] ++ HOOK_BLOCK))
  = Some (Some (with_final_newline (rstrip 10 user_script)))
  /\ (user_script = [] ->
      remove_hook (Some (user_script ++ [10] ++ HOOK_BLOCK))
      = Some (Some user_script))
  /\ (forall body, user_script = body ++ [10] -> nonempty body = true ->
                   endswith body [10] = false ->
                   remove_hook (Some (user_script ++ [10] ++ HOOK_BLOCK))
                   = Some (Some user_script)).
Proof.
  apply (uninstall_undoes_install user_script
           (user_script ++ [10] ++ HOOK_BLOCK)); vm_compute; reflexivity.
Defined.
(** ** A file that has the markers *)

Lemma startswith_self p r : startswith (p ++ r) p = true.
Proof.
  induction p as [ | a p IH ]; [ reflexivity | ].
  cbn [List.app startswith]. now rewrite Z.eqb_refl, IH.
Qed.

Lemma find_at_head p r : find p (p ++ r) = Some 0%nat.
Proof.
  destruct (p ++ r) as [ | c s ] eqn:E; cbn [find].
  - apply app_eq_nil in E as [-> _]. reflexivity.
  - rewrite <- E. now rewrite startswith_self.
Qed.

Lemma option_map_plus_zero (x : option nat) :
  option_map (fun i => (0 + i)%nat) x = x.
Proof. now destruct x. Qed.

(** A needle whose first character occurs nowhere else in it, sought in
    a text without the needle that is followed by that character: the
    first occurrence does not begin before that character. *)
Lemma find_app_head h ns b : forall a,
  ~ In h ns -> find (h :: ns) a = None ->
  find (h :: ns) (a ++ h :: b)
  = option_map (fun i => (length a + i)%nat) (find (h :: ns) (h :: b)).
Proof.
  intros a Hh. remember (find (h :: ns) (h :: b)) as found eqn:Ef.
  induction a as [ | c a IH ]; intros Hnone.
  - cbn [List.app length]. rewrite <- Ef. now rewrite option_map_plus_zero.
  - apply find_cons_none in Hnone as [Hs Hnone].
    change ((c :: a) ++ h :: b) with (c :: (a ++ h :: b)).
    cbn [find].
    destruct (startswith (c :: a ++ h :: b) (h :: ns)) eqn:E.
    + exfalso. cbn [startswith] in E, Hs.
      apply andb_true_iff in E as [E1 E2].
      apply (startswith_app_sep h ns a b Hh) in E2.
      rewrite E1, E2 in Hs. discriminate.
    + rewrite (IH Hnone). cbn [length]. now destruct found.
Qed.

(** The same needle sought behind a text that does not have its first
    character. *)
Lemma find_app_nohead h ns b : forall a,
  ~ In h a ->
  find (h :: ns) (a ++ b)
  = option_map (fun i => (length a + i)%nat) (find (h :: ns) b).
Proof.
  induction a as [ | c a IH ]; intros Hh.
  - cbn [List.app length]. now rewrite option_map_plus_zero.
  - change ((c :: a) ++ b) with (c :: (a ++ b)). cbn [find startswith].
    replace (h =? c) with false
      by (symmetry; apply Z.eqb_neq; intros ->; apply Hh; now left).
    cbn [andb]. rewrite IH by (intros Hin; apply Hh; now right).
    cbn [length]. now destruct (find (h :: ns) b).
Qed.

Lemma firstn_length_app {A} (a b : list A) : firstn (length a + 0) (a ++ b) = a.
Proof.
  rewrite Nat.add_0_r, firstn_app, Nat.sub_diag, firstn_all.
  cbn [firstn]. apply app_nil_r.
Qed.

Lemma skipn_length_app {A} (a b : list A) : skipn (length a) (a ++ b) = b.
Proof.
  rewrite skipn_app, Nat.sub_diag, skipn_all2 by lia. reflexivity.
Qed.

(** Where the markers are in a file that has them in their order. *)
Lemma markers_in_order pre mid post :
  find HOOK_START pre = None -> find HOOK_END pre = None ->
  find HOOK_END mid = None ->
  find HOOK_START (pre ++ HOOK_START ++ mid ++ HOOK_END ++ post)
  = Some (length pre + 0)%nat
  /\ find HOOK_END (pre ++ HOOK_START ++ mid ++ HOOK_END ++ post)
     = Some (length pre + (length HOOK_START + length mid))%nat.
Proof.
  intros Hs He Hm.
  assert (Ns : ~ In 35 (tl HOOK_START)).
  { vm_compute. intros H.
    repeat (destruct H as [ H | H ]; [ discriminate H | ]). exact H. }
  assert (Ne : ~ In 35 (tl HOOK_END)).
  { vm_compute. intros H.
    repeat (destruct H as [ H | H ]; [ discriminate H | ]). exact H. }
  assert (Es : HOOK_START = 35 :: tl HOOK_START) by reflexivity.
  assert (Ee : HOOK_END = 35 :: tl HOOK_END) by reflexivity.
  split.
  - rewrite Es at 1 2. rewrite Es in Hs. rewrite <- app_comm_cons.
    rewrite (find_app_head 35 _ _ pre Ns Hs).
    change (35 :: tl HOOK_START ++ mid ++ HOOK_END ++ post)
      with (HOOK_START ++ mid ++ HOOK_END ++ post).
    rewrite <- Es. now rewrite find_at_head.
  - assert (Hin : find HOOK_END (HOOK_START ++ mid ++ HOOK_END ++ post)
                  = Some (length HOOK_START + length mid)%nat).
    { rewrite Es at 1. rewrite <- app_comm_cons.
      rewrite Ee at 1. cbn [find].
      assert (Hno : startswith
                      (35 :: tl HOOK_START ++ mid ++ HOOK_END ++ post)
                      (35 :: tl HOOK_END) = false) by reflexivity.
      rewrite Hno.
      rewrite (find_app_nohead 35 (tl HOOK_END) _ (tl HOOK_START) Ns).
      rewrite Ee at 2. rewrite <- app_comm_cons.
      rewrite Ee in Hm.
      rewrite (find_app_head 35 _ _ mid Ne Hm).
      change (35 :: tl HOOK_END ++ post) with (HOOK_END ++ post).
      rewrite <- Ee. rewrite find_at_head. cbn [option_map]. f_equal.
      rewrite Es at 2. cbn [length]. lia. }
    rewrite Es at 1. rewrite Ee at 1. rewrite Ee in He.
    rewrite <- app_comm_cons.
    rewrite (find_app_head 35 _ _ pre Ne He).
    change (35 :: tl HOOK_START ++ mid ++ HOOK_END ++ post)
      with (HOOK_START ++ mid ++ HOOK_END ++ post).
    rewrite <- Ee. now rewrite Hin.
Qed.

(** X26.  Installing over a hook that is already there replaces it.  In a
    [123.py] that holds the start marker, some text and the end marker,
    with neither marker in the text before and no end marker between
    them, [patch_123] puts the current block in the place of what is
    between (and including) the markers and keeps the text before and
    after as it is; applied to the file it wrote, it writes the same
    content again. *)
Theorem reinstall_replaces_the_block (pre mid post : pystr) :
  find HOOK_START pre = None -> find HOOK_END pre = None ->
  find HOOK_END mid = None ->
  patch_123 (Some (pre ++ HOOK_START ++ mid ++ HOOK_END ++ post))
  = Some (pre ++ rstrip_space HOOK_BLOCK ++ post)
  /\ patch_123 (Some (pre ++ rstrip_space HOOK_BLOCK ++ post))
     = Some (pre ++ rstrip_space HOOK_BLOCK ++ post).
Proof.
  intros Hs He Hm.
  assert (Hgen : forall mid',
            find HOOK_END mid' = None ->
            patch_123 (Some (pre ++ HOOK_START ++ mid' ++ HOOK_END ++ post))
            = Some (pre ++ rstrip_space HOOK_BLOCK ++ post)).
  { intros mid' Hm'.
    destruct (markers_in_order pre mid' post Hs He Hm') as [Fs Fe].
    unfold patch_123. rewrite Fs, Fe. f_equal.
    rewrite firstn_length_app. f_equal. f_equal.
    replace (length pre + (length HOOK_START + length mid') + length HOOK_END)%nat
      with (length (pre ++ HOOK_START ++ mid' ++ HOOK_END))
      by (rewrite !length_app; lia).
    replace (pre ++ HOOK_START ++ mid' ++ HOOK_END ++ post)
      with ((pre ++ HOOK_START ++ mid' ++ HOOK_END) ++ post)
      by now rewrite <- !app_assoc.
    apply skipn_length_app. }
  split; [ now apply Hgen | ].
  assert (Eb : rstrip_space HOOK_BLOCK
               = HOOK_START ++ firstn 471 (skipn 36 HOOK_BLOCK) ++ HOOK_END)
    by (vm_compute; reflexivity).
  assert (Hb : find HOOK_END (firstn 471 (skipn 36 HOOK_BLOCK)) = None)
    by (vm_compute; reflexivity).
  rewrite Eb at 1. rewrite <- !app_assoc.
  rewrite (Hgen _ Hb). reflexivity.
Qed.

Lemma reinstall_replaces_the_block_witness :
  patch_123 (Some (user_script ++ HOOK_START ++ older_hook_body
                   ++ HOOK_END ++ [10]))
  = Some (user_script ++ rstrip_space HOOK_BLOCK ++ [10])
  /\ patch_123 (Some (user_script ++ rstrip_space HOOK_BLOCK ++ [10]))
     = Some (user_script ++ rstrip_space HOOK_BLOCK ++ [10]).
Proof.
  apply (reinstall_replaces_the_block user_script older_hook_body [10]);
    vm_compute; reflexivity.
Defined.
